(** * HubSpot translation scripts: path addressing, field extraction,
      checkpointed translation and payload reinjection

    A shallow embedding of the Python scripts under [scripts/]:
    - [get-content.py]      ([extract_text_fields]),
    - [gpt-translate.py] and [translate.py] (the checkpointed loops),
    - [update-content.py]   ([update_nested_field] and the write-back loop),
    - [holiday-page-scripts/update-content.py] ([validate_environment]).

    Python [str] values are modelled by [string]; each [ascii] stands for
    one code point below 256.  Python dictionaries keep insertion order and
    the scripts depend on it ([keys()[-1]], [index]), so a dictionary is an
    association list, with uniqueness of keys stated where a result needs
    it. *)

From Stdlib Require Import List String Ascii Bool Arith ZArith Lia.
From Stdlib Require Import Decimal DecimalNat DecimalString.
Import ListNotations.

Open Scope string_scope.
Open Scope list_scope.
Open Scope nat_scope.

Set Warnings "-register-all".

(* ================================================================== *)
(** * Python string primitives *)
(* ================================================================== *)

(** [str.isspace] for a single code point below 256. *)
Definition is_space (c : ascii) : bool :=
  let n := nat_of_ascii c in
  ((9 <=? n) && (n <=? 13)) || ((28 <=? n) && (n <=? 32))
  || (n =? 133) || (n =? 160).

(** Decimal digits below code point 256 are exactly ['0'..'9']. *)
Definition is_digit (c : ascii) : bool :=
  let n := nat_of_ascii c in (48 <=? n) && (n <=? 57).

Definition digit_value (c : ascii) : Z := Z.of_nat (nat_of_ascii c) - 48.

(** [str.lower] on one code point below 256: the ASCII capitals and the
    Latin-1 capitals U+00C0..U+00DE (the multiplication sign apart). *)
Definition lower_char (c : ascii) : ascii :=
  let n := nat_of_ascii c in
  if ((65 <=? n) && (n <=? 90))
     || ((192 <=? n) && (n <=? 222) && negb (n =? 215))
  then ascii_of_nat (n + 32) else c.

Fixpoint lower (s : string) : string :=
  match s with
  | EmptyString => EmptyString
  | String c r => String (lower_char c) (lower r)
  end.

Fixpoint rev_onto (s acc : string) : string :=
  match s with
  | EmptyString => acc
  | String c r => rev_onto r (String c acc)
  end.

Definition reverse (s : string) : string := rev_onto s EmptyString.

Fixpoint lstrip (s : string) : string :=
  match s with
  | EmptyString => EmptyString
  | String c r => if is_space c then lstrip r else s
  end.

Definition rstrip (s : string) : string := reverse (lstrip (reverse s)).

(** [s.strip()] *)
Definition strip (s : string) : string := rstrip (lstrip s).

(** [s.startswith(p)] *)
Definition startswith (s p : string) : bool := String.prefix p s.

(** [s.endswith(p)] *)
Definition endswith (s p : string) : bool :=
  String.prefix (reverse p) (reverse s).

(** [sub in s] *)
Fixpoint contains (sub s : string) : bool :=
  String.prefix sub s ||
  match s with
  | EmptyString => false
  | String _ r => contains sub r
  end.

(** [c in s] for a one-character needle. *)
Fixpoint has_char (c : ascii) (s : string) : bool :=
  match s with
  | EmptyString => false
  | String a r => Ascii.eqb a c || has_char c r
  end.

(** [s.find(c)], used by the scripts only when [c] occurs in [s]; an
    absent character gives the length here (Python gives -1). *)
Fixpoint find_char (c : ascii) (s : string) : nat :=
  match s with
  | EmptyString => 0
  | String a r => if Ascii.eqb a c then 0 else S (find_char c r)
  end.

(** [s[a:b]] for [0 <= a] and [0 <= b]; empty when [b <= a]. *)
Definition slice (a b : nat) (s : string) : string :=
  String.substring a (b - a) s.

(** [s[n:]] *)
Fixpoint drop (n : nat) (s : string) : string :=
  match n, s with
  | O, _ => s
  | S _, EmptyString => EmptyString
  | S m, String _ r => drop m r
  end.

(** [s[:-n]] for [n >= 1]. *)
Definition drop_last (n : nat) (s : string) : string :=
  reverse (drop n (reverse s)).

(** [s.split(c)] for a one-character separator: never the empty list. *)
Fixpoint split_char (c : ascii) (s : string) : list string :=
  match s with
  | EmptyString => [EmptyString]
  | String a r =>
      if Ascii.eqb a c then EmptyString :: split_char c r
      else match split_char c r with
           | h :: t => String a h :: t
           | [] => [String a EmptyString]
           end
  end.

(** The digits of [int(text)] after sign and blanks are removed: decimal
    digits, with single underscores allowed between two digits. *)
Fixpoint int_digits (acc : Z) (after_digit : bool) (s : string) : option Z :=
  match s with
  | EmptyString => if after_digit then Some acc else None
  | String c r =>
      if is_digit c then int_digits (10 * acc + digit_value c) true r
      else if Ascii.eqb c "_" then
             if after_digit then int_digits acc false r else None
           else None
  end.

(** The blanks that [int] drops around a number: the ASCII blanks, and
    the two blanks above U+007F that a text below 256 can hold (U+0085 and
    U+00A0).  U+001C to U+001F, which [str.strip] drops, are no blanks for
    [int]. *)
Definition is_int_space (c : ascii) : bool :=
  let n := nat_of_ascii c in
  ((9 <=? n) && (n <=? 13)) || (n =? 32) || (n =? 133) || (n =? 160).

Fixpoint int_lstrip (s : string) : string :=
  match s with
  | EmptyString => EmptyString
  | String c r => if is_int_space c then int_lstrip r else s
  end.

Definition int_strip (s : string) : string :=
  reverse (int_lstrip (reverse (int_lstrip s))).

(** The number of decimal digits in a text. *)
Fixpoint count_digits (s : string) : nat :=
  match s with
  | EmptyString => 0
  | String c r => (if is_digit c then 1 else 0) + count_digits r
  end.

(** [sys.get_int_max_str_digits()] as the interpreter starts; none of the
    scripts changes it. *)
Definition max_str_digits : nat := 4300.

(** [int(text)]: [None] stands for [ValueError].  Blanks around the number
    are dropped, one sign may precede the digits, and a text with more
    than [max_str_digits] digits is refused whatever it holds. *)
Definition python_int (text : string) : option Z :=
  let t := int_strip text in
  if max_str_digits <? count_digits t then None
  else
    match t with
    | String "+" r => int_digits 0 false r
    | String "-" r => option_map Z.opp (int_digits 0 false r)
    | t => int_digits 0 false t
    end.

(** [c * n] for a one-character string [c]. *)
Fixpoint replicate (n : nat) (c : ascii) : string :=
  match n with
  | O => EmptyString
  | S m => String c (replicate m c)
  end.

(** [f"{i}"] for a list position [i]. *)
Definition format_nat (i : nat) : string :=
  NilEmpty.string_of_uint (Nat.to_uint i).

(* ================================================================== *)
(** * Exceptions and results *)
(* ================================================================== *)

Inductive exn := KeyError | IndexError | TypeError | ValueError.

Inductive res (A : Type) : Type :=
| Ret (a : A)
| Raise (e : exn).
Arguments Ret {A} a.
Arguments Raise {A} e.

Definition bind {A B} (m : res A) (k : A -> res B) : res B :=
  match m with
  | Ret a => k a
  | Raise e => Raise e
  end.

Notation "x <- m ;; k" := (bind m (fun x => k))
  (at level 61, m at next level, right associativity).

(* ================================================================== *)
(** * Dictionaries in insertion order *)
(* ================================================================== *)

Section Dict.
Context {K V : Type}.
Variable eqk : K -> K -> bool.

(** [d.get(k)] *)
Fixpoint dict_get (k : K) (d : list (K * V)) : option V :=
  match d with
  | [] => None
  | (k', v) :: r => if eqk k' k then Some v else dict_get k r
  end.

(** [k in d] *)
Definition dict_mem (k : K) (d : list (K * V)) : bool :=
  match dict_get k d with Some _ => true | None => false end.

(** [d[k] = v]: an existing key keeps its place, a new key goes last. *)
Fixpoint dict_set (k : K) (v : V) (d : list (K * V)) : list (K * V) :=
  match d with
  | [] => [(k, v)]
  | (k', v') :: r =>
      if eqk k' k then (k', v) :: r else (k', v') :: dict_set k v r
  end.
End Dict.

(** [list(d.keys())] *)
Definition keys {K V} (d : list (K * V)) : list K := map fst d.

(** A flat mapping: path string to text. *)
Definition flat := list (string * string).

Definition flat_get := @dict_get string string String.eqb.
Definition flat_mem := @dict_mem string string String.eqb.
Definition flat_set := @dict_set string string String.eqb.

(* ================================================================== *)
(** * Documents *)
(* ================================================================== *)

(** A document as [response.json()] and [json.load] build it: every
    mapping key is a string.  Numbers are leaves that no script inspects. *)
Inductive json :=
| JNull
| JBool (b : bool)
| JNum (n : Z)
| JStr (s : string)
| JList (l : list json)
| JDict (d : list (string * json)).

(** A document while [update-content.py] mutates it: an assignment
    [ref[field][idx] = v] into a mapping stores under the integer [idx],
    so keys are strings or integers. *)
Inductive pykey :=
| KStr (s : string)
| KInt (n : Z).

Inductive pyobj :=
| PNone
| PBool (b : bool)
| PNum (n : Z)
| PStr (s : string)
| PList (l : list pyobj)
| PDict (d : list (pykey * pyobj)).

Definition pykey_eqb (a b : pykey) : bool :=
  match a, b with
  | KStr x, KStr y => String.eqb x y
  | KInt x, KInt y => Z.eqb x y
  | _, _ => false
  end.

(** The Python object that a parsed document is. *)
Fixpoint embed (j : json) : pyobj :=
  match j with
  | JNull => PNone
  | JBool b => PBool b
  | JNum n => PNum n
  | JStr s => PStr s
  | JList l => PList (map embed l)
  | JDict d => PDict (map (fun kv => (KStr (fst kv), embed (snd kv))) d)
  end.

(** Position of index [i] in a sequence of length [len], counting from the
    end when negative; [None] is [IndexError]. *)
Definition norm_index (i : Z) (len : nat) : option nat :=
  let n := Z.of_nat len in
  if ((0 <=? i) && (i <? n))%Z then Some (Z.to_nat i)
  else if ((- n <=? i) && (i <? 0))%Z then Some (Z.to_nat (i + n))
  else None.

Fixpoint list_set {A} (n : nat) (x : A) (l : list A) : list A :=
  match l, n with
  | [], _ => []
  | _ :: r, O => x :: r
  | a :: r, S m => a :: list_set m x r
  end.

(** [x[k]] *)
Definition getitem (x : pyobj) (k : pykey) : res pyobj :=
  match x with
  | PDict d =>
      match dict_get pykey_eqb k d with
      | Some v => Ret v
      | None => Raise KeyError
      end
  | PList l =>
      match k with
      | KInt i =>
          match norm_index i (List.length l) with
          | Some n =>
              match nth_error l n with
              | Some v => Ret v
              | None => Raise IndexError
              end
          | None => Raise IndexError
          end
      | KStr _ => Raise TypeError
      end
  | PStr s =>
      match k with
      | KInt i =>
          match norm_index i (String.length s) with
          | Some n =>
              match String.get n s with
              | Some c => Ret (PStr (String c EmptyString))
              | None => Raise IndexError
              end
          | None => Raise IndexError
          end
      | KStr _ => Raise TypeError
      end
  | _ => Raise TypeError
  end.

(** [x[k] = v]: the object [x] after the assignment. *)
Definition setitem (x : pyobj) (k : pykey) (v : pyobj) : res pyobj :=
  match x with
  | PDict d => Ret (PDict (dict_set pykey_eqb k v d))
  | PList l =>
      match k with
      | KInt i =>
          match norm_index i (List.length l) with
          | Some n => Ret (PList (list_set n v l))
          | None => Raise IndexError
          end
      | KStr _ => Raise TypeError
      end
  | _ => Raise TypeError
  end.

(* ================================================================== *)
(** * get-content.py: the field extractor *)
(* ================================================================== *)

Definition text_keywords : list string :=
  ["text"; "heading"; "title"; "label"; "content"; "value";
   "placeholder"; "caption"; "alt"; "description"].

Definition bad_keywords : list string := ["script"; "style"; "css"; "path"].

(** [any(kw in key.lower() for kw in kws)] *)
Definition any_keyword (kws : list string) (key : string) : bool :=
  existsb (fun kw => contains kw (lower key)) kws.

(** The three tests a string leaf passes before it is collected. *)
Definition collects (key value : string) : bool :=
  any_keyword text_keywords key
  && negb (any_keyword bad_keywords key)
  && negb (String.eqb (strip value) "").

(** [extract_text_fields(obj, path, result)].  The dictionary [result] is
    one shared object that every recursive call writes to; the embedding
    threads it through the calls in the order of the two [for] loops. *)
Fixpoint extract_text_fields (obj : json) (path : string) (result : flat)
  : flat :=
  match obj with
  | JDict d =>
      (fix items (d : list (string * json)) (result : flat) : flat :=
         match d with
         | [] => result
         | (key, value) :: rest =>
             items rest
               match value with
               | JDict _ | JList _ =>
                   extract_text_fields value (path ++ "." ++ key) result
               | JStr s =>
                   if collects key s
                   then flat_set (path ++ "." ++ key) s result
                   else result
               | _ => result
               end
         end) d result
  | JList l =>
      (fix each (i : nat) (l : list json) (result : flat) : flat :=
         match l with
         | [] => result
         | item :: rest =>
             each (S i) rest
               (extract_text_fields item
                  (path ++ "[" ++ format_nat i ++ "]") result)
         end) 0 l result
  | _ => result
  end%string.

(** [translatable_fields = extract_text_fields(page_data)] *)
Definition translatable_fields (page_data : json) : flat :=
  extract_text_fields page_data "root" [].

(* ================================================================== *)
(** * update-content.py: path addressing and payload reinjection *)
(* ================================================================== *)

(** ["[" in p and "]" in p] *)
Definition has_index (p : string) : bool := has_char "[" p && has_char "]" p.

(** [p.split("[")[0]] *)
Definition field_of (p : string) : string := hd EmptyString (split_char "[" p).

(** [p[p.find("[") + 1 : p.find("]")]] *)
Definition index_text (p : string) : string :=
  slice (S (find_char "[" p)) (find_char "]" p) p.

(** One turn of [for p in parts[:-1]]: the object [ref] is bound to next.
    [int(...)] runs before the two subscripts. *)
Definition step_into (ref : pyobj) (p : string) : res pyobj :=
  if has_index p then
    match python_int (index_text p) with
    | None => Raise ValueError
    | Some idx =>
        x <- getitem ref (KStr (field_of p)) ;; getitem x (KInt idx)
    end
  else getitem ref (KStr p).

(** The whole [for] loop on a list of segments. *)
Fixpoint walk (ref : pyobj) (parts : list string) : res pyobj :=
  match parts with
  | [] => Ret ref
  | p :: rest => child <- step_into ref p ;; walk child rest
  end.

Definition put_item (x : pyobj) (k : pykey) (v : pyobj) : pyobj :=
  match setitem x k v with
  | Ret x' => x'
  | Raise _ => x
  end.

(** The assignment through [last_key]: [ref] afterwards. *)
Definition assign_last (ref : pyobj) (last_key : string) (new_value : pyobj)
  : res pyobj :=
  if has_index last_key then
    match python_int (index_text last_key) with
    | None => Raise ValueError
    | Some idx =>
        x <- getitem ref (KStr (field_of last_key)) ;;
        x' <- setitem x (KInt idx) new_value ;;
        Ret (put_item ref (KStr (field_of last_key)) x')
    end
  else setitem ref (KStr last_key) new_value.

(** [ref] once the object that [step_into ref p] reached has changed to
    [child]: the loop variable aliases a part of [data_obj], so the final
    assignment is seen from the root. *)
Definition put_back (ref : pyobj) (p : string) (child : pyobj) : pyobj :=
  if has_index p then
    match python_int (index_text p), getitem ref (KStr (field_of p)) with
    | Some idx, Ret x =>
        put_item ref (KStr (field_of p)) (put_item x (KInt idx) child)
    | _, _ => ref
    end
  else put_item ref (KStr p) child.

(** The [try] block: walk [parts[:-1]], assign through [parts[-1]]; the
    result is [data_obj] after the assignment. *)
Fixpoint update_parts (ref : pyobj) (parts : list string) (new_value : pyobj)
  : res pyobj :=
  match parts with
  | [] => Ret ref
  | p :: rest =>
      match rest with
      | [] => assign_last ref p new_value
      | _ :: _ =>
          child <- step_into ref p ;;
          child' <- update_parts child rest new_value ;;
          Ret (put_back ref p child')
      end
  end.

(** [update_nested_field(data_obj, key_path, new_value)]: the returned
    flag together with [data_obj] afterwards.  [KeyError], [IndexError]
    and [TypeError] are caught; [ValueError] is not. *)
Definition update_nested_field (data_obj : pyobj) (key_path : string)
    (new_value : pyobj) : res (bool * pyobj) :=
  match update_parts data_obj (split_char "." key_path) new_value with
  | Ret data_obj' => Ret (true, data_obj')
  | Raise ValueError => Raise ValueError
  | Raise _ => Ret (false, data_obj)
  end.

(** Reading through a path the way the writer addresses it: the segments
    before the last lead to the container, the last one is looked up in
    it. *)
Definition read_nested_field (data_obj : pyobj) (key_path : string)
  : res pyobj :=
  let parts := split_char "." key_path in
  ref <- walk data_obj (removelast parts) ;;
  step_into ref (last parts EmptyString).

(** [suffix = f"_{TARGET_SUFFIX}"] *)
Definition suffix_of (TARGET_SUFFIX : string) : string :=
  ("_" ++ TARGET_SUFFIX)%string.

(** The suffix when [TARGET_LANG_SUFFIX] is not set: [language = "th"]. *)
Definition default_target_suffix : string := "th".

(** [{k[:-suffix_len]: v for k, v in data.items() if k.endswith(suffix)}] *)
Definition collect_translations (suffix : string)
    (data : list (string * json)) : list (string * json) :=
  fold_left
    (fun acc kv =>
       if endswith (fst kv) suffix
       then dict_set String.eqb
              (drop_last (String.length suffix) (fst kv)) (snd kv) acc
       else acc)
    data [].

(** [key[5:] if key.startswith("root.") else key] *)
Definition clean_path (key : string) : string :=
  if startswith key "root." then drop 5 key else key.

(** What the write-back loop has accumulated: the page, the two tallies,
    and the console lines of the loop, one per entry ([true] for
    "Updated: path", [false] for "Could not locate: path"). *)
Record report := {
  page_data : pyobj;
  updated : nat;
  not_found : list string;
  printed : list (bool * string)
}.

(** One turn of [for key, translated_text in translations.items()]. *)
Definition apply_one (st : report) (entry : string * json) : res report :=
  let clean := clean_path (fst entry) in
  r <- update_nested_field (page_data st) clean (embed (snd entry)) ;;
  if fst r
  then Ret {| page_data := snd r; updated := S (updated st);
              not_found := not_found st;
              printed := printed st ++ [(true, clean)] |}
  else Ret {| page_data := snd r; updated := updated st;
              not_found := not_found st ++ [clean];
              printed := printed st ++ [(false, clean)] |}.

Fixpoint apply_translations (translations : list (string * json))
    (st : report) : res report :=
  match translations with
  | [] => Ret st
  | entry :: rest => st' <- apply_one st entry ;; apply_translations rest st'
  end.

(** Lines 31 to 99 of the script: select the suffixed keys of the
    translation file, then write each one into the fetched page. *)
Definition reinject (TARGET_SUFFIX : string) (data : list (string * json))
    (page : pyobj) : res report :=
  apply_translations
    (collect_translations (suffix_of TARGET_SUFFIX) data)
    {| page_data := page; updated := 0; not_found := []; printed := [] |}.

(* ================================================================== *)
(** * gpt-translate.py and translate.py: the checkpointed loop *)
(* ================================================================== *)

(** [s] with a leading [p] removed, when [s] starts with [p]. *)
Fixpoint strip_prefix (p s : string) : option string :=
  match p, s with
  | EmptyString, _ => Some s
  | String a p', String b s' =>
      if Ascii.eqb a b then strip_prefix p' s' else None
  | String _ _, EmptyString => None
  end.

Fixpoint skip_digits (s : string) : string :=
  match s with
  | EmptyString => EmptyString
  | String c r => if is_digit c then skip_digits r else s
  end.

(** The pattern [\.rows\[\d+\]\.0\.rows\[0\]\.0\.label] ending exactly at
    the end of [key], read from the last character backwards. *)
Definition dynamic_row_at_end (key : string) : bool :=
  match strip_prefix (reverse "].0.rows[0].0.label") (reverse key) with
  | Some r =>
      match r with
      | String c _ =>
          is_digit c && String.prefix (reverse ".rows[") (skip_digits r)
      | EmptyString => false
      end
  | None => false
  end.

(** [bool(re.search(r"\.rows\[\d+\]\.0\.rows\[0\]\.0\.label$", key))]:
    [$] matches at the end of the string and before a final newline. *)
Definition is_exact_dynamic_row_pattern (key : string) : bool :=
  dynamic_row_at_end key
  || match reverse key with
     | String c r => Ascii.eqb c "010" && dynamic_row_at_end (reverse r)
     | EmptyString => false
     end.

(** [value.strip().lower().startswith("lorem ipsum")] *)
Definition is_placeholder_text (value : string) : bool :=
  startswith (lower (strip value)) "lorem ipsum".

Definition is_content_type_key (key : string) : bool :=
  endswith key ".content_type".

Definition is_dnd_area_label_key (key : string) : bool :=
  endswith key "dnd_area.label".

Definition is_rows_label_key (key : string) : bool :=
  endswith key "0.rows[0].0.label".

(** What the chain of [if ... continue] tests decides for an entry that is
    not yet in the translated mapping. *)
Inductive action :=
| Skip        (* [continue] with nothing written *)
| Copy        (* the value is stored as it is, then the file is written *)
| Translate.  (* the external call is made *)

(** The entries for which the external call is made. *)
Definition wants_call (a : action) : bool :=
  match a with
  | Translate => true
  | Skip | Copy => false
  end.

(** The tests of gpt-translate.py, in the order of the file. *)
Definition gpt_rules (key value : string) : action :=
  if is_placeholder_text value then Skip
  else if is_dnd_area_label_key key then Copy
  else if is_rows_label_key key then Copy
  else if is_exact_dynamic_row_pattern key then Skip
  else if is_content_type_key key then Copy
  else Translate.

(** The tests of translate.py, in the order of the file. *)
Definition translate_rules (key value : string) : action :=
  if is_exact_dynamic_row_pattern key then Skip
  else if is_placeholder_text value then Skip
  else if is_content_type_key key then Copy
  else Translate.

(** The translated-mapping file on disk. *)
Inductive file :=
| Absent
| Unparseable
| Holds (d : flat).

(** [translated_content] as the script loads it. *)
Definition load_translated (f : file) : flat :=
  match f with
  | Holds d => d
  | Absent | Unparseable => []
  end.

(** What one external call leaves in [translated_text]: an exception
    anywhere in the [try] block, or the cleaned text of the reply (empty
    when the reply carries none). *)
Inductive reply :=
| Failed
| Text (t : string).

(** The state of one run: the dictionary in memory, the file, the external
    calls issued so far (key and value sent), the counter. *)
Record state := {
  translated_content : flat;
  translated_file : file;
  calls : list (string * string);
  translated_count : nat
}.

(** [translated_content[key] = text] *)
Definition remember (key text : string) (st : state) : state :=
  {| translated_content := flat_set key text (translated_content st);
     translated_file := translated_file st;
     calls := calls st;
     translated_count := translated_count st |}.

(** [with open(translated_path, "w") as f: json.dump(translated_content,
    f, ...)], once the block is left: the file holds the mapping.  The
    states inside the block are those of [dump_states]. *)
Definition persist (st : state) : state :=
  {| translated_content := translated_content st;
     translated_file := Holds (translated_content st);
     calls := calls st;
     translated_count := translated_count st |}.

(** [translated_count += 1] *)
Definition counted (st : state) : state :=
  {| translated_content := translated_content st;
     translated_file := translated_file st;
     calls := calls st;
     translated_count := S (translated_count st) |}.

(** A pass-through copy: the assignment, then the dump. *)
Definition store (key text : string) (st : state) : state :=
  persist (remember key text st).



Section Loop.

(** The chain of tests of the script at hand. *)
Variable rules : string -> string -> action.

(** The translation service: the reply to the n-th call of the run. *)
Variable oracle : nat -> reply.

(** The body of the [for] loop for one [(key, value)]. *)
Definition loop_step (st : state) (entry : string * string) : state :=
  let (key, value) := entry in
  if flat_mem key (translated_content st) then st
  else
    match rules key value with
    | Skip => st
    | Copy => store key value st
    | Translate =>
        let asked :=
          {| translated_content := translated_content st;
             translated_file := translated_file st;
             calls := calls st ++ [(key, value)];
             translated_count := translated_count st |} in
        match oracle (List.length (calls st)) with
        | Failed => asked
        | Text t =>
            if String.eqb t "" then asked
            else persist (counted (remember key t asked))
        end
    end.

Definition loop (entries : flat) (st : state) : state :=
  fold_left loop_step entries st.



End Loop.

(** [base_keys.index(k)] *)
Fixpoint index_of (k : string) (l : list string) : option nat :=
  match l with
  | [] => None
  | x :: r => if String.eqb x k then Some 0 else option_map S (index_of k r)
  end.

(** [k in l] *)
Definition mem (k : string) (l : list string) : bool :=
  existsb (String.eqb k) l.

(** [l[-1]] *)
Definition last_key (l : list string) : option string :=
  match l with
  | [] => None
  | _ :: _ => Some (last l EmptyString)
  end.

(** Lines "Resume or start translation": [start_index]. *)
Definition start_index (base_keys translated_keys : list string) : nat :=
  match last_key translated_keys with
  | None => 0
  | Some last_translated_key =>
      match index_of last_translated_key base_keys with
      | Some i => S i
      | None => 0
      end
  end.

(** How a run of the script ends. *)
Inductive outcome :=
| AlreadyComplete            (* "All text is already translated." *)
| Crashed (e : exn)          (* [base_keys[-1]] on an empty source mapping *)
| Finished (st : state).     (* the loop ran to its end *)

(** [if translated_keys and base_keys[-1] in translated_keys] *)
Definition completion_check (base_keys translated_keys : list string)
  : res bool :=
  match translated_keys with
  | [] => Ret false
  | _ :: _ =>
      match last_key base_keys with
      | None => Raise IndexError
      | Some k => Ret (mem k translated_keys)
      end
  end.

Definition initial_state (f : file) : state :=
  {| translated_content := load_translated f;
     translated_file := f;
     calls := [];
     translated_count := 0 |}.

(** One run of a translation script, from loading the translated file to
    the end of the loop, when nothing stops it.  The timestamped backup
    copy made before the loop and the pauses after a call touch neither
    the mapping nor the translated file and are left out.  The states that
    the run passes through on its way are those of [loop_states]. *)
Definition run (rules : string -> string -> action) (oracle : nat -> reply)
    (base_content : flat) (f : file) : outcome :=
  let translated_content := load_translated f in
  let base_keys := keys base_content in
  let translated_keys := keys translated_content in
  match completion_check base_keys translated_keys with
  | Raise e => Crashed e
  | Ret true => AlreadyComplete
  | Ret false =>
      let start := start_index base_keys translated_keys in
      Finished (loop rules oracle (skipn start base_content)
                  (initial_state f))
  end.

(** The two scripts that carry the loop. *)
Inductive script :=
| GptTranslate      (* gpt-translate.py *)
| GeminiTranslate.  (* translate.py *)

Definition rules_of (s : script) : string -> string -> action :=
  match s with
  | GptTranslate => gpt_rules
  | GeminiTranslate => translate_rules
  end.

(** The keys a script copies without translating. *)
Definition pass_through (s : script) (key : string) : bool :=
  match s with
  | GptTranslate =>
      is_dnd_area_label_key key || is_rows_label_key key
      || is_content_type_key key
  | GeminiTranslate => is_content_type_key key
  end.

Definition run_script (s : script) := run (rules_of s).

(** The file a run leaves behind, and the calls it issued. *)
Definition file_after (f : file) (o : outcome) : file :=
  match o with
  | Finished st => translated_file st
  | _ => f
  end.

Definition calls_of (o : outcome) : list (string * string) :=
  match o with
  | Finished st => calls st
  | _ => []
  end.

(** Two runs in a row on the same source mapping: the second starts from
    the file the first one left. *)
Definition second_run (s : script) (oracle1 oracle2 : nat -> reply)
    (base_content : flat) (f : file) : outcome :=
  run_script s oracle2 base_content
    (file_after f (run_script s oracle1 base_content f)).

(* ================================================================== *)
(** * Start of the scripts: environment values *)
(* ================================================================== *)

(** [os.getenv] *)
Definition environ := string -> option string.

Inductive message :=
| Banner
| MissingApiKey       (* "HUBSPOT_API_KEY not found in .env file" *)
| MissingPageId       (* "PAGE_ID not found in .env file" *)
| EnvHint
| FetchFailed.

(** What a script does that the outside can see. *)
Inductive event :=
| Print (m : message)
| HttpGet (url authorization : string)
| HttpPatch (url authorization : string)
| Exit.

(** [f"{v}"] for a value of [os.getenv]. *)
Definition format_env (v : option string) : string :=
  match v with
  | Some s => s
  | None => "None"
  end.

(** [not v] for a value of [os.getenv]. *)
Definition falsy (v : option string) : bool :=
  match v with
  | Some s => String.eqb s ""
  | None => true
  end.

Definition site_pages : string :=
  "https://api.hubapi.com/cms/v3/pages/site-pages/".

(** scripts/get-content.py from its first line to the test of the
    response; [ok] tells whether the status code is 200 and [later] is
    what the script does after a successful fetch. *)
Definition get_content_script (env : environ) (ok : bool)
    (later : list event) : list event :=
  let HUBSPOT_API_KEY := env "HUBSPOT_API_KEY" in
  let PAGE_ID := env "PAGE_ID" in
  let page_url := (site_pages ++ format_env PAGE_ID)%string in
  let authorization := ("Bearer " ++ format_env HUBSPOT_API_KEY)%string in
  HttpGet page_url authorization ::
  (if ok then later else [Print FetchFailed; Exit]).

(** holiday-page-scripts/update-content.py: [validate_environment], with
    the lines it prints. *)
Definition validate_environment (env : environ) : bool * list event :=
  if falsy (env "HUBSPOT_API_KEY") then (false, [Print MissingApiKey])
  else if falsy (env "PAGE_ID") then (false, [Print MissingPageId])
  else (true, []).

(** holiday-page-scripts/update-content.py: [main], where [later] is what
    follows a successful validation. *)
Definition holiday_update_main (env : environ) (later : list event)
  : list event :=
  Print Banner ::
  let (valid, lines) := validate_environment env in
  lines ++ (if valid then later else [Print EnvHint]).

Definition is_request (e : event) : bool :=
  match e with
  | HttpGet _ _ | HttpPatch _ _ => true
  | _ => false
  end.

(* ================================================================== *)
(** * Predicates used in the statements *)
(* ================================================================== *)

(** A key that the path format can carry: no dot and no bracket. *)
Definition plain_key (key : string) : bool :=
  negb (has_char "." key) && negb (has_char "[" key)
  && negb (has_char "]" key).

Definition is_list (j : json) : bool :=
  match j with JList _ => true | _ => false end.

Definition is_dict (j : json) : bool :=
  match j with JDict _ => true | _ => false end.

Fixpoint distinct (l : list string) : bool :=
  match l with
  | [] => true
  | x :: r => negb (mem x r) && distinct r
  end.

(** Documents whose paths the format can carry: keys are plain and differ
    inside one mapping, no list is an element of a list, and every
    position of a list is written in no more digits than [int] reads back
    (so it is for every list that the interpreter can hold). *)
Fixpoint addressable (j : json) : bool :=
  match j with
  | JDict d =>
      distinct (keys d)
      && forallb (fun kv => plain_key (fst kv) && addressable (snd kv)) d
  | JList l =>
      forallb (fun i => count_digits (format_nat i) <=? max_str_digits)
        (seq 0 (List.length l))
      && forallb (fun x => negb (is_list x) && addressable x) l
  | _ => true
  end.

Fixpoint all_digits (s : string) : bool :=
  match s with
  | EmptyString => true
  | String c r => is_digit c && all_digits r
  end.

(** Decimal-integer text: at least one digit, with an optional sign. *)
Definition is_decimal_text (s : string) : bool :=
  match s with
  | EmptyString => false
  | String c r =>
      if Ascii.eqb c "+" || Ascii.eqb c "-"
      then negb (String.eqb r "") && all_digits r
      else all_digits s
  end.



(** The console lines about paths that could not be located. *)
Definition unresolved (lines : list (bool * string)) : list string :=
  map snd (filter (fun line => negb (fst line)) lines).

(** The console lines about paths that were updated. *)
Definition resolved (lines : list (bool * string)) : list string :=
  map snd (filter (fun line => fst line) lines).

(** The body of [for key, value in obj.items()] in the extractor. *)
Definition extract_item (path : string) (result : flat)
    (kv : string * json) : flat :=
  match snd kv with
  | JDict _ | JList _ =>
      extract_text_fields (snd kv) (path ++ "." ++ fst kv)%string result
  | JStr s =>
      if collects (fst kv) s
      then flat_set (path ++ "." ++ fst kv)%string s result
      else result
  | _ => result
  end.

(** The loop [for i, item in enumerate(obj)] of the extractor, from
    position [i] on. *)
Fixpoint extract_each (path : string) (i : nat) (l : list json)
    (result : flat) : flat :=
  match l with
  | [] => result
  | item :: rest =>
      extract_each path (S i) rest
        (extract_text_fields item
           (path ++ "[" ++ format_nat i ++ "]")%string result)
  end.

(** The path text [prefix] leads from the document [doc] to [obj]:
    whatever follows the prefix is resolved from [obj]. *)
Definition resolves_at (doc : pyobj) (prefix : string) (obj : pyobj) : Prop :=
  forall rest,
    walk doc (split_char "." (prefix ++ rest)%string)
    = walk obj (split_char "." rest).

(** A translation service that answers every call with some text. *)
Definition always_answers (oracle : nat -> reply) : Prop :=
  forall n, exists t, oracle n = Text t /\ t <> EmptyString.


(** The exception a computation ends with, if any. *)
Definition raised {A} (r : res A) : option exn :=
  match r with
  | Ret _ => None
  | Raise e => Some e
  end.

(** The writes of the write-back loop, one after another:
    [writes page translations lines page'] says that
    [update_nested_field], called for each translation in turn on the
    page that the call before it left, returned the flags listed in
    [lines] (each beside the path it was called with) and left [page'] in
    the end. *)
Inductive writes :
  pyobj -> list (string * json) -> list (bool * string) -> pyobj -> Prop :=
| writes_done (page : pyobj) : writes page [] [] page
| writes_next (page page' page'' : pyobj) (entry : string * json)
    (rest : list (string * json)) (flag : bool)
    (lines : list (bool * string)) :
    update_nested_field page (clean_path (fst entry)) (embed (snd entry))
    = Ret (flag, page') ->
    writes page' rest lines page'' ->
    writes page (entry :: rest) ((flag, clean_path (fst entry)) :: lines)
      page''.

(** [int] refuses the bracket text of a segment of the path. *)
Definition refused_index (key_path : string) : Prop :=
  exists p, In p (split_char "." key_path)
            /\ has_index p = true
            /\ python_int (index_text p) = None.

(** The entries the comprehension of [collect_translations] keeps, with
    the suffix removed. *)
Definition selected (suffix : string) (data : list (string * json))
  : list (string * json) :=
  map (fun kv => (drop_last (String.length suffix) (fst kv), snd kv))
      (filter (fun kv => endswith (fst kv) suffix) data).

(* ================================================================== *)
(** * update-content.py: the rest of the write-back script *)
(* ================================================================== *)

(** [parts[0]] of a path. *)
Definition first_segment (key_path : string) : string :=
  hd EmptyString (split_char "." key_path).

(** The top-level key that a path goes through. *)
Definition top_key (key_path : string) : string :=
  let p := first_segment key_path in
  if has_index p then field_of p else p.

(** The first segment has brackets around text that [int] rejects. *)
Definition rejects_index (key_path : string) : bool :=
  let p := first_segment key_path in
  has_index p
  && match python_int (index_text p) with
     | None => true
     | Some _ => false
     end.

(** [del d[k]] for a key that [d] holds. *)
Fixpoint dict_del {K V} (eqk : K -> K -> bool) (k : K) (d : list (K * V))
  : list (K * V) :=
  match d with
  | [] => []
  | (k', v) :: r => if eqk k' k then r else (k', v) :: dict_del eqk k r
  end.

Definition readonly_fields : list string :=
  ["id"; "createdAt"; "updatedAt"; "archived"; "archivedAt";
   "authorName"; "categoryId"; "contentTypeCategory"; "domain";
   "state"; "currentState"; "slug"; "createdById"; "updatedById"].

(** [clean_hubspot_payload(data)] on the page as [json.loads] returns
    it: for each read-only field, [if field in data: del data[field]]. *)
Definition clean_hubspot_payload (data : list (string * json))
  : list (string * json) :=
  fold_left
    (fun data field =>
       if dict_mem String.eqb field data
       then dict_del String.eqb field data
       else data)
    readonly_fields data.

(* ================================================================== *)
(** * gpt-translate.py and translate.py: cleaning the reply *)
(* ================================================================== *)

Definition newline : string := String "010" EmptyString.

(** The class [[a-zA-Z]]. *)
Definition is_letter (c : ascii) : bool :=
  let n := nat_of_ascii c in
  ((65 <=? n) && (n <=? 90)) || ((97 <=? n) && (n <=? 122)).

Fixpoint skip_letters (s : string) : string :=
  match s with
  | EmptyString => EmptyString
  | String c r => if is_letter c then skip_letters r else s
  end.

(** [re.sub(r"^```[a-zA-Z]*\n?", "", s)]: without the multi-line flag the
    pattern can match at the start of [s] only. *)
Definition strip_fence_open (s : string) : string :=
  match strip_prefix "```" s with
  | Some r =>
      match skip_letters r with
      | String c r' => if Ascii.eqb c "010" then r' else String c r'
      | EmptyString => EmptyString
      end
  | None => s
  end.

(** [re.sub(r"```$", "", s)]: [$] is the end of [s], or the place before a
    newline that ends [s]. *)
Definition strip_fence_close (s : string) : string :=
  if endswith s "```" then drop_last 3 s
  else if endswith s (String "`" (String "`" (String "`" newline)))
       then (drop_last 4 s ++ newline)%string
       else s.

(** [clean_gpt_output(text)] of gpt-translate.py; [clean_gemini_output] of
    translate.py has the same body. *)
Definition clean_gpt_output (text : string) : string :=
  if String.eqb text "" then text
  else
    let cleaned := strip_fence_open (strip text) in
    let cleaned := strip_fence_close (strip cleaned) in
    strip cleaned.

Definition clean_gemini_output : string -> string := clean_gpt_output.

Definition head_not_space (s : string) : bool :=
  match s with
  | EmptyString => true
  | String c _ => negb (is_space c)
  end.

(** No blank at either end. *)
Definition is_stripped (s : string) : bool :=
  head_not_space s && head_not_space (reverse s).

Fixpoint all_letters (s : string) : bool :=
  match s with
  | EmptyString => true
  | String c r => is_letter c && all_letters r
  end.

(* ================================================================== *)
(** * holiday-page-scripts/payload.py: building the HTML *)
(* ================================================================== *)

(** [d[k]] on a mapping from strings to strings. *)
Definition lookup (k : string) (d : flat) : res string :=
  match flat_get k d with
  | Some v => Ret v
  | None => Raise KeyError
  end.




(** The text before and after the first occurrence of [sep] in [s]:
    [s.split(sep, 1)] when it has two parts. *)
Fixpoint partition_at (sep s : string) : option (string * string) :=
  match strip_prefix sep s with
  | Some r => Some (EmptyString, r)
  | None =>
      match s with
      | EmptyString => None
      | String c s' =>
          match partition_at sep s' with
          | Some (a, b) => Some (String c a, b)
          | None => None
          end
      end
  end.

(** The f-string of the loop body of [generate_types_list_html]:
    [li.split(' - ')[0]] is all of [li] when the separator is absent, and
    [li.split(' - ', 1)[1]] is then [IndexError]. *)
Definition types_item (item : flat) : res string :=
  li <- lookup "li" item ;;
  match partition_at " - " li with
  | Some (a, b) =>
      Ret ("<li><strong>" ++ a ++ " -</strong> " ++ b ++ "</li>"
           ++ newline)%string
  | None => Raise IndexError
  end.

Fixpoint types_items (types_data : list flat) (items : string) : res string :=
  match types_data with
  | [] => Ret items
  | item :: rest =>
      text <- types_item item ;; types_items rest (items ++ text)%string
  end.

Definition generate_types_list_html (types_data : list flat) : res string :=
  types_items types_data EmptyString.

(** [f"updated_{state_name}_page_content.json"] *)
Definition updated_filename (state_name : string) : string :=
  ("updated_" ++ state_name ++ "_page_content.json")%string.

(* ================================================================== *)
(** * holiday-page-scripts/update-content.py: the payload and its file *)
(* ================================================================== *)

Definition updateable_fields : list string :=
  ["layoutSections"; "name"; "slug"; "pageTitle"; "metaDescription";
   "pageExcerpt"; "category"; "subcategory"].

(** [prepare_update_payload(page_data)].  [updateable_fields] is a set in
    the source: [order] is the order in which the interpreter happens to
    enumerate it. *)
Definition prepare_update_payload (order : list string)
    (page_data : list (string * json)) : list (string * json) :=
  let payload :=
    fold_left
      (fun payload field =>
         match dict_get String.eqb field page_data with
         | Some v => dict_set String.eqb field v payload
         | None => payload
         end)
      order [] in
  match dict_get String.eqb "layoutSections" page_data with
  | Some v => dict_set String.eqb "layoutSections" v payload
  | None => payload
  end.

(** The test of [find_updated_file] on a file name. *)
Definition is_updated_file (file : string) : bool :=
  startswith file "updated_" && endswith file "_page_content.json".

(** [find_updated_file()] on the names that [os.listdir] returns, in its
    order; the directory is left off the result. *)
Definition find_updated_file (listing : list string) : option string :=
  find is_updated_file listing.

(* ================================================================== *)
(** * holiday-page-scripts/automate.py: the PAGE_ID line of .env *)
(* ================================================================== *)

(** [f'PAGE_ID={page_id}\n'] *)
Definition page_id_line (page_id : string) : string :=
  ("PAGE_ID=" ++ page_id ++ newline)%string.

Definition is_page_id_line (line : string) : bool :=
  startswith line "PAGE_ID=".

(** The loop with [break]: the first line that starts with [PAGE_ID=] is
    replaced; [None] when there is none ([found] stays [False]). *)
Fixpoint replace_page_id (page_id : string) (lines : list string)
  : option (list string) :=
  match lines with
  | [] => None
  | line :: rest =>
      if is_page_id_line line then Some (page_id_line page_id :: rest)
      else option_map (cons line) (replace_page_id page_id rest)
  end.

(** The lines that [update_env_page_id] writes back to an existing .env. *)
Definition update_env_lines (page_id : string) (lines : list string)
  : list string :=
  match replace_page_id page_id lines with
  | Some lines' => lines'
  | None => lines ++ [page_id_line page_id]
  end.

(** What a file opened with [open(path, 'r')] gives to its reader: a
    carriage return with the line feed after it, and a carriage return
    alone, arrive as one line feed.  [after_cr] says that the character
    before was a carriage return. *)
Fixpoint translate_newlines (after_cr : bool) (s : string) : string :=
  match s with
  | EmptyString => EmptyString
  | String c r =>
      if Ascii.eqb c "013" then String "010" (translate_newlines true r)
      else if Ascii.eqb c "010" then
             if after_cr then translate_newlines false r
             else String "010" (translate_newlines false r)
           else String c (translate_newlines false r)
  end.

(** The lines of a text, each with the line feed that ends it; the last
    one has none when the text does not end in one.  [line] is what has
    been read of the line at hand. *)
Fixpoint lines_from (line s : string) : list string :=
  match s with
  | EmptyString => if String.eqb line "" then [] else [line]
  | String c r =>
      if Ascii.eqb c "010" then (line ++ newline)%string :: lines_from "" r
      else lines_from (line ++ String c "") r
  end.

(** [f.readlines()] on a file that holds [text]. *)
Definition readlines (text : string) : list string :=
  lines_from "" (translate_newlines false text).

(** [f.writelines(lines)] into a file opened with [open(path, 'w')]: the
    text that the file holds for the next reader. *)
Definition writelines (lines : list string) : string :=
  fold_right append EmptyString lines.

(** [update_env_page_id(page_id)] on an existing .env that holds [text]:
    the text that it leaves. *)
Definition update_env_file (page_id text : string) : string :=
  writelines (update_env_lines page_id (readlines text)).

Fixpoint last_char (s : string) : option ascii :=
  match s with
  | EmptyString => None
  | String c r =>
      match r with
      | EmptyString => Some c
      | String _ _ => last_char r
      end
  end.

(** The text is empty or its last line is ended, by a line feed or a
    carriage return. *)
Definition ends_in_newline (text : string) : bool :=
  match last_char text with
  | None => true
  | Some c => Ascii.eqb c "010" || Ascii.eqb c "013"
  end.

(** No line feed and no carriage return. *)
Definition one_line (s : string) : bool :=
  negb (has_char "010" s) && negb (has_char "013" s).

(** A line with its line feed at the end and nowhere else. *)
Definition whole_line (line : string) : Prop :=
  exists body, line = (body ++ newline)%string /\ one_line body = true.

(* ================================================================== *)
(** * From the translation scripts to update-content.py *)
(* ================================================================== *)

(** What [json.load] returns for a file that [json.dump] wrote from a
    mapping of strings. *)
Definition json_of_flat (d : flat) : list (string * json) :=
  map (fun kv => (fst kv, JStr (snd kv))) d.

(* ================================================================== *)
(** * The definitions at work *)
(* ================================================================== *)

Example split_path :
  split_char "." "a.b[2].c" = ["a"; "b[2]"; "c"]
  /\ split_char "." "" = [""]
  /\ split_char "." "a.." = ["a"; ""; ""].
Proof. repeat split. Qed.

Example segment_b2 :
  has_index "b[2]" = true /\ field_of "b[2]" = "b"
  /\ index_text "b[2]" = "2" /\ index_text "a]b[1" = "".
Proof. repeat split. Qed.

Example int_texts :
  python_int " 12 " = Some 12%Z /\ python_int "-1" = Some (-1)%Z
  /\ python_int "1_0" = Some 10%Z /\ python_int "1__0" = None
  /\ python_int "" = None /\ python_int "x" = None
  /\ python_int "+ 1" = None /\ python_int "007" = Some 7%Z
  /\ python_int (String "028" "0") = None
  /\ python_int (String "133" "12") = Some 12%Z
  /\ python_int (replicate 4300 "1") <> None
  /\ python_int (replicate 4301 "0") = None.
Proof. vm_compute. repeat split. discriminate. Qed.

Example dynamic_row_keys :
  is_exact_dynamic_row_pattern "root.rows[12].0.rows[0].0.label" = true
  /\ is_exact_dynamic_row_pattern "root.rows[].0.rows[0].0.label" = false
  /\ is_exact_dynamic_row_pattern "root.xrows[1].0.rows[0].0.label" = false
  /\ is_placeholder_text "  Lorem IPSUM dolor" = true.
Proof. vm_compute. repeat split. Qed.

(** The document of the end-to-end example, its flat mapping, and a write
    into a page of the same shape. *)
Example extract_then_write :
  translatable_fields
    (JDict [("a", JDict [("title", JStr "Hello")]);
            ("b", JList [JStr "Lorem ipsum dolor"])])
  = [("root.a.title", "Hello")]
  /\ update_nested_field
       (embed (JDict [("a", JDict [("title", JStr "")])]))
       (clean_path "root.a.title") (PStr "HELLO")
     = Ret (true, embed (JDict [("a", JDict [("title", JStr "HELLO")])])).
Proof. vm_compute. repeat split. Qed.

(* ================================================================== *)
(** * Facts about the string primitives *)
(* ================================================================== *)

Section StringFacts.

Local Abbreviation chars := list_ascii_of_string.

Lemma chars_inj (a b : string) : chars a = chars b -> a = b.
Proof.
  intros H.
  rewrite <- (string_of_list_ascii_of_string a).
  rewrite <- (string_of_list_ascii_of_string b).
  now rewrite H.
Qed.

Lemma chars_append (a b : string) :
  chars (a ++ b)%string = chars a ++ chars b.
Proof.
  induction a as [|c a IH]; simpl; [reflexivity | now rewrite IH].
Qed.

Lemma chars_rev_onto (s acc : string) :
  chars (rev_onto s acc) = List.rev (chars s) ++ chars acc.
Proof.
  revert acc; induction s as [|c s IH]; intros acc; simpl.
  - reflexivity.
  - rewrite IH. simpl. now rewrite <- app_assoc.
Qed.

Lemma chars_reverse (s : string) : chars (reverse s) = List.rev (chars s).
Proof.
  unfold reverse. rewrite chars_rev_onto. simpl. apply app_nil_r.
Qed.

Lemma reverse_involutive (s : string) : reverse (reverse s) = s.
Proof.
  apply chars_inj. rewrite !chars_reverse. apply List.rev_involutive.
Qed.

Lemma reverse_append (a b : string) :
  reverse (a ++ b)%string = (reverse b ++ reverse a)%string.
Proof.
  apply chars_inj.
  rewrite chars_reverse, !chars_append, !chars_reverse.
  apply rev_app_distr.
Qed.

Lemma append_assoc (a b c : string) :
  ((a ++ b) ++ c)%string = (a ++ (b ++ c))%string.
Proof.
  induction a as [|x a IH]; simpl; [reflexivity | now rewrite IH].
Qed.

Lemma append_empty_r (a : string) : (a ++ "")%string = a.
Proof.
  induction a as [|x a IH]; simpl; [reflexivity | now rewrite IH].
Qed.

Lemma length_append (a b : string) :
  String.length (a ++ b)%string = String.length a + String.length b.
Proof.
  induction a as [|x a IH]; simpl; [reflexivity | now rewrite IH].
Qed.

Lemma length_reverse (s : string) :
  String.length (reverse s) = String.length s.
Proof.
  assert (H : forall t, String.length t = List.length (chars t)).
  { induction t as [|c t IH]; simpl; congruence. }
  rewrite !H, chars_reverse. apply length_rev.
Qed.

Lemma prefix_append (p r : string) : String.prefix p (p ++ r)%string = true.
Proof.
  induction p as [|c p IH]; simpl.
  - now destruct r.
  - destruct (ascii_dec c c); [exact IH | congruence].
Qed.

Lemma prefix_split (p s : string) :
  String.prefix p s = true -> exists r, s = (p ++ r)%string.
Proof.
  revert s; induction p as [|c p IH]; intros s H.
  - exists s. reflexivity.
  - destruct s as [|d s]; simpl in H; [discriminate|].
    destruct (ascii_dec c d) as [->|]; [|discriminate].
    destruct (IH _ H) as [r ->]. now exists r.
Qed.

Lemma drop_append (a b : string) : drop (String.length a) (a ++ b)%string = b.
Proof.
  induction a as [|c a IH]; simpl; [now destruct b | exact IH].
Qed.

Lemma endswith_append (r suf : string) : endswith (r ++ suf)%string suf = true.
Proof.
  unfold endswith. rewrite reverse_append. apply prefix_append.
Qed.

Lemma endswith_split (s suf : string) :
  endswith s suf = true -> exists r, s = (r ++ suf)%string.
Proof.
  unfold endswith. intros H.
  destruct (prefix_split _ _ H) as [r Hr].
  exists (reverse r).
  rewrite <- (reverse_involutive s), Hr, reverse_append.
  now rewrite reverse_involutive.
Qed.

Lemma drop_last_append (r suf : string) :
  drop_last (String.length suf) (r ++ suf)%string = r.
Proof.
  unfold drop_last.
  rewrite reverse_append, <- (length_reverse suf), drop_append.
  apply reverse_involutive.
Qed.

Lemma append_cancel_r (a b suf : string) :
  (a ++ suf)%string = (b ++ suf)%string -> a = b.
Proof.
  intros H. apply (f_equal chars) in H. rewrite !chars_append in H.
  apply app_inv_tail in H. now apply chars_inj.
Qed.

(** The last character decides [endswith] for a non-empty suffix. *)
Lemma endswith_last_char (s suf : string) (c : ascii) (r : string) :
  endswith s suf = true -> reverse suf = String c r ->
  exists t, reverse s = String c t.
Proof.
  unfold endswith. intros H E. rewrite E in H.
  destruct (reverse s) as [|d t]; simpl in H; [discriminate|].
  destruct (ascii_dec c d) as [->|]; [|discriminate].
  now exists t.
Qed.

End StringFacts.

(* ================================================================== *)
(** * Facts about dictionaries *)
(* ================================================================== *)

Section DictFacts.

Context {K V : Type}.
Variable eqk : K -> K -> bool.
Hypothesis eqk_spec : forall a b, eqk a b = true <-> a = b.

Lemma eqk_refl (a : K) : eqk a a = true.
Proof. now apply eqk_spec. Qed.

Lemma eqk_neq (a b : K) : a <> b -> eqk a b = false.
Proof.
  intros H. destruct (eqk a b) eqn:E; [|reflexivity].
  apply eqk_spec in E. contradiction.
Qed.

Lemma dict_get_set_same (k : K) (v : V) (d : list (K * V)) :
  dict_get eqk k (dict_set eqk k v d) = Some v.
Proof.
  induction d as [|[k' v'] d IH]; simpl.
  - now rewrite eqk_refl.
  - destruct (eqk k' k) eqn:E; simpl; rewrite E; [reflexivity | exact IH].
Qed.

Lemma dict_get_set_other (k k' : K) (v : V) (d : list (K * V)) :
  k <> k' -> dict_get eqk k (dict_set eqk k' v d) = dict_get eqk k d.
Proof.
  intros N. induction d as [|[a x] d IH]; simpl.
  - rewrite eqk_neq; [reflexivity | congruence].
  - destruct (eqk a k') eqn:E; simpl.
    + apply eqk_spec in E. subst a. rewrite eqk_neq; congruence.
    + destruct (eqk a k); [reflexivity | exact IH].
Qed.

Lemma dict_get_In_keys (k : K) (d : list (K * V)) :
  dict_get eqk k d <> None <-> In k (keys d).
Proof.
  induction d as [|[a x] d IH]; simpl.
  - split; [congruence | tauto].
  - destruct (eqk a k) eqn:E.
    + apply eqk_spec in E. split; [now left | congruence].
    + rewrite IH. split; [now right|].
      intros [H|H]; [|exact H]. apply eqk_spec in H. congruence.
Qed.

Lemma dict_mem_In_keys (k : K) (d : list (K * V)) :
  dict_mem eqk k d = true <-> In k (keys d).
Proof.
  rewrite <- dict_get_In_keys. unfold dict_mem.
  destruct (dict_get eqk k d); split; congruence.
Qed.

Lemma dict_mem_false_keys (k : K) (d : list (K * V)) :
  dict_mem eqk k d = false <-> ~ In k (keys d).
Proof.
  rewrite <- dict_mem_In_keys. destruct (dict_mem eqk k d); split; congruence.
Qed.

Lemma dict_set_new (k : K) (v : V) (d : list (K * V)) :
  dict_mem eqk k d = false -> dict_set eqk k v d = d ++ [(k, v)].
Proof.
  unfold dict_mem. induction d as [|[a x] d IH]; simpl; intros H.
  - reflexivity.
  - destruct (eqk a k); [discriminate|]. now rewrite IH.
Qed.

Lemma dict_get_first (k : K) (v : V) (d : list (K * V)) :
  NoDup (keys d) -> In (k, v) d -> dict_get eqk k d = Some v.
Proof.
  induction d as [|[a x] d IH]; simpl; intros ND H; [contradiction|].
  inversion ND as [|? ? Hn ND']; subst.
  destruct H as [H|H].
  - inversion H; subst. now rewrite eqk_refl.
  - destruct (eqk a k) eqn:E.
    + apply eqk_spec in E. subst a. exfalso. apply Hn.
      change k with (fst (k, v)). now apply in_map.
    + now apply IH.
Qed.

End DictFacts.

Lemma string_eqb_spec (a b : string) : String.eqb a b = true <-> a = b.
Proof. apply String.eqb_eq. Qed.

Lemma pykey_eqb_spec (a b : pykey) : pykey_eqb a b = true <-> a = b.
Proof.
  destruct a, b; simpl; try (split; congruence).
  - rewrite String.eqb_eq. split; congruence.
  - rewrite Z.eqb_eq. split; congruence.
Qed.

Lemma flat_get_set_same (k v : string) (d : flat) :
  flat_get k (flat_set k v d) = Some v.
Proof. apply dict_get_set_same, string_eqb_spec. Qed.

Lemma flat_get_set_other (k k' v : string) (d : flat) :
  k <> k' -> flat_get k (flat_set k' v d) = flat_get k d.
Proof. apply dict_get_set_other, string_eqb_spec. Qed.

Lemma flat_mem_In (k : string) (d : flat) :
  flat_mem k d = true <-> In k (keys d).
Proof. apply dict_mem_In_keys, string_eqb_spec. Qed.

Lemma flat_mem_false (k : string) (d : flat) :
  flat_mem k d = false <-> ~ In k (keys d).
Proof. apply dict_mem_false_keys, string_eqb_spec. Qed.

Lemma flat_set_new (k v : string) (d : flat) :
  flat_mem k d = false -> flat_set k v d = d ++ [(k, v)].
Proof. apply dict_set_new. Qed.

Lemma flat_mem_set (k k' v : string) (d : flat) :
  flat_mem k d = true -> flat_mem k (flat_set k' v d) = true.
Proof.
  unfold flat_mem, dict_mem. intros H.
  destruct (string_dec k k') as [->|N].
  - fold (flat_get k' (flat_set k' v d)). now rewrite flat_get_set_same.
  - fold (flat_get k (flat_set k' v d)). rewrite flat_get_set_other by exact N.
    exact H.
Qed.

Lemma mem_In (k : string) (l : list string) : mem k l = true <-> In k l.
Proof.
  unfold mem. rewrite existsb_exists. split.
  - intros [x [H E]]. apply String.eqb_eq in E. now subst.
  - intros H. exists k. split; [exact H | apply String.eqb_refl].
Qed.

Lemma mem_false (k : string) (l : list string) : mem k l = false <-> ~ In k l.
Proof.
  rewrite <- mem_In. destruct (mem k l); split; congruence.
Qed.

Lemma distinct_NoDup (l : list string) : distinct l = true <-> NoDup l.
Proof.
  induction l as [|x l IH]; simpl.
  - split; [constructor | reflexivity].
  - rewrite andb_true_iff, negb_true_iff, mem_false, IH. split.
    + intros [H1 H2]. now constructor.
    + intros H. inversion H; subst. now split.
Qed.

(* ================================================================== *)
(** * Facts about the checkpointed loop *)
(* ================================================================== *)

Section LoopFacts.

Variable rules : string -> string -> action.
Variable oracle : nat -> reply.

Local Abbreviation step := (loop_step rules oracle).

(** A turn of the loop either leaves mapping and file alone, or adds the
    entry's own key and writes the whole mapping to the file. *)
Lemma loop_step_cases (st : state) (key value : string) :
  (translated_content (step st (key, value)) = translated_content st
   /\ translated_file (step st (key, value)) = translated_file st)
  \/ (flat_mem key (translated_content st) = false
      /\ exists t,
           translated_content (step st (key, value))
           = flat_set key t (translated_content st)
           /\ translated_file (step st (key, value))
              = Holds (translated_content (step st (key, value)))).
Proof.
  unfold loop_step.
  destruct (flat_mem key (translated_content st)) eqn:M; [now left|].
  destruct (rules key value).
  - now left.
  - right. split; [reflexivity|]. exists value. now simpl.
  - destruct (oracle (List.length (calls st))) as [|t]; [now left|].
    destruct (String.eqb t ""); [now left|].
    right. split; [reflexivity|]. exists t. now simpl.
Qed.

Lemma loop_cons (e : string * string) (es : flat) (st : state) :
  loop rules oracle (e :: es) st = loop rules oracle es (step st e).
Proof. reflexivity. Qed.

Lemma loop_app (es1 es2 : flat) (st : state) :
  loop rules oracle (es1 ++ es2) st
  = loop rules oracle es2 (loop rules oracle es1 st).
Proof. apply fold_left_app. Qed.

Lemma loop_step_file (st : state) (entry : string * string) :
  load_translated (translated_file st) = translated_content st ->
  load_translated (translated_file (step st entry))
  = translated_content (step st entry).
Proof.
  destruct entry as [key value]. intros H.
  destruct (loop_step_cases st key value) as [[Hc Hf]|[_ [t [Hc Hf]]]].
  - now rewrite Hc, Hf.
  - now rewrite Hf.
Qed.

Lemma loop_file (es : flat) (st : state) :
  load_translated (translated_file st) = translated_content st ->
  load_translated (translated_file (loop rules oracle es st))
  = translated_content (loop rules oracle es st).
Proof.
  revert st. induction es as [|e es IH]; intros st H; simpl.
  - exact H.
  - apply IH. now apply loop_step_file.
Qed.

(** What is in the mapping stays, with its value. *)
Lemma loop_step_keeps (st : state) (entry : string * string) (k v : string) :
  flat_get k (translated_content st) = Some v ->
  flat_get k (translated_content (step st entry)) = Some v.
Proof.
  destruct entry as [key value]. intros H.
  destruct (loop_step_cases st key value) as [[Hc _]|[M [t [Hc _]]]].
  - now rewrite Hc.
  - rewrite Hc. rewrite flat_get_set_other; [exact H|].
    intros ->. unfold flat_mem, dict_mem in M. fold (flat_get key) in M.
    fold flat_get in M. rewrite H in M. discriminate.
Qed.

Lemma loop_keeps (es : flat) (st : state) (k v : string) :
  flat_get k (translated_content st) = Some v ->
  flat_get k (translated_content (loop rules oracle es st)) = Some v.
Proof.
  revert st. induction es as [|e es IH]; intros st H; simpl.
  - exact H.
  - apply IH. now apply loop_step_keeps.
Qed.

Lemma flat_mem_get (k : string) (d : flat) :
  flat_mem k d = true <-> exists v, flat_get k d = Some v.
Proof.
  unfold flat_mem, dict_mem, flat_get.
  destruct (dict_get String.eqb k d) as [v|].
  - split; [now exists v | reflexivity].
  - split; [discriminate | intros [v H]; discriminate].
Qed.

Lemma loop_keeps_mem (es : flat) (st : state) (k : string) :
  flat_mem k (translated_content st) = true ->
  flat_mem k (translated_content (loop rules oracle es st)) = true.
Proof.
  rewrite !flat_mem_get. intros [v H]. exists v. now apply loop_keeps.
Qed.

(** Only the key of the entry at hand can enter the mapping. *)
Lemma loop_step_keys (st : state) (entry : string * string) :
  keys (translated_content (step st entry)) = keys (translated_content st)
  \/ (~ In (fst entry) (keys (translated_content st))
      /\ keys (translated_content (step st entry))
         = keys (translated_content st) ++ [fst entry]).
Proof.
  destruct entry as [key value].
  destruct (loop_step_cases st key value) as [[Hc _]|[M [t [Hc _]]]].
  - left. now rewrite Hc.
  - right. split; [now apply flat_mem_false|].
    rewrite Hc, flat_set_new by exact M.
    unfold keys. rewrite map_app. reflexivity.
Qed.

Lemma loop_keys (es : flat) (st : state) :
  exists added,
    keys (translated_content (loop rules oracle es st))
    = keys (translated_content st) ++ added
    /\ incl added (keys es).
Proof.
  revert st. induction es as [|e es IH]; intros st; simpl.
  - exists []. split; [now rewrite app_nil_r | apply incl_nil_l].
  - destruct (IH (step st e)) as [added [Hk Hi]].
    destruct (loop_step_keys st e) as [E|[_ E]].
    + exists added. rewrite Hk, E. split; [reflexivity|].
      now apply incl_tl.
    + exists (fst e :: added). rewrite Hk, E, <- app_assoc. split.
      * reflexivity.
      * apply incl_cons; [now left | now apply incl_tl].
Qed.

(** Every call is about an entry that the loop went through and that the
    rules sent to translation. *)
Lemma loop_step_calls (st : state) (entry c : string * string) :
  In c (calls (step st entry)) ->
  In c (calls st) \/ (c = entry /\ rules (fst c) (snd c) = Translate).
Proof.
  destruct entry as [key value]. unfold loop_step.
  destruct (flat_mem key (translated_content st)); [now left|].
  destruct (rules key value) eqn:R; try (now left).
  assert (G : In c (calls st ++ [(key, value)]) ->
              In c (calls st) \/ c = (key, value) /\
                rules (fst c) (snd c) = Translate).
  { intros H. apply in_app_or in H. destruct H as [H|[H|[]]].
    - now left.
    - right. subst c. now split. }
  destruct (oracle (List.length (calls st))) as [|t]; [exact G|].
  destruct (String.eqb t ""); exact G.
Qed.

Lemma loop_calls (es : flat) (st : state) (c : string * string) :
  In c (calls (loop rules oracle es st)) ->
  In c (calls st) \/ (In c es /\ rules (fst c) (snd c) = Translate).
Proof.
  revert st. induction es as [|e es IH]; intros st H; simpl in *.
  - now left.
  - destruct (IH _ H) as [H1|[H1 H2]].
    + destruct (loop_step_calls _ _ _ H1) as [H3|[H3 H4]].
      * now left.
      * right. split; [left; now subst | exact H4].
    + right. split; [now right | exact H2].
Qed.

(** An entry that is stored already, or that the rules skip, costs no call
    and changes nothing. *)
Lemma loop_idle (es : flat) (st : state) :
  (forall k v, In (k, v) es ->
     flat_mem k (translated_content st) = true \/ rules k v = Skip) ->
  loop rules oracle es st = st.
Proof.
  induction es as [|[k v] es IH]; intros H.
  - reflexivity.
  - rewrite loop_cons.
    assert (E : step st (k, v) = st).
    { unfold loop_step. destruct (H k v (or_introl eq_refl)) as [M|R].
      - now rewrite M.
      - rewrite R. now destruct (flat_mem k (translated_content st)). }
    rewrite E. apply IH. intros k' v' H'. apply H. now right.
Qed.

End LoopFacts.

(* ================================================================== *)
(** * The checkpoint file follows the mapping *)
(* ================================================================== *)






(* ================================================================== *)
(** * Order of the tests on dynamic-row keys *)
(* ================================================================== *)

(** C6, as stated, fails in gpt-translate.py: the key below matches both
    tests, the broader one is tried first and the value is written. *)
Lemma dynamic_row_key_copied_by_gpt :
  let key := "root.rows[3].0.rows[0].0.label" in
  let st :=
    loop_step gpt_rules (fun _ => Failed) (initial_state Absent) (key, "Hi")
  in
  is_exact_dynamic_row_pattern key = true
  /\ is_rows_label_key key = true
  /\ translated_content st = [(key, "Hi")]
  /\ translated_file st = Holds [(key, "Hi")].
Proof. vm_compute. repeat split. Qed.

(** C6, amended.  In translate.py the dynamic-row test comes first: an
    entry whose key matches it is skipped, nothing is written and no call
    is made.  In gpt-translate.py the test on keys ending in
    [0.rows[0].0.label] comes before it: an entry matched by both, not yet
    stored and not placeholder text, is copied as it is into the mapping
    and the file, and no call is made. *)
Theorem dynamic_row_precedence
    (oracle : nat -> reply) (st : state) (key value : string) :
  is_exact_dynamic_row_pattern key = true ->
  loop_step translate_rules oracle st (key, value) = st
  /\ (is_rows_label_key key = true ->
      flat_mem key (translated_content st) = false ->
      is_placeholder_text value = false ->
      loop_step gpt_rules oracle st (key, value) = store key value st).
Proof.
  intros E. split.
  - unfold loop_step, translate_rules. rewrite E.
    now destruct (flat_mem key (translated_content st)).
  - intros R M P. unfold loop_step, gpt_rules. rewrite M, P, R.
    now destruct (is_dnd_area_label_key key).
Qed.

Lemma dynamic_row_precedence_witness :
  let key := "root.rows[3].0.rows[0].0.label" in
  let st := initial_state Absent in
  loop_step translate_rules (fun _ => Failed) st (key, "Hi") = st
  /\ loop_step gpt_rules (fun _ => Failed) st (key, "Hi")
     = store key "Hi" st.
Proof.
  intros key st.
  destruct (dynamic_row_precedence (fun _ => Failed) st key "Hi")
    as [H1 H2]; [reflexivity|].
  split; [exact H1|]. apply H2; reflexivity.
Defined.

(* ================================================================== *)
(** * The resume index *)
(* ================================================================== *)

Lemma index_of_nth_error (l : list string) (i : nat) (k : string) :
  NoDup l -> nth_error l i = Some k -> index_of k l = Some i.
Proof.
  revert i. induction l as [|x l IH]; intros i ND H.
  - now destruct i.
  - inversion ND as [|? ? Hn ND']; subst. destruct i as [|i]; simpl in *.
    + inversion H; subst. now rewrite String.eqb_refl.
    + destruct (String.eqb x k) eqn:E.
      * apply String.eqb_eq in E. subst x. exfalso. apply Hn.
        eapply nth_error_In; eauto.
      * now rewrite (IH i ND' H).
Qed.

Lemma index_of_In (l : list string) (k : string) :
  In k l -> exists i, index_of k l = Some i /\ nth_error l i = Some k.
Proof.
  induction l as [|x l IH]; simpl; intros H; [contradiction|].
  destruct (String.eqb x k) eqn:E.
  - apply String.eqb_eq in E. subst. now exists 0.
  - destruct H as [H|H]; [subst; rewrite String.eqb_refl in E; discriminate|].
    destruct (IH H) as [i [H1 H2]]. exists (S i). now rewrite H1.
Qed.

Lemma index_of_not_In (l : list string) (k : string) :
  ~ In k l -> index_of k l = None.
Proof.
  induction l as [|x l IH]; simpl; intros H; [reflexivity|].
  destruct (String.eqb x k) eqn:E.
  - apply String.eqb_eq in E. subst. exfalso. apply H. now left.
  - rewrite IH; [reflexivity|]. intros Hin. apply H. now right.
Qed.

Lemma last_key_nth_error (l : list string) :
  last_key l = nth_error l (List.length l - 1).
Proof.
  destruct l as [|x l]; [reflexivity|]. unfold last_key.
  revert x. induction l as [|y l IH]; intros x; [reflexivity|].
  change (last (x :: y :: l) EmptyString) with (last (y :: l) EmptyString).
  rewrite IH. simpl. now rewrite Nat.sub_0_r.
Qed.

Lemma last_key_firstn (l : list string) (n : nat) :
  0 < n <= List.length l -> last_key (firstn n l) = nth_error l (n - 1).
Proof.
  intros H. rewrite last_key_nth_error, length_firstn.
  rewrite Nat.min_l by lia. rewrite nth_error_firstn.
  destruct (n - 1 <? n) eqn:E; [reflexivity|].
  apply Nat.ltb_ge in E. lia.
Qed.

Lemma In_firstn_nth_error {A} (l : list A) (n : nat) (x : A) :
  In x (firstn n l) -> exists j, j < n /\ nth_error l j = Some x.
Proof.
  revert l. induction n as [|n IH]; intros l H; simpl in H.
  - contradiction.
  - destruct l as [|a l]; [contradiction|]. destruct H as [H|H].
    + subst. exists 0. split; [lia | reflexivity].
    + destruct (IH _ H) as [j [H1 H2]]. exists (S j). split; [lia | exact H2].
Qed.

Lemma In_skipn_nth_error {A} (l : list A) (n : nat) (x : A) :
  In x (skipn n l) -> exists i, n <= i /\ nth_error l i = Some x.
Proof.
  revert l. induction n as [|n IH]; intros l H.
  - apply In_nth_error in H. destruct H as [i H]. exists i. split; [lia|].
    exact H.
  - destruct l as [|a l]; [contradiction|]. simpl in H.
    destruct (IH _ H) as [i [H1 H2]]. exists (S i). split; [lia | exact H2].
Qed.

Lemma last_not_in_firstn (l : list string) (n : nat) (k : string) :
  NoDup l -> n < List.length l -> last_key l = Some k -> ~ In k (firstn n l).
Proof.
  intros ND Hn Hl Hin. rewrite last_key_nth_error in Hl.
  destruct (In_firstn_nth_error _ _ _ Hin) as [j [Hj Hk]].
  assert (E : j = List.length l - 1).
  { apply (proj1 (NoDup_nth_error l) ND); [lia | congruence]. }
  lia.
Qed.

Lemma start_index_after (base_keys translated_keys : list string)
    (k : string) (i : nat) :
  NoDup base_keys -> last_key translated_keys = Some k ->
  nth_error base_keys i = Some k ->
  start_index base_keys translated_keys = S i.
Proof.
  intros ND L N. unfold start_index.
  now rewrite L, (index_of_nth_error _ _ _ ND N).
Qed.

Lemma firstn_skipn_apart {A} (l : list A) (n : nat) (x : A) :
  NoDup l -> In x (firstn n l) -> In x (skipn n l) -> False.
Proof.
  intros ND H1 H2. rewrite <- (firstn_skipn n l) in ND.
  apply in_split in H2. destruct H2 as [a [b E]]. rewrite E in ND.
  rewrite app_assoc in ND. apply NoDup_remove_2 in ND.
  apply ND. apply in_or_app. left. apply in_or_app. now left.
Qed.

Lemma NoDup_skipn {A} (l : list A) (n : nat) : NoDup l -> NoDup (skipn n l).
Proof.
  intros ND. rewrite <- (firstn_skipn n l) in ND.
  now apply NoDup_app_remove_l in ND.
Qed.

(** Over entries with distinct keys of which none is stored yet, the loop
    issues one call for every entry that the rules send to translation, in
    the order of the entries, and no other call. *)
Lemma loop_calls_exact
    (rules : string -> string -> action) (oracle : nat -> reply)
    (es : flat) (st : state) :
  NoDup (keys es) ->
  (forall k, In k (keys es) -> flat_mem k (translated_content st) = false) ->
  calls (loop rules oracle es st)
  = calls st ++ filter (fun e => wants_call (rules (fst e) (snd e))) es.
Proof.
  revert st. induction es as [|[k v] es IH]; intros st ND Fresh.
  - cbn. now rewrite app_nil_r.
  - inversion ND as [|? ? Hk ND']; subst. rewrite loop_cons.
    rewrite IH; [|exact ND'|].
    + cbn [filter fst snd]. unfold loop_step.
      rewrite (Fresh k (or_introl eq_refl)).
      destruct (rules k v); cbn [wants_call]; try reflexivity.
      assert (E : forall x : state,
                 calls x = calls st ++ [(k, v)] ->
                 calls x ++ filter
                   (fun e => wants_call (rules (fst e) (snd e))) es
                 = calls st ++ (k, v) :: filter
                     (fun e => wants_call (rules (fst e) (snd e))) es).
      { intros x ->. now rewrite <- app_assoc. }
      destruct (oracle (List.length (calls st))) as [|t];
        [now apply E|].
      destruct (String.eqb t ""); now apply E.
    + intros k' Hk'. apply flat_mem_false.
      destruct (loop_step_keys rules oracle st (k, v)) as [E|[_ E]];
        rewrite E.
      * apply flat_mem_false, Fresh. now right.
      * intros Hin. apply in_app_or in Hin. destruct Hin as [Hin|[<-|[]]].
        -- apply (proj1 (flat_mem_false k' _) (Fresh k' (or_intror Hk'))).
           exact Hin.
        -- contradiction.
Qed.

(** C2 fails as stated: a translated mapping that holds exactly the first
    two of three source keys, the first of them last, resumes at index 1;
    and when the last key of the translated mapping is no source key the
    resume index is 0, although a source key is stored before it. *)
Lemma resume_index_follows_last_stored_key :
  let base := [("root.a.title", "One"); ("root.b.title", "Two");
               ("root.c.title", "Three")] in
  let f := Holds [("root.b.title", "Song"); ("root.a.title", "Neung")] in
  let g := Holds [("root.a.title", "Neung"); ("root.x.title", "Sip")] in
  (forall k, In k (keys (load_translated f))
             <-> In k (firstn 2 (keys base)))
  /\ start_index (keys base) (keys (load_translated f)) = 1
  /\ run translate_rules (fun _ => Failed) base f
     = Finished (loop translate_rules (fun _ => Failed) (skipn 1 base)
                   (initial_state f))
  /\ start_index (keys base) (keys (load_translated g)) = 0.
Proof.
  split; [cbn; tauto | vm_compute; repeat split].
Qed.

(** C2, amended.  With an empty translated mapping the resume index is 0.
    When the last key of the translated mapping is a source key, the
    resume index is the position right after it, and 0 when it is not.
    When the translated mapping holds exactly the first [K] source keys
    ([0 < K < N]) and the last key it stores is the [K]-th source key, the
    run is not taken for complete, the resume index is [K], the loop runs
    over the entries from position [K] on, and its external calls are the
    entries from position [K] on that the rules send to translation, each
    once and in order. *)
Theorem resume_index
    (rules : string -> string -> action) (oracle : nat -> reply)
    (base_content : flat) (f : file) :
  NoDup (keys base_content) ->
  let base_keys := keys base_content in
  let translated_keys := keys (load_translated f) in
  (translated_keys = [] -> start_index base_keys translated_keys = 0)
  /\ (forall k, last_key translated_keys = Some k -> In k base_keys ->
        exists i, nth_error base_keys i = Some k
                  /\ start_index base_keys translated_keys = S i)
  /\ (forall k, last_key translated_keys = Some k -> ~ In k base_keys ->
        start_index base_keys translated_keys = 0)
  /\ (forall K, 0 < K < List.length base_content ->
        (forall k, In k translated_keys <-> In k (firstn K base_keys)) ->
        last_key translated_keys = nth_error base_keys (K - 1) ->
        start_index base_keys translated_keys = K
        /\ exists st,
             run rules oracle base_content f = Finished st
             /\ st = loop rules oracle (skipn K base_content)
                       (initial_state f)
             /\ calls st
                = filter (fun e => wants_call (rules (fst e) (snd e)))
                    (skipn K base_content)).
Proof.
  intros ND base_keys translated_keys.
  assert (Len : List.length base_keys = List.length base_content).
  { apply length_map. }
  split; [|split; [|split]].
  - intros E. unfold start_index. now rewrite E.
  - intros k L Hin. destruct (index_of_In _ _ Hin) as [i [_ Hi]].
    exists i. split; [exact Hi|]. now apply start_index_after with (k := k).
  - intros k L Hin. unfold start_index.
    now rewrite L, (index_of_not_In _ _ Hin).
  - intros K HK E L.
    destruct (nth_error base_keys (K - 1)) as [k|] eqn:N.
    2:{ apply nth_error_None in N. lia. }
    assert (S0 : start_index base_keys translated_keys = K).
    { pose proof (start_index_after base_keys translated_keys k (K - 1)
                    ND L N) as X.
      rewrite X. lia. }
    split; [exact S0|].
    assert (C : completion_check base_keys translated_keys = Ret false).
    { unfold completion_check.
      destruct translated_keys as [|t ts] eqn:T; [reflexivity|].
      destruct (last_key base_keys) as [kl|] eqn:LK.
      - f_equal. apply mem_false. intros Hin. apply E in Hin.
        revert Hin. apply last_not_in_firstn; [exact ND | lia | exact LK].
      - rewrite last_key_nth_error in LK. apply nth_error_None in LK. lia. }
    unfold run. cbv zeta. fold base_keys. fold translated_keys.
    rewrite C, S0. eexists. split; [reflexivity|]. split; [reflexivity|].
    assert (SK : keys (skipn K base_content) = skipn K base_keys).
    { unfold keys, base_keys. symmetry. apply skipn_map. }
    rewrite loop_calls_exact.
    + reflexivity.
    + rewrite SK. now apply NoDup_skipn.
    + intros x Hx. rewrite SK in Hx. apply flat_mem_false.
      cbn [initial_state translated_content]. fold translated_keys.
      intros Hin. apply E in Hin.
      exact (firstn_skipn_apart base_keys K x ND Hin Hx).
Qed.

Lemma resume_index_witness :
  let base := [("root.a.title", "One"); ("root.b.title", "Two");
               ("root.c.title", "Three")] in
  let f := Holds [("root.a.title", "Neung")] in
  start_index (keys base) (keys (load_translated f)) = 1
  /\ exists st,
       run translate_rules (fun _ => Text "x") base f = Finished st
       /\ st = loop translate_rules (fun _ => Text "x") (skipn 1 base)
                 (initial_state f)
       /\ calls st
          = filter (fun e => wants_call (translate_rules (fst e) (snd e)))
              (skipn 1 base).
Proof.
  intros base f.
  assert (ND : NoDup (keys base)).
  { apply distinct_NoDup. reflexivity. }
  destruct (resume_index translate_rules (fun _ => Text "x") base f ND)
    as [_ [_ [_ H]]].
  apply (H 1); [simpl; lia | cbn; tauto | reflexivity].
Defined.

(* ================================================================== *)
(** * Pass-through entries *)
(* ================================================================== *)

Lemma content_type_not_dynamic_row (key : string) :
  is_content_type_key key = true -> is_exact_dynamic_row_pattern key = false.
Proof.
  intros H.
  destruct (endswith_last_char key ".content_type" "e" "pyt_tnetnoc." H
              eq_refl) as [t E].
  unfold is_exact_dynamic_row_pattern, dynamic_row_at_end.
  rewrite E. reflexivity.
Qed.

Lemma pass_through_never_translated (s : script) (key value : string) :
  pass_through s key = true -> rules_of s key value <> Translate.
Proof.
  destruct s; simpl; unfold gpt_rules, translate_rules; intros H.
  - destruct (is_placeholder_text value); [discriminate|].
    destruct (is_dnd_area_label_key key); [discriminate|].
    destruct (is_rows_label_key key); [discriminate|].
    simpl in H. rewrite H.
    destruct (is_exact_dynamic_row_pattern key); discriminate.
  - rewrite H.
    destruct (is_exact_dynamic_row_pattern key); [discriminate|].
    destruct (is_placeholder_text value); discriminate.
Qed.

Lemma pass_through_copied (s : script) (key value : string) :
  pass_through s key = true -> is_placeholder_text value = false ->
  rules_of s key value = Copy.
Proof.
  destruct s; simpl; unfold gpt_rules, translate_rules; intros H P;
    rewrite P.
  - destruct (is_dnd_area_label_key key); [reflexivity|].
    destruct (is_rows_label_key key); [reflexivity|].
    simpl in H. now rewrite (content_type_not_dynamic_row _ H), H.
  - now rewrite (content_type_not_dynamic_row _ H), H.
Qed.

Lemma keys_app {A B} (l1 l2 : list (A * B)) :
  keys (l1 ++ l2) = keys l1 ++ keys l2.
Proof. apply map_app. Qed.

Lemma keys_skipn_incl {A B} (n : nat) (l : list (A * B)) :
  incl (keys (skipn n l)) (keys l).
Proof.
  intros k H. unfold keys in *. apply in_map_iff in H.
  destruct H as [x [E H]]. apply in_map_iff. exists x. split; [exact E|].
  revert H. clear. revert l. induction n as [|n IH]; intros l H.
  - exact H.
  - destruct l as [|a l]; [contradiction|]. right. now apply IH.
Qed.

(** The entries from the resume index on, around the entry at position
    [i]. *)
Lemma skipn_around {A} (l : list A) (start i : nat) (x : A) :
  start <= i -> nth_error l i = Some x ->
  exists pre post,
    skipn start l = pre ++ x :: post /\ incl pre (firstn i l).
Proof.
  intros Hs Hn. destruct (nth_error_split l i Hn) as [l1 [l2 [E L]]].
  exists (skipn start l1), l2. subst l. split.
  - rewrite skipn_app. replace (start - List.length l1) with 0 by lia.
    reflexivity.
  - rewrite firstn_app. replace (i - List.length l1) with 0 by lia.
    rewrite firstn_all2 by lia. simpl. rewrite app_nil_r.
    intros y Hy. revert Hy. clear. revert l1.
    induction start as [|n IH]; intros l1 H; [exact H|].
    destruct l1 as [|a l1]; [contradiction|]. right. now apply IH.
Qed.

Lemma not_in_keys_firstn (base : flat) (i : nat) (key value : string) :
  NoDup (keys base) -> nth_error base i = Some (key, value) ->
  ~ In key (keys (firstn i base)).
Proof.
  intros ND Hn Hin. unfold keys in Hin. rewrite <- firstn_map in Hin.
  destruct (In_firstn_nth_error _ _ _ Hin) as [j [Hj Hk]].
  assert (Hi : nth_error (map fst base) i = Some key).
  { rewrite nth_error_map, Hn. reflexivity. }
  assert (E : j = i).
  { apply (proj1 (NoDup_nth_error (map fst base)) ND).
    - apply nth_error_Some. congruence.
    - congruence. }
  lia.
Qed.

(** C7 fails as stated: placeholder text under a [.content_type] key is
    dropped by the placeholder test and never reaches the mapping. *)
Lemma placeholder_content_type_dropped :
  let base := [("root.a.content_type", "Lorem ipsum dolor")] in
  pass_through GptTranslate "root.a.content_type" = true
  /\ pass_through GeminiTranslate "root.a.content_type" = true
  /\ run_script GptTranslate (fun _ => Text "x") base Absent
     = Finished (initial_state Absent)
  /\ run_script GeminiTranslate (fun _ => Text "x") base Absent
     = Finished (initial_state Absent)
  /\ flat_get "root.a.content_type"
       (translated_content (initial_state Absent)) = None.
Proof. vm_compute. repeat split. Qed.

(** C7, amended.  In either script, an entry whose key matches a
    pass-through test never causes an external call.  If moreover the loop
    reaches it (its position is at or after the resume index of a run that
    goes through the loop), its value is not placeholder text and its key
    is not in the translated mapping at the start, then the final mapping,
    in memory and on disk, holds the key with the source value. *)
Theorem pass_through_entries
    (s : script) (oracle : nat -> reply) (base_content : flat) (f : file)
    (st : state) (i : nat) (key value : string) :
  NoDup (keys base_content) ->
  run_script s oracle base_content f = Finished st ->
  nth_error base_content i = Some (key, value) ->
  pass_through s key = true ->
  (forall sent, ~ In (key, sent) (calls st))
  /\ (start_index (keys base_content) (keys (load_translated f)) <= i ->
      is_placeholder_text value = false ->
      flat_mem key (load_translated f) = false ->
      flat_get key (translated_content st) = Some value
      /\ flat_get key (load_translated (translated_file st)) = Some value).
Proof.
  intros ND R N PT. unfold run_script, run in R. cbv zeta in R.
  destruct (completion_check (keys base_content)
              (keys (load_translated f))) as [[|]|e]; try discriminate.
  injection R as R.
  set (start := start_index (keys base_content) (keys (load_translated f)))
    in *.
  split.
  - intros sent H. rewrite <- R in H. apply loop_calls in H.
    destruct H as [[]|[_ H]]. simpl in H.
    now apply (pass_through_never_translated s key sent).
  - intros Hs P M.
    assert (G : flat_get key (translated_content st) = Some value).
    { destruct (skipn_around base_content start i (key, value) Hs N)
        as [pre [post [E I]]].
      rewrite <- R, E, loop_app, loop_cons. apply loop_keeps.
      set (st0 := loop (rules_of s) oracle pre (initial_state f)).
      assert (M0 : flat_mem key (translated_content st0) = false).
      { apply flat_mem_false. intros Hin.
        destruct (loop_keys (rules_of s) oracle pre (initial_state f))
          as [added [Hk Hi]].
        fold st0 in Hk. rewrite Hk in Hin. apply in_app_or in Hin.
        destruct Hin as [Hin|Hin].
        - apply flat_mem_false in M. now apply M.
        - apply (not_in_keys_firstn base_content i key value ND N).
          apply Hi in Hin. unfold keys in *. apply in_map_iff in Hin.
          destruct Hin as [x [Ex Hx]]. apply in_map_iff. exists x.
          split; [exact Ex | now apply I]. }
      unfold loop_step. rewrite M0, (pass_through_copied s key value PT P).
      simpl. apply flat_get_set_same. }
    split; [exact G|].
    rewrite <- R. rewrite loop_file by reflexivity. now rewrite R.
Qed.

Lemma pass_through_entries_witness :
  let base := [("root.a.title", "Hello"); ("root.a.content_type", "page")] in
  let st := loop translate_rules (fun _ => Text "Sawasdee") base
              (initial_state Absent) in
  (forall sent, ~ In ("root.a.content_type", sent) (calls st))
  /\ flat_get "root.a.content_type" (translated_content st) = Some "page"
  /\ flat_get "root.a.content_type"
       (load_translated (translated_file st)) = Some "page".
Proof.
  intros base st.
  assert (ND : NoDup (keys base)).
  { apply distinct_NoDup. reflexivity. }
  destruct (pass_through_entries GeminiTranslate (fun _ => Text "Sawasdee")
              base Absent st 1 "root.a.content_type" "page" ND
              eq_refl eq_refl eq_refl) as [H1 H2].
  split; [exact H1|].
  apply H2; [vm_compute; lia | reflexivity | reflexivity].
Defined.

(* ================================================================== *)
(** * [int] on decimal text *)
(* ================================================================== *)

Lemma digit_not_space (c : ascii) : is_digit c = true -> is_space c = false.
Proof.
  destruct c as [[] [] [] [] [] [] [] []]; intros H;
    solve [reflexivity | discriminate H].
Qed.

Lemma lstrip_id (c : ascii) (r : string) :
  is_space c = false -> lstrip (String c r) = String c r.
Proof. intros H. simpl. now rewrite H. Qed.

Lemma rev_onto_digit (r acc : string) :
  all_digits r = true -> r <> EmptyString ->
  exists d t, rev_onto r acc = String d t /\ is_digit d = true.
Proof.
  revert acc. induction r as [|c r IH]; intros acc A N; [congruence|].
  simpl in A. apply andb_true_iff in A. destruct A as [Hc Hr].
  destruct r as [|c' r'].
  - exists c, acc. now split.
  - apply IH; [exact Hr | discriminate].
Qed.

Lemma digit_not_int_space (c : ascii) :
  is_digit c = true -> is_int_space c = false.
Proof.
  destruct c as [[] [] [] [] [] [] [] []]; intros H;
    solve [reflexivity | discriminate H].
Qed.

Lemma int_lstrip_id (c : ascii) (r : string) :
  is_int_space c = false -> int_lstrip (String c r) = String c r.
Proof. intros H. cbn [int_lstrip]. now rewrite H. Qed.

Lemma int_rstrip_ends_with_digit (s : string) :
  (exists d t, reverse s = String d t /\ is_digit d = true) ->
  reverse (int_lstrip (reverse s)) = s.
Proof.
  intros [d [t [E D]]]. rewrite E.
  rewrite int_lstrip_id by now apply digit_not_int_space.
  rewrite <- E. apply reverse_involutive.
Qed.

(** [int] finds no blank to drop around decimal-integer text. *)
Lemma int_strip_decimal_text (s : string) :
  is_decimal_text s = true -> int_strip s = s.
Proof.
  unfold is_decimal_text, int_strip. destruct s as [|c r]; [discriminate|].
  destruct (Ascii.eqb c "+" || Ascii.eqb c "-") eqn:S; intros H.
  - assert (Sp : is_int_space c = false).
    { apply orb_true_iff in S. destruct S as [S|S];
        apply Ascii.eqb_eq in S; now subst. }
    rewrite int_lstrip_id by exact Sp.
    apply andb_true_iff in H. destruct H as [N A].
    apply int_rstrip_ends_with_digit. unfold reverse. simpl.
    apply rev_onto_digit; [exact A|].
    intros ->. discriminate.
  - assert (D : is_digit c = true).
    { simpl in H. now apply andb_true_iff in H. }
    rewrite int_lstrip_id by now apply digit_not_int_space.
    apply int_rstrip_ends_with_digit. unfold reverse.
    apply rev_onto_digit; [exact H | discriminate].
Qed.


(** The three branches of [python_int] below the limit on digits, by
    tests on the first character. *)
Lemma python_int_cases (text : string) :
  count_digits (int_strip text) <= max_str_digits ->
  python_int text
  = match int_strip text with
    | EmptyString => None
    | String c r =>
        if Ascii.eqb c "+" then int_digits 0 false r
        else if Ascii.eqb c "-" then option_map Z.opp (int_digits 0 false r)
        else int_digits 0 false (String c r)
    end.
Proof.
  intros L. unfold python_int. cbv zeta.
  apply Nat.ltb_ge in L. rewrite L.
  destruct (int_strip text) as [|c r]; [reflexivity|].
  destruct c as [[] [] [] [] [] [] [] []]; reflexivity.
Qed.

(** Above the limit on digits [int] refuses the text. *)
Lemma python_int_too_long (text : string) :
  max_str_digits < count_digits (int_strip text) -> python_int text = None.
Proof.
  intros L. unfold python_int. cbv zeta.
  apply Nat.ltb_lt in L. now rewrite L.
Qed.


(* ================================================================== *)
(** * Totality of [update_nested_field] *)
(* ================================================================== *)

Lemma getitem_no_value_error (x : pyobj) (k : pykey) :
  getitem x k <> Raise ValueError.
Proof.
  destruct x as [| | | s | l | d]; simpl; try discriminate.
  - destruct k as [|i]; [discriminate|].
    destruct (norm_index i (String.length s)) as [n|]; [|discriminate].
    destruct (String.get n s); discriminate.
  - destruct k as [|i]; [discriminate|].
    destruct (norm_index i (List.length l)) as [n|]; [|discriminate].
    destruct (nth_error l n); discriminate.
  - destruct (dict_get pykey_eqb k d); discriminate.
Qed.

Lemma setitem_no_value_error (x : pyobj) (k : pykey) (v : pyobj) :
  setitem x k v <> Raise ValueError.
Proof.
  destruct x as [| | | s | l | d]; simpl; try discriminate.
  destruct k as [|i]; [discriminate|].
  destruct (norm_index i (List.length l)); discriminate.
Qed.









(** Outside the guarantee of C10: text in brackets that is no integer. *)
Example update_nested_field_value_error :
  update_nested_field (PDict [(KStr "a", PList [PStr "x"])]) "a[x]" (PStr "y")
  = Raise ValueError.
Proof. reflexivity. Qed.

(* ================================================================== *)
(** * The recursive writer and the loop of the source *)
(* ================================================================== *)

(** [update_parts] raises what the source raises: the exception of the
    [for] loop over [parts[:-1]] if there is one, else that of the
    assignment through [parts[-1]]. *)
Lemma update_parts_raises (parts : list string) (ref v : pyobj) :
  parts <> [] ->
  raised (update_parts ref parts v)
  = raised (c <- walk ref (removelast parts) ;;
            assign_last c (last parts EmptyString) v).
Proof.
  revert ref. induction parts as [|p rest IH]; intros ref N; [congruence|].
  destruct rest as [|q rest'].
  - reflexivity.
  - change (update_parts ref (p :: q :: rest') v)
      with (child <- step_into ref p ;;
            child' <- update_parts child (q :: rest') v ;;
            Ret (put_back ref p child')).
    change (removelast (p :: q :: rest')) with (p :: removelast (q :: rest')).
    change (last (p :: q :: rest') EmptyString)
      with (last (q :: rest') EmptyString).
    cbn [walk]. destruct (step_into ref p) as [child|e]; cbn [bind].
    + rewrite <- IH by discriminate.
      now destruct (update_parts child (q :: rest') v).
    + reflexivity.
Qed.

Lemma split_char_not_nil (c : ascii) (s : string) : split_char c s <> [].
Proof.
  induction s as [|a r IH]; simpl; [discriminate|].
  destruct (Ascii.eqb a c); [discriminate|].
  destruct (split_char c r); discriminate.
Qed.

Lemma bind_ret {A} (m : res A) : (x <- m ;; Ret x) = m.
Proof. now destruct m. Qed.

Lemma walk_app (ref : pyobj) (a b : list string) :
  walk ref (a ++ b) = (c <- walk ref a ;; walk c b).
Proof.
  revert ref. induction a as [|p a IH]; intros ref; [reflexivity|].
  change ((p :: a) ++ b) with (p :: (a ++ b)). cbn [walk].
  destruct (step_into ref p); cbn [bind]; [apply IH | reflexivity].
Qed.

Lemma read_nested_field_walk (data_obj : pyobj) (key_path : string) :
  read_nested_field data_obj key_path
  = walk data_obj (split_char "." key_path).
Proof.
  unfold read_nested_field. cbv zeta.
  pose proof (split_char_not_nil "." key_path) as N.
  set (parts := split_char "." key_path) in *.
  transitivity (walk data_obj (removelast parts ++ [last parts EmptyString])).
  - rewrite walk_app.
    destruct (walk data_obj (removelast parts));
      cbn [bind walk]; [now rewrite bind_ret | reflexivity].
  - f_equal. symmetry. now apply app_removelast_last.
Qed.

Lemma length_list_set {A} (n : nat) (x : A) (l : list A) :
  List.length (list_set n x l) = List.length l.
Proof.
  revert n. induction l as [|a l IH]; intros n; [now destruct n|].
  destruct n; cbn [list_set List.length]; [reflexivity | now rewrite IH].
Qed.

Lemma nth_error_list_set {A} (n : nat) (x : A) (l : list A) :
  n < List.length l -> nth_error (list_set n x l) n = Some x.
Proof.
  revert n. induction l as [|a l IH]; intros n H; [inversion H|].
  destruct n; cbn [list_set nth_error]; [reflexivity|].
  apply IH. cbn [List.length] in H. lia.
Qed.

Lemma norm_index_bound (i : Z) (len n : nat) :
  norm_index i len = Some n -> n < len.
Proof.
  unfold norm_index.
  destruct ((0 <=? i)%Z && (i <? Z.of_nat len)%Z) eqn:E1.
  - intros [= <-]. apply andb_true_iff in E1. destruct E1 as [H1 H2].
    apply Z.leb_le in H1. apply Z.ltb_lt in H2. lia.
  - destruct ((- Z.of_nat len <=? i)%Z && (i <? 0)%Z) eqn:E2;
      [|discriminate].
    intros [= <-]. apply andb_true_iff in E2. destruct E2 as [H1 H2].
    apply Z.leb_le in H1. apply Z.ltb_lt in H2. lia.
Qed.

(** What an assignment stores is what the same subscript reads. *)
Lemma getitem_setitem (x x' : pyobj) (k : pykey) (v : pyobj) :
  setitem x k v = Ret x' -> getitem x' k = Ret v.
Proof.
  destruct x as [| | | s | l | d]; cbn [setitem]; try discriminate.
  - destruct k as [|i]; [discriminate|].
    destruct (norm_index i (List.length l)) as [n|] eqn:N; [|discriminate].
    intros [= <-]. cbn [getitem]. rewrite length_list_set, N.
    rewrite nth_error_list_set; [reflexivity|].
    now apply norm_index_bound with (i := i).
  - intros [= <-]. cbn [getitem].
    now rewrite (dict_get_set_same pykey_eqb pykey_eqb_spec).
Qed.

Lemma getitem_setitem_ok (x child : pyobj) (k : pykey) (v : pyobj) :
  getitem x k = Ret child ->
  (forall s, x <> PStr s) ->
  exists x', setitem x k v = Ret x'.
Proof.
  destruct x as [| | | s | l | d]; cbn [getitem setitem]; try discriminate.
  - intros _ H. now destruct (H s).
  - destruct k as [|i]; [discriminate|].
    destruct (norm_index i (List.length l)) as [n|]; [|discriminate].
    intros _ _. eexists. reflexivity.
  - intros _ _. eexists. reflexivity.
Qed.

Lemma getitem_string_key (x child : pyobj) (k : string) :
  getitem x (KStr k) = Ret child -> exists d, x = PDict d.
Proof.
  destruct x as [| | | s | l | d]; cbn [getitem]; try discriminate.
  intros _. now exists d.
Qed.

(** Nothing can be written below a string. *)
Lemma update_parts_below_string (s : string) (parts : list string)
    (v : pyobj) :
  parts <> [] -> raised (update_parts (PStr s) parts v) <> None.
Proof.
  intros N. rewrite update_parts_raises by exact N.
  destruct parts as [|p rest]; [congruence|].
  assert (S : forall q, raised (step_into (PStr s) q) <> None).
  { intros q. unfold step_into. destruct (has_index q); [|discriminate].
    destruct (python_int (index_text q)); discriminate. }
  destruct (removelast (p :: rest)) as [|q qs] eqn:R.
  - cbn [walk bind]. unfold assign_last.
    destruct (has_index (last (p :: rest) EmptyString)); [|discriminate].
    destruct (python_int (index_text (last (p :: rest) EmptyString)));
      discriminate.
  - cbn [walk]. specialize (S q).
    destruct (step_into (PStr s) q); [now destruct S | discriminate].
Qed.

(** The reader follows the writer: after a write that went through, the
    path reads the value written. *)
Lemma walk_after_update (parts : list string) (ref ref' v : pyobj) :
  parts <> [] -> update_parts ref parts v = Ret ref' ->
  walk ref' parts = Ret v.
Proof.
  revert ref ref'. induction parts as [|p rest IH]; intros ref ref' N U;
    [congruence|].
  destruct rest as [|q rest'].
  - (* the assignment through the last segment *)
    cbn [update_parts] in U. cbn [walk]. rewrite bind_ret.
    unfold assign_last in U. unfold step_into.
    destruct (has_index p); [|now apply getitem_setitem with (x := ref)].
    destruct (python_int (index_text p)) as [idx|]; [|discriminate].
    destruct (getitem ref (KStr (field_of p))) as [x|] eqn:G;
      cbn [bind] in U; [|discriminate].
    destruct (setitem x (KInt idx) v) as [x'|] eqn:S; cbn [bind] in U;
      [|discriminate].
    injection U as <-. destruct (getitem_string_key _ _ _ G) as [d ->].
    unfold put_item. cbn [setitem getitem].
    rewrite (dict_get_set_same pykey_eqb pykey_eqb_spec). cbn [bind].
    now apply getitem_setitem with (x := x).
  - (* one turn of the loop, then the rest *)
    change (update_parts ref (p :: q :: rest') v)
      with (child <- step_into ref p ;;
            child' <- update_parts child (q :: rest') v ;;
            Ret (put_back ref p child')) in U.
    destruct (step_into ref p) as [child|] eqn:S; cbn [bind] in U;
      [|discriminate].
    destruct (update_parts child (q :: rest') v) as [child'|] eqn:U';
      cbn [bind] in U; [|discriminate].
    injection U as <-.
    cbn [walk].
    assert (B : step_into (put_back ref p child') p = Ret child').
    { unfold step_into, put_back in *. destruct (has_index p).
      - destruct (python_int (index_text p)) as [idx|]; [|discriminate].
        destruct (getitem ref (KStr (field_of p))) as [x|] eqn:G;
          cbn [bind] in S; [|discriminate].
        destruct (getitem_string_key _ _ _ G) as [d ->].
        unfold put_item at 1. cbn [setitem getitem].
        rewrite (dict_get_set_same pykey_eqb pykey_eqb_spec). cbn [bind].
        destruct (getitem_setitem_ok x child (KInt idx) child' S)
          as [x' X].
        + intros s ->. cbn [getitem] in S.
          destruct (norm_index idx (String.length s)) as [n|];
            [|discriminate].
          destruct (String.get n s) as [a|]; [|discriminate].
          injection S as <-.
          apply (update_parts_below_string (String a EmptyString)
                   (q :: rest') v); [discriminate | now rewrite U'].
        + unfold put_item. rewrite X. now apply getitem_setitem with (x := x).
      - destruct (getitem_string_key _ _ _ S) as [d ->].
        unfold put_item. cbn [setitem getitem].
        now rewrite (dict_get_set_same pykey_eqb pykey_eqb_spec). }
    rewrite B. cbn [bind]. apply (IH child child'); [discriminate | exact U'].
Qed.

(** Reading through a path right after [update_nested_field] has written
    through it gives the value written. *)
Lemma read_after_write
    (data_obj data_obj' : pyobj) (key_path : string) (new_value : pyobj) :
  update_nested_field data_obj key_path new_value = Ret (true, data_obj') ->
  read_nested_field data_obj' key_path = Ret new_value.
Proof.
  unfold update_nested_field. intros U.
  rewrite read_nested_field_walk.
  destruct (update_parts data_obj (split_char "." key_path) new_value)
    as [d|e] eqn:E.
  - injection U as <-.
    apply walk_after_update with (ref := data_obj); [|exact E].
    apply split_char_not_nil.
  - destruct e; discriminate.
Qed.


(** The flag [False] stands for a caught exception, and the document is
    then untouched. *)
Lemma update_nested_field_false
    (data_obj data_obj' : pyobj) (key_path : string) (new_value : pyobj) :
  update_nested_field data_obj key_path new_value = Ret (false, data_obj') ->
  data_obj' = data_obj
  /\ exists e,
       In e [KeyError; IndexError; TypeError]
       /\ update_parts data_obj (split_char "." key_path) new_value = Raise e.
Proof.
  unfold update_nested_field.
  destruct (update_parts data_obj (split_char "." key_path) new_value)
    as [d|e]; [discriminate|].
  destruct e; intros [= <-]; (split; [reflexivity|]); eexists;
    (split; [|reflexivity]); cbn; tauto.
Qed.


(* ================================================================== *)
(** * Payload reinjection *)
(* ================================================================== *)

Lemma unresolved_app (a b : list (bool * string)) :
  unresolved (a ++ b) = unresolved a ++ unresolved b.
Proof. unfold unresolved. now rewrite filter_app, map_app. Qed.

Lemma resolved_app (a b : list (bool * string)) :
  resolved (a ++ b) = resolved a ++ resolved b.
Proof. unfold resolved. now rewrite filter_app, map_app. Qed.

Lemma step_into_value_error (ref : pyobj) (p : string) :
  step_into ref p = Raise ValueError ->
  has_index p = true /\ python_int (index_text p) = None.
Proof.
  unfold step_into. destruct (has_index p).
  - destruct (python_int (index_text p)) as [idx|]; [|now split].
    destruct (getitem ref (KStr (field_of p))) as [x|e] eqn:G; cbn [bind];
      intros E.
    + now apply getitem_no_value_error in E.
    + injection E as ->. now apply getitem_no_value_error in G.
  - intros E. now apply getitem_no_value_error in E.
Qed.

Lemma assign_last_value_error (ref : pyobj) (p : string) (v : pyobj) :
  assign_last ref p v = Raise ValueError ->
  has_index p = true /\ python_int (index_text p) = None.
Proof.
  unfold assign_last. destruct (has_index p).
  - destruct (python_int (index_text p)) as [idx|]; [|now split].
    destruct (getitem ref (KStr (field_of p))) as [x|e] eqn:G; cbn [bind];
      intros E.
    + destruct (setitem x (KInt idx) v) as [x'|e] eqn:S; cbn [bind] in E;
        [discriminate|].
      injection E as ->. now apply setitem_no_value_error in S.
    + injection E as ->. now apply getitem_no_value_error in G.
  - intros E. now apply setitem_no_value_error in E.
Qed.

(** [ValueError] comes from [int] alone. *)
Lemma update_parts_value_error (parts : list string) (ref v : pyobj) :
  update_parts ref parts v = Raise ValueError ->
  exists p, In p parts /\ has_index p = true
            /\ python_int (index_text p) = None.
Proof.
  revert ref. induction parts as [|p rest IH]; intros ref E; [discriminate|].
  destruct rest as [|q rest'].
  - cbn [update_parts] in E. exists p.
    split; [now left | now apply assign_last_value_error in E].
  - change (update_parts ref (p :: q :: rest') v)
      with (child <- step_into ref p ;;
            child' <- update_parts child (q :: rest') v ;;
            Ret (put_back ref p child')) in E.
    destruct (step_into ref p) as [child|e] eqn:S; cbn [bind] in E.
    + destruct (update_parts child (q :: rest') v) as [c|e] eqn:U;
        cbn [bind] in E; [discriminate|].
      injection E as ->. destruct (IH _ U) as [x [Hx R]].
      exists x. split; [now right | exact R].
    + injection E as ->. exists p.
      split; [now left | now apply step_into_value_error in S].
Qed.

(** What [update_nested_field] returns, read off what the [try] block
    did. *)
Lemma update_nested_field_cases
    (data_obj : pyobj) (key_path : string) (new_value : pyobj) :
  match update_parts data_obj (split_char "." key_path) new_value with
  | Ret data_obj' =>
      update_nested_field data_obj key_path new_value = Ret (true, data_obj')
  | Raise e =>
      (In e [KeyError; IndexError; TypeError]
       /\ update_nested_field data_obj key_path new_value
          = Ret (false, data_obj))
      \/ (e = ValueError
          /\ update_nested_field data_obj key_path new_value
             = Raise ValueError)
  end.
Proof.
  unfold update_nested_field.
  destruct (update_parts data_obj (split_char "." key_path) new_value)
    as [d|e]; [reflexivity|].
  destruct e; cbn; tauto.
Qed.

Lemma update_nested_field_refused
    (data_obj : pyobj) (key_path : string) (new_value : pyobj) (e : exn) :
  update_nested_field data_obj key_path new_value = Raise e ->
  e = ValueError /\ refused_index key_path.
Proof.
  intros E. pose proof (update_nested_field_cases data_obj key_path new_value)
    as C.
  destruct (update_parts data_obj (split_char "." key_path) new_value)
    as [d|x] eqn:U.
  - rewrite C in E. discriminate.
  - destruct C as [[_ C]|[-> C]]; rewrite C in E; [discriminate|].
    inversion E; subst. split; [reflexivity|].
    now apply update_parts_value_error in U.
Qed.

(** One turn of the write-back loop: the page becomes what
    [update_nested_field] left, and the flag it returned goes to the
    console line and to one of the two tallies. *)
Lemma apply_one_cases (st : report) (entry : string * json) :
  match apply_one st entry with
  | Ret rep =>
      exists flag,
        update_nested_field (page_data st) (clean_path (fst entry))
          (embed (snd entry)) = Ret (flag, page_data rep)
        /\ printed rep = printed st ++ [(flag, clean_path (fst entry))]
        /\ not_found rep
           = not_found st ++ unresolved [(flag, clean_path (fst entry))]
        /\ updated rep
           = updated st
             + List.length (resolved [(flag, clean_path (fst entry))])
  | Raise e => e = ValueError /\ refused_index (clean_path (fst entry))
  end.
Proof.
  unfold apply_one.
  destruct (update_nested_field (page_data st) (clean_path (fst entry))
              (embed (snd entry))) as [[flag d]|e] eqn:U; cbn [bind fst snd].
  - destruct flag.
    + exists true. cbn. rewrite app_nil_r. repeat split. lia.
    + exists false. cbn. repeat split. lia.
  - now apply update_nested_field_refused in U.
Qed.

(** The write-back loop is the chain of writes of [update_nested_field]:
    the report holds the page these writes leave, their flags beside
    their paths, and the two tallies of the flags; and the loop raises
    only [ValueError], only when [int] refuses the bracket text of a path
    of the translations. *)
Lemma apply_translations_writes
    (translations : list (string * json)) (st : report) :
  match apply_translations translations st with
  | Ret rep =>
      exists lines,
        writes (page_data st) translations lines (page_data rep)
        /\ printed rep = printed st ++ lines
        /\ not_found rep = not_found st ++ unresolved lines
        /\ updated rep = updated st + List.length (resolved lines)
  | Raise e =>
      e = ValueError
      /\ exists entry,
           In entry translations /\ refused_index (clean_path (fst entry))
  end.
Proof.
  revert st. induction translations as [|entry rest IH]; intros st.
  - cbn [apply_translations]. exists []. cbn. rewrite !app_nil_r.
    repeat split; [constructor | lia].
  - cbn [apply_translations]. pose proof (apply_one_cases st entry) as A.
    destruct (apply_one st entry) as [st'|e]; cbn [bind].
    + destruct A as [flag [W [P1 [N1 U1]]]]. specialize (IH st').
      destruct (apply_translations rest st') as [rep|e].
      * destruct IH as [lines [W2 [P2 [N2 U2]]]].
        exists ((flag, clean_path (fst entry)) :: lines).
        rewrite P2, P1, N2, N1, U2, U1.
        change ((flag, clean_path (fst entry)) :: lines)
          with ([(flag, clean_path (fst entry))] ++ lines).
        rewrite unresolved_app, resolved_app, length_app, <- !app_assoc.
        repeat split; [|lia].
        now apply writes_next with (page' := page_data st').
      * destruct IH as [E [x [Hx R]]]. split; [exact E|].
        exists x. split; [now right | exact R].
    + destruct A as [E R]. split; [exact E|].
      exists entry. split; [now left | exact R].
Qed.







(* ================================================================== *)
(** * Which entries of the translation file are written *)
(* ================================================================== *)

Lemma endswith_drop_last (k suffix : string) :
  endswith k suffix = true ->
  k = (drop_last (String.length suffix) k ++ suffix)%string.
Proof.
  intros H. destruct (endswith_split _ _ H) as [r ->].
  now rewrite drop_last_append.
Qed.

Section Collect.

Variable suffix : string.

Lemma selected_keys (data : list (string * json)) (k : string) :
  In k (keys (selected suffix data)) ->
  In (k ++ suffix)%string (keys data).
Proof.
  unfold selected, keys. rewrite map_map. cbn [fst]. intros H.
  apply in_map_iff in H. destruct H as [kv [E H]].
  apply filter_In in H. destruct H as [H P].
  apply in_map_iff. exists kv. split; [|exact H].
  rewrite <- E. now apply endswith_drop_last.
Qed.

Lemma selected_NoDup (data : list (string * json)) :
  NoDup (keys data) -> NoDup (keys (selected suffix data)).
Proof.
  induction data as [|kv data IH]; intros ND.
  - constructor.
  - inversion ND as [|? ? Hn ND']; subst. unfold selected. cbn [filter].
    destruct (endswith (fst kv) suffix) eqn:P.
    + cbn [map keys fst]. constructor; [|now apply IH].
      intros Hin. apply selected_keys in Hin.
      rewrite <- (endswith_drop_last _ _ P) in Hin. contradiction.
    + now apply IH.
Qed.

Lemma collect_from (data acc : list (string * json)) :
  NoDup (keys (acc ++ selected suffix data)) ->
  fold_left
    (fun acc kv =>
       if endswith (fst kv) suffix
       then dict_set String.eqb
              (drop_last (String.length suffix) (fst kv)) (snd kv) acc
       else acc)
    data acc
  = acc ++ selected suffix data.
Proof.
  revert acc. induction data as [|kv data IH]; intros acc ND.
  - cbn. now rewrite app_nil_r.
  - cbn [fold_left]. unfold selected in *. cbn [filter] in *.
    destruct (endswith (fst kv) suffix) eqn:P.
    + cbn [map] in *.
      set (entry := (drop_last (String.length suffix) (fst kv), snd kv)) in *.
      assert (M : dict_mem String.eqb (fst entry) acc = false).
      { apply (dict_mem_false_keys String.eqb string_eqb_spec).
        intros Hin. rewrite keys_app in ND. cbn [keys map] in ND.
        apply NoDup_remove_2 in ND. apply ND. apply in_or_app. now left. }
      change (dict_set String.eqb (drop_last (String.length suffix) (fst kv))
                (snd kv) acc)
        with (dict_set String.eqb (fst entry) (snd entry) acc).
      rewrite (dict_set_new String.eqb _ _ _ M).
      replace (fst entry, snd entry) with entry by reflexivity.
      rewrite IH; rewrite <- app_assoc; [reflexivity | exact ND].
    + now apply IH.
Qed.

Lemma collect_translations_selected (data : list (string * json)) :
  NoDup (keys data) -> collect_translations suffix data = selected suffix data.
Proof.
  intros ND. unfold collect_translations.
  rewrite collect_from; [reflexivity|]. now apply selected_NoDup.
Qed.

End Collect.

(** C1 fails as stated: a translated mapping keyed like the source mapping
    has no key ending in ["_th"], so every entry is dropped before the
    write loop and the page is left as it was. *)
Lemma unsuffixed_entry_discarded :
  let page := embed (JDict [("a", JDict [("title", JStr "")])]) in
  collect_translations (suffix_of default_target_suffix)
    [("root.a.title", JStr "HELLO")] = []
  /\ reinject default_target_suffix [("root.a.title", JStr "HELLO")] page
     = Ret {| page_data := page; updated := 0; not_found := [];
              printed := [] |}.
Proof. vm_compute. split; reflexivity. Qed.

(** C1, amended.  Payload reinjection keeps the entries of the translation
    file whose key ends with ["_" ++ TARGET_SUFFIX] (["_th"] by default),
    removes that suffix, and drops every other entry before the write
    loop.  For the kept entries, in the order of the file, it calls
    [update_nested_field] on the page, each call on the page that the one
    before it left: the report holds the page after the last call and,
    for each kept entry, its path and the flag its call returned; and
    right after a call that returned [True] the value is read at its path.
    The loop stops with [ValueError], and gives no report, only when [int]
    refuses the bracket text of a kept path. *)
Theorem reinjection_selects_suffixed_keys
    (TARGET_SUFFIX : string) (data : list (string * json)) (page : pyobj) :
  NoDup (keys data) ->
  let suffix := suffix_of TARGET_SUFFIX in
  let kept :=
    map (fun kv => (drop_last (String.length suffix) (fst kv), snd kv))
      (filter (fun kv => endswith (fst kv) suffix) data) in
  collect_translations suffix data = kept
  /\ match reinject TARGET_SUFFIX data page with
     | Ret rep =>
         exists lines,
           writes page kept lines (page_data rep)
           /\ printed rep = lines
           /\ updated rep = List.length (resolved lines)
           /\ not_found rep = unresolved lines
     | Raise e =>
         e = ValueError
         /\ exists entry,
              In entry kept /\ refused_index (clean_path (fst entry))
     end
  /\ (forall doc key_path v doc',
        update_nested_field doc key_path v = Ret (true, doc') ->
        read_nested_field doc' key_path = Ret v).
Proof.
  intros ND suffix kept.
  pose proof (collect_translations_selected suffix data ND) as C.
  fold kept in C. unfold selected in C. fold suffix kept in C.
  split; [exact C|]. split.
  - unfold reinject. fold suffix. rewrite C.
    pose proof (apply_translations_writes kept
                  {| page_data := page; updated := 0; not_found := [];
                     printed := [] |}) as W.
    destruct (apply_translations kept _) as [rep|e]; [|exact W].
    destruct W as [lines [W [P [N U]]]]. cbn in P, N, U.
    exists lines. now repeat split.
  - intros doc key_path v doc' U. unfold update_nested_field in U.
    rewrite read_nested_field_walk.
    destruct (update_parts doc (split_char "." key_path) v) as [d|e] eqn:E.
    + injection U as <-.
      apply walk_after_update with (ref := doc); [|exact E].
      apply split_char_not_nil.
    + destruct e; discriminate.
Qed.

Lemma reinjection_selects_suffixed_keys_witness :
  let data := [("root.a.title_th", JStr "HELLO");
               ("root.a.title", JStr "Hello")] in
  let page := embed (JDict [("a", JDict [("title", JStr "")])]) in
  let page' := PDict [(KStr "a", PDict [(KStr "title", PStr "HELLO")])] in
  collect_translations "_th" data = [("root.a.title", JStr "HELLO")]
  /\ writes page [("root.a.title", JStr "HELLO")] [(true, "a.title")] page'.
Proof.
  intros data page page'.
  assert (ND : NoDup (keys data)).
  { apply distinct_NoDup. reflexivity. }
  destruct (reinjection_selects_suffixed_keys "th" data page ND)
    as [C [W _]].
  split; [exact C|].
  change (reinject "th" data page)
    with (Ret {| page_data := page'; updated := 1; not_found := [];
                 printed := [(true, "a.title")] |}) in W.
  destruct W as [lines [W [P _]]]. cbn in P. subst lines. exact W.
Defined.

(* ================================================================== *)
(** * Missing environment values *)
(* ================================================================== *)

(** C9 holds of holiday-page-scripts/update-content.py, which validates
    the environment first, and not of scripts/get-content.py: with no
    environment value set, its first visible act is the request itself,
    sent to the page ["None"] with the credential ["Bearer None"]; the only
    message comes after the request has failed. *)
Theorem get_content_requests_before_any_check :
  let env : environ := fun _ => None in
  get_content_script env false []
  = [HttpGet "https://api.hubapi.com/cms/v3/pages/site-pages/None"
       "Bearer None";
     Print FetchFailed; Exit]
  /\ forall later,
       holiday_update_main env later
       = [Print Banner; Print MissingApiKey; Print EnvHint].
Proof. split; reflexivity. Qed.

(* ================================================================== *)
(** * Running the loop twice *)
(* ================================================================== *)

Section TwoRuns.

Variable rules : string -> string -> action.
Variable oracle : nat -> reply.
Hypothesis answers : always_answers oracle.

Lemma loop_step_covers (st : state) (k v : string) :
  flat_mem k (translated_content (loop_step rules oracle st (k, v))) = true
  \/ rules k v = Skip.
Proof.
  unfold loop_step.
  destruct (flat_mem k (translated_content st)) eqn:M; [now left|].
  destruct (rules k v); [now right | |].
  - left. cbn. apply flat_mem_get. exists v. apply flat_get_set_same.
  - destruct (answers (List.length (calls st))) as [t [-> N]].
    apply String.eqb_neq in N. rewrite N. left. cbn.
    apply flat_mem_get. exists t. apply flat_get_set_same.
Qed.

(** After a run in which every call was answered, each entry the loop
    went through is stored or is one that the rules skip. *)
Lemma loop_covers (es : flat) (st : state) (k v : string) :
  In (k, v) es ->
  flat_mem k (translated_content (loop rules oracle es st)) = true
  \/ rules k v = Skip.
Proof.
  revert st. induction es as [|e es IH]; intros st H; [contradiction|].
  rewrite loop_cons. destruct H as [->|H]; [|now apply IH].
  destruct (loop_step_covers st k v) as [M|S]; [|now right].
  left. now apply loop_keeps_mem.
Qed.

End TwoRuns.

Lemma last_key_app (a b : list string) :
  b <> [] -> last_key (a ++ b) = last_key b.
Proof.
  intros N. destruct (exists_last N) as [b' [x ->]].
  rewrite app_assoc. unfold last_key.
  destruct ((a ++ b') ++ [x]) eqn:E1; [now destruct (a ++ b')|].
  destruct (b' ++ [x]) eqn:E2; [now destruct b'|].
  rewrite <- E1, <- E2, !last_last. reflexivity.
Qed.

Lemma index_of_skipn (l : list string) (n : nat) (k : string) :
  NoDup l -> In k (skipn n l) -> exists i, index_of k l = Some i /\ n <= i.
Proof.
  intros ND H. destruct (In_skipn_nth_error _ _ _ H) as [i [Hi Hn]].
  exists i. split; [now apply index_of_nth_error | exact Hi].
Qed.

Lemma In_skipn_le {A} (l : list A) (n m : nat) (x : A) :
  n <= m -> In x (skipn m l) -> In x (skipn n l).
Proof.
  intros L H. replace m with ((m - n) + n) in H by lia.
  rewrite <- skipn_skipn in H. revert H. generalize (skipn n l) as l'.
  generalize (m - n) as j. clear.
  induction j as [|j IH]; intros l' H; [exact H|].
  destruct l' as [|a l']; [contradiction|]. right. now apply IH.
Qed.

(** The resume index never moves back from one run to the next. *)
Lemma start_index_grows (base_keys translated_keys added : list string) :
  NoDup base_keys ->
  incl added (skipn (start_index base_keys translated_keys) base_keys) ->
  start_index base_keys translated_keys
  <= start_index base_keys (translated_keys ++ added).
Proof.
  intros ND I. destruct added as [|a added'] eqn:E.
  - now rewrite app_nil_r.
  - rewrite <- E in *. assert (N : added <> []) by (subst; discriminate).
    unfold start_index at 2. rewrite (last_key_app _ _ N).
    destruct (exists_last N) as [b' [x Hx]].
    assert (L : last_key added = Some x).
    { rewrite Hx. unfold last_key. destruct (b' ++ [x]) eqn:E2;
        [now destruct b'|]. rewrite <- E2, last_last. reflexivity. }
    rewrite L.
    destruct (index_of_skipn base_keys
                (start_index base_keys translated_keys) x ND)
      as [i [-> Hi]]; [|lia].
    apply I. rewrite Hx. apply in_or_app. right. now left.
Qed.

Lemma completion_check_last (base_keys translated_keys : list string)
    (k : string) :
  last_key base_keys = Some k -> In k translated_keys ->
  completion_check base_keys translated_keys = Ret true.
Proof.
  intros L H. unfold completion_check.
  destruct translated_keys as [|t ts]; [contradiction|].
  rewrite L. f_equal. now apply mem_In.
Qed.

(** When the last source entry is stored by the loop, its key is the last
    key of the mapping. *)
Lemma last_source_key_stored_last
    (rules : string -> string -> action) (oracle : nat -> reply)
    (base_content : flat) (f : file) (start : nat) (k : string) :
  NoDup (keys base_content) ->
  last_key (keys base_content) = Some k ->
  flat_mem k (load_translated f) = false ->
  let st := loop rules oracle (skipn start base_content) (initial_state f) in
  flat_mem k (translated_content st) = true ->
  last_key (keys (translated_content st)) = Some k.
Proof.
  intros ND L M0 st M1.
  assert (NE : base_content <> []).
  { intros ->. discriminate. }
  destruct (exists_last NE) as [b' [[k' v] E]].
  assert (Ek : k' = k).
  { rewrite E, keys_app in L. unfold last_key in L.
    destruct (keys b' ++ keys [(k', v)]) eqn:E2; [now destruct (keys b')|].
    rewrite <- E2 in L. cbn [keys map fst] in L. rewrite last_last in L.
    congruence. }
  subst k'.
  assert (Nk : ~ In k (keys b')).
  { rewrite E, keys_app in ND. cbn [keys map fst] in ND.
    apply NoDup_remove_2 in ND. rewrite app_nil_r in ND. exact ND. }
  set (pre := loop rules oracle (skipn start b') (initial_state f)).
  assert (Mp : ~ In k (keys (translated_content pre))).
  { destruct (loop_keys rules oracle (skipn start b') (initial_state f))
      as [added [Hk Hi]].
    fold pre in Hk. rewrite Hk. intros Hin. apply in_app_or in Hin.
    destruct Hin as [Hin|Hin].
    - apply flat_mem_false in M0. now apply M0.
    - apply Nk. apply (keys_skipn_incl start b'). now apply Hi. }
  assert (S1 : st = pre \/ st = loop_step rules oracle pre (k, v)).
  { subst st pre. rewrite E, skipn_app, loop_app.
    destruct (start - List.length b') as [|m].
    - right. reflexivity.
    - left. cbn [skipn]. now rewrite skipn_nil. }
  destruct S1 as [S1|S1].
  - exfalso. apply Mp. apply flat_mem_In. now rewrite <- S1.
  - destruct (loop_step_keys rules oracle pre (k, v)) as [K|[_ K]];
      rewrite <- S1 in K.
    + exfalso. apply Mp. rewrite <- K. now apply flat_mem_In.
    + rewrite K. cbn [fst]. rewrite last_key_app by discriminate.
      reflexivity.
Qed.

Lemma run_unfold (rules : string -> string -> action)
    (oracle : nat -> reply) (base_content : flat) (f : file) :
  run rules oracle base_content f
  = match completion_check (keys base_content) (keys (load_translated f))
    with
    | Raise e => Crashed e
    | Ret true => AlreadyComplete
    | Ret false =>
        Finished
          (loop rules oracle
             (skipn (start_index (keys base_content)
                       (keys (load_translated f))) base_content)
             (initial_state f))
    end.
Proof. reflexivity. Qed.

(** C5 fails as stated: when the only call of the first run fails,
    nothing is stored, and the second run starts at index 0 again and
    repeats the call. *)
Lemma failed_call_is_repeated :
  let base := [("root.a.title", "Hello")] in
  let first := run_script GptTranslate (fun _ => Failed) base Absent in
  file_after Absent first = Absent
  /\ calls_of (second_run GptTranslate (fun _ => Failed) (fun _ => Text "x")
                 base Absent)
     = [("root.a.title", "Hello")]
  /\ start_index (keys base)
       (keys (load_translated (file_after Absent first))) = 0.
Proof. vm_compute. repeat split. Qed.

(** C5, amended.  If every external call of the first run was answered
    with a non-empty text, the second run on the same source mapping makes
    no external call.  If the last source key is in the translated mapping
    that the first run left, the second run ends at the already-complete
    test, before any entry is processed; and if that key was stored by the
    first run, the resume index computed from the mapping is the length of
    the source key list. *)
Theorem second_run_makes_no_call
    (s : script) (oracle1 oracle2 : nat -> reply)
    (base_content : flat) (f : file) :
  NoDup (keys base_content) ->
  always_answers oracle1 ->
  let f1 := file_after f (run_script s oracle1 base_content f) in
  calls_of (second_run s oracle1 oracle2 base_content f) = []
  /\ forall k,
       last_key (keys base_content) = Some k ->
       flat_mem k (load_translated f1) = true ->
       second_run s oracle1 oracle2 base_content f = AlreadyComplete
       /\ (flat_mem k (load_translated f) = false ->
           start_index (keys base_content) (keys (load_translated f1))
           = List.length base_content).
Proof.
  intros ND A f1.
  set (s0 := start_index (keys base_content) (keys (load_translated f))).
  set (st1 := loop (rules_of s) oracle1 (skipn s0 base_content)
                (initial_state f)).
  assert (T1 : load_translated (translated_file st1)
               = translated_content st1).
  { apply loop_file. reflexivity. }
  assert (F1 : (f1 = f
                /\ completion_check (keys base_content)
                     (keys (load_translated f)) <> Ret false)
               \/ (f1 = translated_file st1
                   /\ completion_check (keys base_content)
                        (keys (load_translated f)) = Ret false)).
  { subst f1. unfold run_script. rewrite run_unfold.
    destruct (completion_check (keys base_content)
                (keys (load_translated f))) as [[|]|e];
      [left | right | left]; split; solve [reflexivity | discriminate]. }
  split.
  - unfold second_run. fold f1. unfold run_script.
    destruct F1 as [[F1 C]|[F1 C]]; rewrite F1.
    + (* the first run stopped before the loop: so does the second *)
      rewrite run_unfold.
      destruct (completion_check (keys base_content)
                  (keys (load_translated f))) as [[|]|e];
        solve [reflexivity | congruence].
    + rewrite run_unfold, T1.
      destruct (completion_check (keys base_content)
                  (keys (translated_content st1))) as [[|]|e];
        try reflexivity.
      cbn [calls_of]. rewrite loop_idle; [reflexivity|].
      intros k v Hin. cbn [initial_state translated_content]. rewrite T1.
      apply loop_covers; [exact A|].
      apply In_skipn_le with (m := start_index (keys base_content)
                                     (keys (translated_content st1)));
        [|exact Hin].
      destruct (loop_keys (rules_of s) oracle1 (skipn s0 base_content)
                  (initial_state f)) as [added [Hk Hi]].
      fold st1 in Hk. rewrite Hk. cbn [initial_state translated_content].
      apply start_index_grows; [exact ND|].
      fold s0. unfold keys in Hi |- *. rewrite skipn_map. exact Hi.
  - intros k L M. split.
    + unfold second_run. fold f1. unfold run_script. rewrite run_unfold.
      rewrite (completion_check_last _ _ k L); [reflexivity|].
      now apply flat_mem_In.
    + intros M0. destruct F1 as [[F1 C]|[F1 C]]; rewrite F1 in *;
        [congruence|].
      rewrite T1 in *.
      pose proof (last_source_key_stored_last (rules_of s) oracle1
                    base_content f s0 k ND L M0 M) as LK.
      fold st1 in LK.
      assert (N : nth_error (keys base_content)
                    (List.length (keys base_content) - 1) = Some k).
      { now rewrite <- last_key_nth_error. }
      rewrite (start_index_after _ _ k _ ND LK N).
      assert (Len : List.length (keys base_content)
                    = List.length base_content) by apply length_map.
      assert (Pos : List.length (keys base_content) <> 0).
      { intros Z. apply length_zero_iff_nil in Z. rewrite Z in L.
        discriminate. }
      lia.
Qed.

Lemma second_run_makes_no_call_witness :
  let base := [("root.a.title", "Hello"); ("root.b.text", "World")] in
  let oracle := fun _ : nat => Text "kham" in
  calls_of (second_run GeminiTranslate oracle oracle base Absent) = []
  /\ second_run GeminiTranslate oracle oracle base Absent = AlreadyComplete
  /\ start_index (keys base)
       (keys (load_translated
                (file_after Absent
                   (run_script GeminiTranslate oracle base Absent))))
     = 2.
Proof.
  intros base oracle.
  assert (ND : NoDup (keys base)).
  { apply distinct_NoDup. reflexivity. }
  assert (A : always_answers oracle).
  { intros n. exists "kham". split; [reflexivity | discriminate]. }
  destruct (second_run_makes_no_call GeminiTranslate oracle oracle base
              Absent ND A) as [H1 H2].
  split; [exact H1|].
  destruct (H2 "root.b.text" eq_refl eq_refl) as [H3 H4].
  split; [exact H3 | exact (H4 eq_refl)].
Defined.

(* ================================================================== *)
(** * Splitting and scanning path strings *)
(* ================================================================== *)

Lemma has_char_append (c : ascii) (a b : string) :
  has_char c (a ++ b)%string = has_char c a || has_char c b.
Proof.
  induction a as [|x a IH]; simpl; [reflexivity|].
  now rewrite IH, orb_assoc.
Qed.

Lemma split_char_plain (c : ascii) (k : string) :
  has_char c k = false -> split_char c k = [k].
Proof.
  induction k as [|x k IH]; simpl; intros H; [reflexivity|].
  apply orb_false_iff in H. destruct H as [H1 H2].
  now rewrite H1, (IH H2).
Qed.

Lemma split_char_append (c : ascii) (k rest : string) :
  has_char c k = false ->
  split_char c (k ++ String c rest)%string = k :: split_char c rest.
Proof.
  induction k as [|x k IH]; simpl; intros H.
  - now rewrite Ascii.eqb_refl.
  - apply orb_false_iff in H. destruct H as [H1 H2].
    now rewrite H1, (IH H2).
Qed.

Lemma find_char_append (c : ascii) (a r : string) :
  has_char c a = false ->
  find_char c (a ++ String c r)%string = String.length a.
Proof.
  induction a as [|x a IH]; simpl; intros H.
  - now rewrite Ascii.eqb_refl.
  - apply orb_false_iff in H. destruct H as [H1 H2].
    now rewrite H1, (IH H2).
Qed.

Lemma substring_skip (a r : string) (n : nat) :
  String.substring (String.length a) n (a ++ r)%string
  = String.substring 0 n r.
Proof. induction a as [|x a IH]; simpl; [reflexivity | exact IH]. Qed.

Lemma substring_take (b c : string) :
  String.substring 0 (String.length b) (b ++ c)%string = b.
Proof.
  induction b as [|x b IH]; simpl; [now destruct c | now rewrite IH].
Qed.

(** The three readings of a segment [key[text]] made of a plain key and
    bracket-free text. *)
Lemma indexed_segment (key text : string) :
  plain_key key = true ->
  has_char "[" text = false -> has_char "]" text = false ->
  let p := (key ++ "[" ++ text ++ "]")%string in
  has_index p = true /\ field_of p = key /\ index_text p = text.
Proof.
  intros K T1 T2 p. unfold plain_key in K.
  apply andb_true_iff in K. destruct K as [K K3].
  apply andb_true_iff in K. destruct K as [K1 K2].
  apply negb_true_iff in K1, K2, K3.
  split; [|split].
  - unfold has_index, p. rewrite !has_char_append. simpl.
    now rewrite !orb_true_r.
  - unfold field_of, p. change ("[" ++ text ++ "]")%string
      with (String "[" (text ++ "]")).
    now rewrite split_char_append.
  - unfold index_text, slice, p.
    change ("[" ++ text ++ "]")%string with (String "[" (text ++ "]")).
    rewrite find_char_append by exact K2.
    assert (E : (key ++ String "[" (text ++ "]"))%string
                = ((key ++ String "[" text) ++ String "]" "")%string).
    { rewrite append_assoc. reflexivity. }
    rewrite E at 1. rewrite find_char_append.
    2:{ rewrite has_char_append. simpl. now rewrite K3, T2. }
    rewrite length_append. cbn [String.length].
    replace (String.length key + S (String.length text)
             - S (String.length key)) with (String.length text) by lia.
    change (key ++ String "[" (text ++ "]"))%string
      with (key ++ (String "[" "" ++ (text ++ "]")))%string.
    rewrite <- append_assoc.
    replace (S (String.length key))
      with (String.length (key ++ String "[" "")).
    2:{ rewrite length_append. simpl. lia. }
    rewrite substring_skip. apply substring_take.
Qed.

(* ================================================================== *)
(** * Printing and reading back a list position *)
(* ================================================================== *)

Lemma all_digits_string_of_uint (d : uint) :
  all_digits (NilEmpty.string_of_uint d) = true.
Proof. induction d; simpl; try exact IHd; reflexivity. Qed.

Lemma all_digits_no_char (c : ascii) (s : string) :
  is_digit c = false -> all_digits s = true -> has_char c s = false.
Proof.
  intros C. induction s as [|x s IH]; simpl; intros H; [reflexivity|].
  apply andb_true_iff in H. destruct H as [H1 H2].
  rewrite (IH H2), orb_false_r.
  destruct (Ascii.eqb x c) eqn:E; [|reflexivity].
  apply Ascii.eqb_eq in E. congruence.
Qed.

Lemma int_strip_all_digits (s : string) :
  all_digits s = true -> int_strip s = s.
Proof.
  intros H. destruct s as [|c r]; [reflexivity|].
  apply int_strip_decimal_text. unfold is_decimal_text.
  assert (D : is_digit c = true).
  { simpl in H. now apply andb_true_iff in H. }
  destruct (Ascii.eqb c "+") eqn:P.
  { apply Ascii.eqb_eq in P. subst c. discriminate. }
  destruct (Ascii.eqb c "-") eqn:M.
  { apply Ascii.eqb_eq in M. subst c. discriminate. }
  exact H.
Qed.

Lemma int_digits_of_uint (d : uint) (acc : nat) (b : bool) :
  d <> Nil \/ b = true ->
  int_digits (Z.of_nat acc) b (NilEmpty.string_of_uint d)
  = Some (Z.of_nat (Nat.of_uint_acc d acc)).
Proof.
  revert acc b.
  induction d as [|d IH|d IH|d IH|d IH|d IH|d IH|d IH|d IH|d IH|d IH];
    intros acc b H.
  1:{ destruct H as [H | ->]; [congruence | reflexivity]. }
  all: cbn [NilEmpty.string_of_uint int_digits Nat.of_uint_acc].
  all: match goal with
       | |- context [is_digit ?c] =>
           change (is_digit c) with true; cbv iota;
           match goal with
           | |- int_digits ?z true _ = Some (Z.of_nat (Nat.of_uint_acc _ ?n)) =>
               replace z with (Z.of_nat n);
               [apply IH; now right
               | rewrite Nat.tail_mul_spec;
                 let v := eval vm_compute in (digit_value c) in
                 change (digit_value c) with v; lia]
           end
       end.
Qed.

Lemma to_uint_not_nil (i : nat) : Nat.to_uint i <> Nil.
Proof.
  intros E. pose proof (DecimalNat.Unsigned.of_to i) as H.
  rewrite E in H. cbn in H. subst i. discriminate.
Qed.

(** A list position is read back from its digits, when they are no more
    than [int] takes. *)
Lemma python_int_format_nat (i : nat) :
  count_digits (format_nat i) <= max_str_digits ->
  python_int (format_nat i) = Some (Z.of_nat i).
Proof.
  unfold format_nat. intros L.
  pose proof (all_digits_string_of_uint (Nat.to_uint i)) as A.
  rewrite python_int_cases; rewrite (int_strip_all_digits _ A); [|exact L].
  destruct (NilEmpty.string_of_uint (Nat.to_uint i)) as [|c r] eqn:E.
  { destruct (Nat.to_uint i) eqn:U; try discriminate.
    now apply to_uint_not_nil in U. }
  assert (D : is_digit c = true).
  { simpl in A. now apply andb_true_iff in A. }
  destruct (Ascii.eqb c "+") eqn:P.
  { apply Ascii.eqb_eq in P. subst c. discriminate. }
  destruct (Ascii.eqb c "-") eqn:M.
  { apply Ascii.eqb_eq in M. subst c. discriminate. }
  rewrite <- E. change 0%Z with (Z.of_nat 0).
  rewrite int_digits_of_uint by (left; apply to_uint_not_nil).
  f_equal. f_equal. apply DecimalNat.Unsigned.of_to.
Qed.

(* ================================================================== *)
(** * Subscripts on a parsed document *)
(* ================================================================== *)

Lemma dict_get_embed (k : string) (d : list (string * json)) :
  dict_get pykey_eqb (KStr k)
    (map (fun kv => (KStr (fst kv), embed (snd kv))) d)
  = option_map embed (dict_get String.eqb k d).
Proof.
  induction d as [|[a x] d IH]; [reflexivity|].
  cbn [map dict_get fst snd pykey_eqb].
  destruct (String.eqb a k); [reflexivity | exact IH].
Qed.

Lemma getitem_embed_dict (d : list (string * json)) (k : string) (x : json) :
  NoDup (keys d) -> In (k, x) d ->
  getitem (embed (JDict d)) (KStr k) = Ret (embed x).
Proof.
  intros ND H. cbn [embed getitem]. rewrite dict_get_embed.
  now rewrite (dict_get_first String.eqb string_eqb_spec k x d ND H).
Qed.

Lemma norm_index_nat (i len : nat) :
  i < len -> norm_index (Z.of_nat i) len = Some i.
Proof.
  intros H. unfold norm_index.
  replace ((0 <=? Z.of_nat i)%Z && (Z.of_nat i <? Z.of_nat len)%Z) with true.
  - now rewrite Nat2Z.id.
  - symmetry. apply andb_true_iff. split.
    + apply Z.leb_le. lia.
    + apply Z.ltb_lt. lia.
Qed.

Lemma getitem_embed_list (l : list json) (i : nat) (x : json) :
  nth_error l i = Some x ->
  getitem (embed (JList l)) (KInt (Z.of_nat i)) = Ret (embed x).
Proof.
  intros H. cbn [embed getitem]. rewrite length_map.
  rewrite norm_index_nat.
  - now rewrite nth_error_map, H.
  - apply nth_error_Some. congruence.
Qed.

(* ================================================================== *)
(** * Reading along the walk of the writer *)
(* ================================================================== *)

Lemma clean_path_root (x : string) : clean_path ("root." ++ x) = x.
Proof.
  unfold clean_path, startswith. rewrite prefix_append. reflexivity.
Qed.

Lemma plain_key_chars (k : string) :
  plain_key k = true ->
  has_char "." k = false /\ has_char "[" k = false /\ has_char "]" k = false.
Proof.
  unfold plain_key. intros K.
  apply andb_true_iff in K. destruct K as [K K3].
  apply andb_true_iff in K. destruct K as [K1 K2].
  now apply negb_true_iff in K1, K2, K3.
Qed.

Lemma step_into_plain (ref : pyobj) (k : string) :
  plain_key k = true -> step_into ref k = getitem ref (KStr k).
Proof.
  intros K. destruct (plain_key_chars k K) as [_ [K2 _]].
  unfold step_into, has_index. now rewrite K2.
Qed.

Lemma step_into_indexed (ref x : pyobj) (k : string) (i : nat) :
  plain_key k = true ->
  count_digits (format_nat i) <= max_str_digits ->
  getitem ref (KStr k) = Ret x ->
  step_into ref (k ++ "[" ++ format_nat i ++ "]")%string
  = getitem x (KInt (Z.of_nat i)).
Proof.
  intros K L G.
  pose proof (all_digits_string_of_uint (Nat.to_uint i)) as A.
  fold (format_nat i) in A.
  destruct (indexed_segment k (format_nat i) K) as [H1 [H2 H3]].
  - now apply all_digits_no_char.
  - now apply all_digits_no_char.
  - unfold step_into.
    rewrite H1, H3, (python_int_format_nat _ L), H2, G.
    reflexivity.
Qed.

Lemma indexed_segment_no_dot (k : string) (i : nat) :
  plain_key k = true ->
  has_char "." (k ++ "[" ++ format_nat i ++ "]")%string = false.
Proof.
  intros K. destruct (plain_key_chars k K) as [K1 _].
  pose proof (all_digits_string_of_uint (Nat.to_uint i)) as A.
  fold (format_nat i) in A.
  change ("[" ++ format_nat i ++ "]")%string
    with (String "[" (format_nat i ++ "]")).
  rewrite has_char_append, K1. cbn [has_char orb].
  rewrite has_char_append, (all_digits_no_char "." _ eq_refl A).
  reflexivity.
Qed.

(** Going down one segment moves the point that a prefix resolves to. *)
Lemma resolves_at_segment
    (doc parent child : pyobj) (prefix seg : string) :
  resolves_at doc prefix parent ->
  has_char "." seg = false ->
  step_into parent seg = Ret child ->
  resolves_at doc ((prefix ++ seg) ++ ".") child.
Proof.
  intros R N S rest. rewrite !append_assoc.
  change ("." ++ rest)%string with (String "." rest).
  rewrite R, (split_char_append _ _ _ N). cbn [walk]. now rewrite S.
Qed.

Lemma resolves_at_read
    (doc parent : pyobj) (prefix k : string) (v : pyobj) :
  resolves_at doc prefix parent ->
  plain_key k = true ->
  getitem parent (KStr k) = Ret v ->
  read_nested_field doc (prefix ++ k) = Ret v.
Proof.
  intros R K G. destruct (plain_key_chars k K) as [K1 _].
  rewrite read_nested_field_walk, R, (split_char_plain _ _ K1).
  cbn [walk]. rewrite (step_into_plain _ _ K), G. reflexivity.
Qed.

(* ================================================================== *)
(** * Extracted paths resolve to the extracted values *)
(* ================================================================== *)

Lemma json_nested_ind (P : json -> Prop) :
  P JNull -> (forall b, P (JBool b)) -> (forall n, P (JNum n)) ->
  (forall s, P (JStr s)) ->
  (forall l, Forall P l -> P (JList l)) ->
  (forall d, Forall (fun kv => P (snd kv)) d -> P (JDict d)) ->
  forall j, P j.
Proof.
  intros H1 H2 H3 H4 H5 H6. fix IH 1. intros [ | b | n | s | l | d].
  - exact H1.
  - apply H2.
  - apply H3.
  - apply H4.
  - apply H5. revert l. fix IHl 1. intros [|x l].
    + constructor.
    + constructor; [apply IH | apply IHl].
  - apply H6. revert d. fix IHd 1. intros [|[k x] d].
    + constructor.
    + constructor; [apply IH | apply IHd].
Qed.

Lemma extract_dict (d : list (string * json)) (path : string) (result : flat) :
  extract_text_fields (JDict d) path result
  = fold_left (extract_item path) d result.
Proof.
  cbn [extract_text_fields]. revert result.
  induction d as [|[k x] d IH]; intros result; [reflexivity|].
  cbn [fold_left]. rewrite <- IH. reflexivity.
Qed.

Lemma extract_list (l : list json) (path : string) (result : flat) :
  extract_text_fields (JList l) path result = extract_each path 0 l result.
Proof.
  cbn [extract_text_fields]. generalize 0 as i. revert result.
  induction l as [|x l IH]; intros result i; [reflexivity|].
  cbn [extract_each]. now rewrite <- IH.
Qed.

Lemma flat_set_In (p v k s : string) (r : flat) :
  In (p, v) (flat_set k s r) -> (p, v) = (k, s) \/ In (p, v) r.
Proof.
  unfold flat_set. induction r as [|[a x] r IH]; cbn [dict_set].
  - intros [H|[]]. now left.
  - destruct (String.eqb a k) eqn:E; intros [H|H].
    + left. apply String.eqb_eq in E. congruence.
    + right. now right.
    + right. now left.
    + destruct (IH H) as [H'|H']; [now left | right; now right].
Qed.

Lemma path_child (P Q k : string) :
  (P ++ ".")%string = ("root." ++ Q)%string ->
  (P ++ String "." k)%string = ("root." ++ (Q ++ k))%string.
Proof.
  intros E. change (String "." k) with ("." ++ k)%string.
  rewrite <- (append_assoc P "." k), E. apply append_assoc.
Qed.

Section RoundTrip.

Variable doc : pyobj.

Local Abbreviation reads p v :=
  (read_nested_field doc (clean_path p) = Ret (PStr v)).

(** What the extractor adds below a mapping that a path prefix resolves
    to, and below a list held by such a mapping, can be read back. *)
Lemma extract_resolves (obj : json) :
  addressable obj = true ->
  (forall P Q result p v,
      (P ++ ".")%string = ("root." ++ Q)%string ->
      resolves_at doc Q (embed obj) ->
      is_dict obj = true ->
      In (p, v) (extract_text_fields obj P result) ->
      In (p, v) result \/ reads p v)
  /\ (forall P Q k parent result p v,
        P = ("root." ++ (Q ++ k))%string ->
        plain_key k = true ->
        resolves_at doc Q parent ->
        getitem parent (KStr k) = Ret (embed obj) ->
        is_list obj = true ->
        In (p, v) (extract_text_fields obj P result) ->
        In (p, v) result \/ reads p v).
Proof.
  induction obj as [ | b | n | s | l IH | d IH] using json_nested_ind;
    intros A; split; try (intros; discriminate).
  - (* a list held under the key [k] of [parent] *)
    intros P Q k parent result p v EP K R G _ Hin.
    rewrite extract_list in Hin.
    cbn [addressable] in A. apply andb_true_iff in A.
    destruct A as [Short A]. rewrite forallb_forall in Short, A.
    rewrite Forall_forall in IH.
    assert (Gen : forall l' i result,
               (forall j item, nth_error l' j = Some item ->
                               nth_error l (i + j) = Some item) ->
               In (p, v) (extract_each P i l' result) ->
               In (p, v) result \/ reads p v).
    { clear Hin result.
      induction l' as [|item rest IHl]; intros i result Hsub Hin.
      - now left.
      - cbn [extract_each] in Hin. apply IHl in Hin.
        2:{ intros j it Hj. replace (S i + j) with (i + S j) by lia.
            now apply Hsub. }
        destruct Hin as [Hin|Hin]; [|now right].
        assert (Ni : nth_error l i = Some item).
        { rewrite <- (Nat.add_0_r i). now apply Hsub. }
        pose proof (nth_error_In _ _ Ni) as Il.
        pose proof (A _ Il) as Ai. apply andb_true_iff in Ai.
        destruct Ai as [NL Ai].
        destruct item as [ | b | n | s | l2 | d2];
          try (left; exact Hin); [discriminate|].
        destruct (IH _ Il Ai) as [C1 _].
        apply (C1 (P ++ "[" ++ format_nat i ++ "]")%string
                  ((Q ++ (k ++ "[" ++ format_nat i ++ "]")) ++ ".")%string
                  result p v); [| |reflexivity|exact Hin].
        + subst P. now rewrite !append_assoc.
        + apply resolves_at_segment with (parent := parent); [exact R| |].
          * now apply indexed_segment_no_dot.
          * assert (L : count_digits (format_nat i) <= max_str_digits).
            { apply Nat.leb_le, Short, in_seq.
              assert (i < List.length l); [|lia].
              apply nth_error_Some. now rewrite Ni. }
            rewrite (step_into_indexed _ _ _ _ K L G).
            now apply getitem_embed_list. }
    apply (Gen l 0 result); [|exact Hin]. intros j item Hj. exact Hj.
  - (* a mapping *)
    intros P Q result p v EP R _ Hin.
    rewrite extract_dict in Hin.
    cbn [addressable] in A. apply andb_true_iff in A. destruct A as [ND A].
    apply distinct_NoDup in ND. rewrite forallb_forall in A.
    rewrite Forall_forall in IH.
    assert (Gen : forall d' result,
               incl d' d ->
               In (p, v) (fold_left (extract_item P) d' result) ->
               In (p, v) result \/ reads p v).
    { clear Hin result.
      induction d' as [|[k x] rest IHd]; intros result Hinc Hin.
      - now left.
      - cbn [fold_left] in Hin. apply IHd in Hin.
        2:{ intros y Hy. apply Hinc. now right. }
        destruct Hin as [Hin|Hin]; [|now right].
        assert (Id : In (k, x) d) by (apply Hinc; now left).
        pose proof (A _ Id) as Ax. cbn [fst snd] in Ax.
        apply andb_true_iff in Ax. destruct Ax as [K Ax].
        pose proof (getitem_embed_dict d k x ND Id) as G.
        pose proof (IH _ Id Ax) as [C1 C2]. cbn [snd] in C1, C2.
        unfold extract_item in Hin. cbn [fst snd] in Hin.
        destruct x as [ | b | n | s | l2 | d2]; try (left; exact Hin).
        + destruct (collects k s); [|left; exact Hin].
          apply flat_set_In in Hin. destruct Hin as [E|Hin]; [|now left].
          right. inversion E; subst p v.
          rewrite (path_child _ _ k EP), clean_path_root.
          now apply resolves_at_read with (parent := embed (JDict d)).
        + apply (C2 (P ++ "." ++ k)%string Q k (embed (JDict d)) result p v);
            [now apply path_child | exact K | exact R | exact G
            | reflexivity | exact Hin].
        + apply (C1 (P ++ "." ++ k)%string ((Q ++ k) ++ ".")%string
                    result p v); [| |reflexivity|exact Hin].
          * etransitivity; [|apply append_assoc].
            apply (f_equal (fun t => (t ++ ".")%string)
                     (path_child _ _ k EP)).
          * apply resolves_at_segment with (parent := embed (JDict d));
              [exact R | | ].
            -- now destruct (plain_key_chars k K).
            -- now rewrite (step_into_plain _ _ K). }
    apply (Gen d result); [apply incl_refl | exact Hin].
Qed.

End RoundTrip.

(** C3 fails as stated: a key with a dot in it, and a list inside a list,
    give paths that the writer's walk does not follow back. *)
Lemma extracted_path_not_resolved :
  let D1 := JDict [("x.title", JStr "Hello")] in
  let D2 := JDict [("a", JList [JList [JDict [("title", JStr "Hi")]]])] in
  translatable_fields D1 = [("root.x.title", "Hello")]
  /\ read_nested_field (embed D1) (clean_path "root.x.title")
     = Raise KeyError
  /\ update_nested_field (embed D1) (clean_path "root.x.title")
       (PStr "Sawasdee") = Ret (false, embed D1)
  /\ translatable_fields D2 = [("root.a[0][0].title", "Hi")]
  /\ read_nested_field (embed D2) (clean_path "root.a[0][0].title")
     = Raise TypeError.
Proof. vm_compute. repeat split. Qed.

(** C3, amended.  Let the document be a mapping whose mappings, at every
    depth, have keys without ['.'], ['['] and [']'], and in which no list
    is itself an element of a list.  Then for every entry [(path, value)]
    of the flat mapping that the extractor derives from it, stripping the
    leading ["root."] and walking the dot segments and bracketed indices
    from the document reaches exactly the string [value]. *)
Theorem extracted_paths_resolve (D : json) (path value : string) :
  is_dict D = true ->
  addressable D = true ->
  In (path, value) (translatable_fields D) ->
  read_nested_field (embed D) (clean_path path) = Ret (PStr value).
Proof.
  intros Hd A Hin.
  destruct (extract_resolves (embed D) D A) as [C1 _].
  destruct (C1 "root" "" [] path value) as [[]|H]; try assumption.
  - reflexivity.
  - intros rest. reflexivity.
Qed.

Lemma extracted_paths_resolve_witness :
  let D := JDict [("a", JDict [("title", JStr "Hello")]);
                  ("rows", JList [JDict [("label", JStr "One")];
                                  JDict [("label", JStr "Two")]])] in
  In ("root.rows[1].label", "Two") (translatable_fields D)
  /\ read_nested_field (embed D) "rows[1].label" = Ret (PStr "Two").
Proof.
  intros D.
  assert (Hin : In ("root.rows[1].label", "Two") (translatable_fields D)).
  { vm_compute. right. right. now left. }
  split; [exact Hin|].
  exact (extracted_paths_resolve D "root.rows[1].label" "Two"
           eq_refl eq_refl Hin).
Defined.

(* ================================================================== *)
(** * More on the checkpointed loop *)
(* ================================================================== *)

Lemma run_finished (rules : string -> string -> action)
    (oracle : nat -> reply) (base_content : flat) (f : file) (st : state) :
  run rules oracle base_content f = Finished st ->
  st = loop rules oracle
         (skipn (start_index (keys base_content) (keys (load_translated f)))
            base_content)
         (initial_state f).
Proof.
  rewrite run_unfold.
  destruct (completion_check (keys base_content)
              (keys (load_translated f))) as [[|]|e]; try discriminate.
  now intros [= <-].
Qed.

(** A run never changes or drops what the translated mapping held when it
    started: each such key keeps its value, in memory and in the file the
    run leaves. *)
Theorem stored_translations_kept
    (rules : string -> string -> action) (oracle : nat -> reply)
    (base_content : flat) (f : file) (st : state) (k v : string) :
  run rules oracle base_content f = Finished st ->
  flat_get k (load_translated f) = Some v ->
  flat_get k (translated_content st) = Some v
  /\ flat_get k (load_translated (translated_file st)) = Some v.
Proof.
  intros R G. apply run_finished in R. subst st.
  assert (H : flat_get k
                (translated_content
                   (loop rules oracle
                      (skipn (start_index (keys base_content)
                                (keys (load_translated f))) base_content)
                      (initial_state f))) = Some v).
  { now apply loop_keeps. }
  split; [exact H|]. now rewrite loop_file.
Qed.

Lemma stored_translations_kept_witness :
  let base := [("root.a.title", "Hello"); ("root.b.title", "World")] in
  let f := Holds [("root.a.title", "old")] in
  let st := loop translate_rules (fun _ => Text "new") (skipn 1 base)
              (initial_state f) in
  flat_get "root.a.title" (translated_content st) = Some "old"
  /\ flat_get "root.a.title" (load_translated (translated_file st))
     = Some "old".
Proof.
  intros base f st.
  exact (stored_translations_kept translate_rules (fun _ => Text "new")
           base f st "root.a.title" "old" eq_refl eq_refl).
Defined.

Lemma skipn_keys {A B} (n : nat) (l : list (A * B)) :
  keys (skipn n l) = skipn n (keys l).
Proof. unfold keys. symmetry. apply skipn_map. Qed.

Lemma not_in_skipn_before (l : list string) (n i : nat) (k : string) :
  NoDup l -> nth_error l i = Some k -> i < n -> ~ In k (skipn n l).
Proof.
  intros ND N L H. destruct (In_skipn_nth_error _ _ _ H) as [j [Hj Hk]].
  assert (E : i = j).
  { apply (proj1 (NoDup_nth_error l) ND).
    - apply nth_error_Some. congruence.
    - congruence. }
  lia.
Qed.

(** An entry that lies before the resume index and is not in the
    translated mapping is never visited: the run makes no call about it and
    does not store it, so an entry whose call failed is not tried again
    once a later entry has been stored. *)
Theorem entry_before_resume_index_stays_out
    (rules : string -> string -> action) (oracle : nat -> reply)
    (base_content : flat) (f : file) (st : state)
    (i : nat) (key value : string) :
  NoDup (keys base_content) ->
  run rules oracle base_content f = Finished st ->
  nth_error base_content i = Some (key, value) ->
  i < start_index (keys base_content) (keys (load_translated f)) ->
  flat_mem key (load_translated f) = false ->
  flat_mem key (translated_content st) = false
  /\ forall sent, ~ In (key, sent) (calls st).
Proof.
  intros ND R N L M. apply run_finished in R.
  set (start := start_index (keys base_content) (keys (load_translated f)))
    in *.
  assert (Out : ~ In key (keys (skipn start base_content))).
  { rewrite skipn_keys. apply not_in_skipn_before with (i := i);
      [exact ND | | exact L].
    unfold keys. now rewrite nth_error_map, N. }
  split.
  - apply flat_mem_false. intros Hin.
    destruct (loop_keys rules oracle (skipn start base_content)
                (initial_state f)) as [added [Hk Hi]].
    rewrite <- R in Hk. rewrite Hk in Hin. apply in_app_or in Hin.
    destruct Hin as [Hin|Hin].
    + apply flat_mem_false in M. now apply M.
    + apply Out. now apply Hi.
  - intros sent Hc. rewrite R in Hc. apply loop_calls in Hc.
    destruct Hc as [[]|[Hin _]]. apply Out.
    unfold keys. apply in_map_iff. now exists (key, sent).
Qed.

Lemma entry_before_resume_index_stays_out_witness :
  let base := [("root.a.title", "One"); ("root.b.title", "Two");
               ("root.c.title", "Three")] in
  let f := Holds [("root.b.title", "Song")] in
  let st := loop translate_rules (fun _ => Text "x") (skipn 2 base)
              (initial_state f) in
  flat_mem "root.a.title" (translated_content st) = false
  /\ forall sent, ~ In ("root.a.title", sent) (calls st).
Proof.
  intros base f st.
  assert (ND : NoDup (keys base)).
  { apply distinct_NoDup. reflexivity. }
  apply (entry_before_resume_index_stays_out translate_rules
           (fun _ => Text "x") base f st 0 "root.a.title" "One" ND
           eq_refl eq_refl).
  - vm_compute. lia.
  - reflexivity.
Defined.

Lemma flat_get_set_cases (k key t v : string) (d : flat) :
  flat_get k (flat_set key t d) = Some v ->
  (k = key /\ v = t) \/ flat_get k d = Some v.
Proof.
  destruct (string_dec k key) as [->|N].
  - rewrite flat_get_set_same. intros [= <-]. now left.
  - rewrite flat_get_set_other by exact N. now right.
Qed.

Lemma loop_step_calls_grow
    (rules : string -> string -> action) (oracle : nat -> reply)
    (st : state) (entry : string * string) :
  exists added, calls (loop_step rules oracle st entry) = calls st ++ added.
Proof.
  destruct entry as [key value]. unfold loop_step.
  destruct (flat_mem key (translated_content st));
    [exists []; now rewrite app_nil_r|].
  destruct (rules key value);
    try (exists []; cbn; now rewrite app_nil_r).
  exists [(key, value)].
  destruct (oracle (List.length (calls st))) as [|t]; [reflexivity|].
  now destruct (String.eqb t "").
Qed.

Lemma loop_calls_grow
    (rules : string -> string -> action) (oracle : nat -> reply)
    (es : flat) (st : state) :
  exists added, calls (loop rules oracle es st) = calls st ++ added.
Proof.
  revert st. induction es as [|e es IH]; intros st.
  - exists []. cbn. now rewrite app_nil_r.
  - rewrite loop_cons. destruct (IH (loop_step rules oracle st e)) as [a E].
    destruct (loop_step_calls_grow rules oracle st e) as [a' E'].
    exists (a' ++ a). now rewrite E, E', app_assoc.
Qed.

Lemma nth_error_grow {A} (l added : list A) (n : nat) (x : A) :
  nth_error l n = Some x -> nth_error (l ++ added) n = Some x.
Proof.
  intros H. rewrite nth_error_app1; [exact H|].
  apply nth_error_Some. now rewrite H.
Qed.

(** Where a value of the mapping comes from, one turn at a time: a stored
    translation is the reply to the call that the turn made for its
    entry. *)
Lemma loop_step_value
    (rules : string -> string -> action) (oracle : nat -> reply)
    (st : state) (key value k v : string) :
  let st' := loop_step rules oracle st (key, value) in
  flat_get k (translated_content st') = Some v ->
  flat_get k (translated_content st) = Some v
  \/ (k = key
      /\ ((rules key value = Copy /\ v = value)
          \/ (rules key value = Translate /\ v <> EmptyString
              /\ exists n, nth_error (calls st') n = Some (key, value)
                           /\ oracle n = Text v))).
Proof.
  cbv zeta. unfold loop_step.
  destruct (flat_mem key (translated_content st)); [now left|].
  destruct (rules key value) eqn:R; [now left | |].
  - cbn. intros H. apply flat_get_set_cases in H.
    destruct H as [[-> ->]|H]; [right | now left].
    split; [reflexivity|]. left. now split.
  - destruct (oracle (List.length (calls st))) as [|t] eqn:O; [now left|].
    destruct (String.eqb t "") eqn:E; [now left|].
    cbn. intros H. apply flat_get_set_cases in H.
    destruct H as [[-> ->]|H]; [right | now left].
    split; [reflexivity|]. right. split; [reflexivity|]. split.
    + now apply String.eqb_neq.
    + exists (List.length (calls st)). split; [|exact O].
      rewrite nth_error_app2 by lia. now rewrite Nat.sub_diag.
Qed.

Lemma loop_value
    (rules : string -> string -> action) (oracle : nat -> reply)
    (es : flat) (st : state) (k v : string) :
  let st' := loop rules oracle es st in
  flat_get k (translated_content st') = Some v ->
  flat_get k (translated_content st) = Some v
  \/ exists value,
       In (k, value) es
       /\ ((rules k value = Copy /\ v = value)
           \/ (rules k value = Translate /\ v <> EmptyString
               /\ exists n, nth_error (calls st') n = Some (k, value)
                            /\ oracle n = Text v)).
Proof.
  cbv zeta. revert st. induction es as [|[key value] es IH]; intros st H.
  - now left.
  - rewrite loop_cons in *. destruct (IH _ H) as [H1|[x [Hin Hx]]].
    + destruct (loop_step_value _ _ _ _ _ _ _ H1)
        as [H2|[-> [H2|[R [N [n [C O]]]]]]].
      * now left.
      * right. exists value. split; [now left | now left].
      * right. exists value. split; [now left|]. right.
        split; [exact R|]. split; [exact N|]. exists n. split; [|exact O].
        destruct (loop_calls_grow rules oracle es
                    (loop_step rules oracle st (key, value))) as [a E].
        rewrite E. now apply nth_error_grow.
    + right. exists x. split; [now right | exact Hx].
Qed.

(** Every value of the mapping after a run was there at the start, or is
    the source value of an entry that the rules copy, or is the non-empty
    reply that the run received to the call it made for that very entry:
    an empty translation is never stored, and no reply is stored under
    another key than the one it was asked for. *)
Theorem stored_values_origin
    (rules : string -> string -> action) (oracle : nat -> reply)
    (base_content : flat) (f : file) (st : state) (k v : string) :
  run rules oracle base_content f = Finished st ->
  flat_get k (translated_content st) = Some v ->
  flat_get k (load_translated f) = Some v
  \/ exists value,
       In (k, value) base_content
       /\ ((rules k value = Copy /\ v = value)
           \/ (rules k value = Translate /\ v <> EmptyString
               /\ exists n, nth_error (calls st) n = Some (k, value)
                            /\ oracle n = Text v)).
Proof.
  intros R G. apply run_finished in R. rewrite R in G.
  destruct (loop_value _ _ _ _ _ _ G) as [H|[x [Hin Hx]]]; [now left|].
  right. exists x. rewrite R. split; [|exact Hx].
  revert Hin. generalize (start_index (keys base_content)
                            (keys (load_translated f))).
  intros n. apply In_skipn_le with (n := 0) (m := n). lia.
Qed.

Lemma stored_values_origin_witness :
  let base := [("root.a.title", "Hello"); ("root.a.content_type", "page")] in
  let st := loop translate_rules (fun _ => Text "Sawasdee") base
              (initial_state Absent) in
  flat_get "root.a.title" (load_translated Absent) = Some "Sawasdee"
  \/ exists value,
       In ("root.a.title", value) base
       /\ ((translate_rules "root.a.title" value = Copy /\ "Sawasdee" = value)
           \/ (translate_rules "root.a.title" value = Translate
               /\ "Sawasdee" <> EmptyString
               /\ exists n,
                    nth_error (calls st) n = Some ("root.a.title", value)
                    /\ (fun _ : nat => Text "Sawasdee") n
                       = Text "Sawasdee")).
Proof.
  intros base st.
  exact (stored_values_origin translate_rules (fun _ => Text "Sawasdee")
           base Absent st "root.a.title" "Sawasdee" eq_refl eq_refl).
Defined.

(** Counting calls and stored translations along the loop. *)
Lemma loop_step_counts
    (rules : string -> string -> action) (oracle : nat -> reply)
    (st : state) (entry : string * string) :
  let st' := loop_step rules oracle st entry in
  List.length (calls st) <= List.length (calls st')
  /\ List.length (calls st') <= S (List.length (calls st))
  /\ translated_count st <= translated_count st'
  /\ translated_count st' - translated_count st
     <= List.length (calls st') - List.length (calls st)
  /\ List.length (translated_content st')
     <= S (List.length (translated_content st)).
Proof.
  destruct entry as [key value]. unfold loop_step.
  assert (L : forall t, List.length (flat_set key t (translated_content st))
                        <= S (List.length (translated_content st))).
  { intros t. unfold flat_set.
    induction (translated_content st) as [|[a x] d IH]; cbn [dict_set].
    - cbn. lia.
    - destruct (String.eqb a key); cbn [List.length]; lia. }
  destruct (flat_mem key (translated_content st)); [cbn -[Nat.sub]; lia|].
  destruct (rules key value).
  - cbn -[Nat.sub]. lia.
  - cbn -[Nat.sub]. specialize (L value). lia.
  - destruct (oracle (List.length (calls st))) as [|t].
    + cbn -[Nat.sub]. rewrite length_app. cbn -[Nat.sub]. lia.
    + destruct (String.eqb t "").
      * cbn -[Nat.sub]. rewrite length_app. cbn -[Nat.sub]. lia.
      * cbn -[Nat.sub]. rewrite length_app. cbn -[Nat.sub].
        specialize (L t). lia.
Qed.

Lemma loop_counts
    (rules : string -> string -> action) (oracle : nat -> reply)
    (es : flat) (st : state) :
  let st' := loop rules oracle es st in
  List.length (calls st') <= List.length (calls st) + List.length es
  /\ translated_count st <= translated_count st'
  /\ List.length (calls st) <= List.length (calls st')
  /\ translated_count st' - translated_count st
     <= List.length (calls st') - List.length (calls st)
  /\ List.length (translated_content st')
     <= List.length (translated_content st) + List.length es.
Proof.
  revert st. induction es as [|e es IH]; intros st.
  - cbn. lia.
  - cbn zeta. rewrite loop_cons.
    pose proof (loop_step_counts rules oracle st e) as S.
    pose proof (IH (loop_step rules oracle st e)) as H.
    cbn zeta in S, H. cbn [List.length]. lia.
Qed.

(** The cost of a run: it makes at most one call for each source entry
    from the resume index on, its counter of new translations is at most
    the number of calls, and the mapping grows by at most one key for each
    of those entries. *)
Theorem run_call_bounds
    (rules : string -> string -> action) (oracle : nat -> reply)
    (base_content : flat) (f : file) (st : state) :
  run rules oracle base_content f = Finished st ->
  let pending :=
    List.length base_content
    - start_index (keys base_content) (keys (load_translated f)) in
  translated_count st <= List.length (calls st)
  /\ List.length (calls st) <= pending
  /\ List.length (translated_content st)
     <= List.length (load_translated f) + pending.
Proof.
  intros R pending. apply run_finished in R.
  pose proof (loop_counts rules oracle
                (skipn (start_index (keys base_content)
                          (keys (load_translated f))) base_content)
                (initial_state f)) as H.
  cbn zeta in H. rewrite <- R in H. rewrite length_skipn in H.
  cbn [initial_state calls translated_count translated_content List.length]
    in H.
  subst pending. lia.
Qed.

Lemma run_call_bounds_witness :
  let base := [("root.a.title", "One"); ("root.b.title", "Two");
               ("root.c.title", "Three")] in
  let f := Holds [("root.a.title", "Neung")] in
  let st := loop translate_rules (fun _ => Failed) (skipn 1 base)
              (initial_state f) in
  translated_count st <= List.length (calls st)
  /\ List.length (calls st) <= 2
  /\ List.length (translated_content st) <= 1 + 2.
Proof.
  intros base f st.
  exact (run_call_bounds translate_rules (fun _ => Failed) base f st
           eq_refl).
Defined.

Lemma strip_prefix_split (p s r : string) :
  strip_prefix p s = Some r -> s = (p ++ r)%string.
Proof.
  revert s. induction p as [|a p IH]; intros s H.
  - destruct s; cbn in H; inversion H; reflexivity.
  - destruct s as [|b s]; cbn in H; [discriminate|].
    destruct (Ascii.eqb a b) eqn:E; [|discriminate].
    apply Ascii.eqb_eq in E. subst b. cbn. f_equal. now apply IH.
Qed.

Lemma dynamic_row_at_end_rows_label (key : string) :
  dynamic_row_at_end key = true -> is_rows_label_key key = true.
Proof.
  unfold dynamic_row_at_end, is_rows_label_key, endswith.
  destruct (strip_prefix (reverse "].0.rows[0].0.label") (reverse key))
    as [r|] eqn:E; [|discriminate].
  intros _. apply strip_prefix_split in E. rewrite E.
  change (reverse "].0.rows[0].0.label")
    with (reverse "0.rows[0].0.label" ++ ".]")%string.
  rewrite append_assoc. apply prefix_append.
Qed.

(** In gpt-translate.py the dynamic-row test is shadowed: a key that does
    not end in a newline and matches the dynamic-row pattern also ends in
    [0.rows[0].0.label], which is tested before, so for such keys the only
    entries skipped without being written are those with placeholder
    text. *)
Theorem gpt_dynamic_row_test_shadowed (key value : string) :
  endswith key newline = false ->
  (is_exact_dynamic_row_pattern key = true -> is_rows_label_key key = true)
  /\ (gpt_rules key value = Skip -> is_placeholder_text value = true).
Proof.
  intros N.
  assert (S : is_exact_dynamic_row_pattern key = true ->
              is_rows_label_key key = true).
  { unfold is_exact_dynamic_row_pattern. intros H.
    apply orb_true_iff in H. destruct H as [H|H].
    - now apply dynamic_row_at_end_rows_label.
    - exfalso. unfold endswith in N.
      destruct (reverse key) as [|c r]; [discriminate|].
      apply andb_true_iff in H. destruct H as [H _].
      apply Ascii.eqb_eq in H. subst c. cbn in N.
      destruct (ascii_dec "010" "010"); [|congruence].
      now destruct r. }
  split; [exact S|].
  unfold gpt_rules. destruct (is_placeholder_text value); [reflexivity|].
  destruct (is_dnd_area_label_key key); [discriminate|].
  destruct (is_rows_label_key key) eqn:R; [discriminate|].
  destruct (is_exact_dynamic_row_pattern key) eqn:E.
  - specialize (S eq_refl). discriminate.
  - destruct (is_content_type_key key); discriminate.
Qed.

Lemma gpt_dynamic_row_test_shadowed_witness :
  is_rows_label_key "root.rows[3].0.rows[0].0.label" = true.
Proof.
  apply (gpt_dynamic_row_test_shadowed "root.rows[3].0.rows[0].0.label" "Hi");
    reflexivity.
Defined.

(** After a run in which every call was answered, every source entry from
    the resume index on is in the translated mapping or is one that the
    rules skip; from an empty or missing file that is every source
    entry. *)
Theorem answered_run_covers_pending
    (rules : string -> string -> action) (oracle : nat -> reply)
    (base_content : flat) (f : file) (st : state)
    (i : nat) (key value : string) :
  always_answers oracle ->
  run rules oracle base_content f = Finished st ->
  nth_error base_content i = Some (key, value) ->
  (start_index (keys base_content) (keys (load_translated f)) <= i
   \/ load_translated f = []) ->
  flat_mem key (translated_content st) = true \/ rules key value = Skip.
Proof.
  intros A R N L. apply run_finished in R.
  assert (L' : start_index (keys base_content) (keys (load_translated f))
               <= i).
  { destruct L as [L|L]; [exact L|]. rewrite L. cbn. lia. }
  destruct (skipn_around base_content _ i (key, value) L' N)
    as [pre [post [E _]]].
  rewrite R. apply loop_covers; [exact A|].
  rewrite E. apply in_or_app. right. now left.
Qed.

Lemma answered_run_covers_pending_witness :
  let base := [("root.a.title", "Hello"); ("root.b.text", "Lorem ipsum")] in
  let st := loop gpt_rules (fun _ => Text "kham") base
              (initial_state Absent) in
  flat_mem "root.b.text" (translated_content st) = true
  \/ gpt_rules "root.b.text" "Lorem ipsum" = Skip.
Proof.
  intros base st.
  apply (answered_run_covers_pending gpt_rules (fun _ => Text "kham") base
           Absent st 1 "root.b.text" "Lorem ipsum").
  - intros n. exists "kham". split; [reflexivity | discriminate].
  - reflexivity.
  - reflexivity.
  - right. reflexivity.
Defined.

Lemma flat_mem_keys (k : string) (d : flat) : flat_mem k d = mem k (keys d).
Proof.
  destruct (mem k (keys d)) eqn:E.
  - apply flat_mem_In. now apply mem_In.
  - apply flat_mem_false. now apply mem_false.
Qed.

Lemma mem_app (k : string) (a b : list string) :
  mem k (a ++ b) = mem k a || mem k b.
Proof. unfold mem. apply existsb_app. Qed.

(** The keys a loop adds come in the order of the entries it goes
    through. *)
Lemma loop_keys_in_order
    (rules : string -> string -> action) (oracle : nat -> reply)
    (es : flat) (st : state) :
  NoDup (keys es) ->
  let final := translated_content (loop rules oracle es st) in
  keys final
  = keys (translated_content st)
    ++ filter (fun k => mem k (keys final)
                        && negb (mem k (keys (translated_content st))))
         (keys es).
Proof.
  revert st. induction es as [|[k v] es IH]; intros st ND final.
  - subst final. cbn. now rewrite app_nil_r.
  - inversion ND as [|? ? Hk ND']; subst. subst final. rewrite loop_cons.
    set (st1 := loop_step rules oracle st (k, v)).
    specialize (IH st1 ND'). cbn zeta in IH.
    set (final := translated_content (loop rules oracle es st1)) in *.
    assert (Sub : forall x, In x (keys final) ->
                            In x (keys (translated_content st1))
                            \/ In x (keys es)).
    { intros x Hx. rewrite IH in Hx. apply in_app_or in Hx.
      destruct Hx as [Hx|Hx]; [now left|]. right.
      apply filter_In in Hx. tauto. }
    cbn [keys map fst filter]. fold (keys es).
    destruct (loop_step_keys rules oracle st (k, v)) as [E|[Nk E]];
      fold st1 in E; cbn [fst] in E.
    + (* nothing added at this turn *)
      assert (H : mem k (keys final)
                  && negb (mem k (keys (translated_content st))) = false).
      { destruct (mem k (keys (translated_content st))) eqn:M.
        - now rewrite andb_false_r.
        - rewrite andb_true_r. apply mem_false. intros Hin.
          destruct (Sub _ Hin) as [H|H]; [|contradiction].
          rewrite E in H. apply mem_false in M. contradiction. }
      rewrite H. etransitivity; [exact IH|]. now rewrite E.
    + (* the key of the entry was added *)
      assert (H : mem k (keys final)
                  && negb (mem k (keys (translated_content st))) = true).
      { apply andb_true_iff. split.
        - rewrite <- flat_mem_keys. apply loop_keeps_mem.
          rewrite flat_mem_keys, E, mem_app. cbn.
          now rewrite String.eqb_refl, orb_true_r.
        - apply negb_true_iff. now apply mem_false. }
      rewrite H. etransitivity; [exact IH|].
      rewrite E, <- app_assoc. f_equal. apply (f_equal (cons k)).
      apply filter_ext_in. intros x Hx. f_equal. f_equal.
      rewrite mem_app. cbn.
      destruct (String.eqb x k) eqn:X; [|now rewrite orb_false_r].
      apply String.eqb_eq in X. subst x. contradiction.
Qed.

(** A run appends to the translated mapping, and in source order: the keys
    of the mapping afterwards are the keys it had, followed by the source
    keys from the resume index on that the run stored. *)
Theorem new_keys_in_source_order
    (rules : string -> string -> action) (oracle : nat -> reply)
    (base_content : flat) (f : file) (st : state) :
  NoDup (keys base_content) ->
  run rules oracle base_content f = Finished st ->
  keys (translated_content st)
  = keys (load_translated f)
    ++ filter (fun k => flat_mem k (translated_content st)
                        && negb (flat_mem k (load_translated f)))
         (skipn (start_index (keys base_content) (keys (load_translated f)))
            (keys base_content)).
Proof.
  intros ND R. apply run_finished in R.
  set (start := start_index (keys base_content) (keys (load_translated f)))
    in *.
  pose proof (loop_keys_in_order rules oracle (skipn start base_content)
                (initial_state f)) as H.
  cbn zeta in H. rewrite <- R in H.
  cbn [initial_state translated_content] in H.
  rewrite skipn_keys in H. rewrite H at 1.
  - f_equal. apply filter_ext. intros k. now rewrite !flat_mem_keys.
  - clear -ND. revert ND. generalize (keys base_content) as l.
    intros l. revert l. induction start as [|n IH]; intros l ND; [exact ND|].
    destruct l as [|a l]; [constructor|]. cbn. apply IH.
    now inversion ND.
Qed.

Lemma new_keys_in_source_order_witness :
  let base := [("root.a.title", "One"); ("root.b.text", "Lorem ipsum");
               ("root.c.title", "Three")] in
  let st := loop translate_rules (fun _ => Text "x") base
              (initial_state Absent) in
  keys (translated_content st)
  = [] ++ filter (fun k => flat_mem k (translated_content st)
                           && negb (flat_mem k []))
            (skipn 0 (keys base)).
Proof.
  intros base st.
  assert (ND : NoDup (keys base)).
  { apply distinct_NoDup. reflexivity. }
  exact (new_keys_in_source_order translate_rules (fun _ => Text "x") base
           Absent st ND eq_refl).
Defined.

(* ================================================================== *)
(** * More on the extractor *)
(* ================================================================== *)

Lemma prefix_refl (p : string) : String.prefix p p = true.
Proof. rewrite <- (append_empty_r p) at 2. apply prefix_append. Qed.

Lemma prefix_app_l (a b s : string) :
  String.prefix (a ++ b) s = true -> String.prefix a s = true.
Proof.
  intros H. destruct (prefix_split _ _ H) as [r ->].
  rewrite append_assoc. apply prefix_append.
Qed.

(** Whatever the extractor adds to [result] is a string member that
    passed the three tests, stored under the path of its mapping, a dot
    and its key. *)
Lemma extract_sound (obj : json) :
  forall path result p v,
    In (p, v) (extract_text_fields obj path result) ->
    In (p, v) result
    \/ exists parent key,
         p = (parent ++ "." ++ key)%string
         /\ String.prefix path parent = true
         /\ collects key v = true.
Proof.
  induction obj as [| b | n | s | l IH | d IH] using json_nested_ind;
    intros path result p v Hin; try (now left).
  - rewrite extract_list in Hin. revert Hin. generalize 0 as i.
    revert result. induction IH as [|item l Hitem _ IHl];
      intros result i Hin; [now left|].
    cbn [extract_each] in Hin.
    destruct (IHl _ _ Hin) as [H|H]; [|now right].
    destruct (Hitem _ _ _ _ H) as [H'|[parent [key [E [Pre C]]]]];
      [now left|].
    right. exists parent, key. repeat split; try assumption.
    now apply prefix_app_l in Pre.
  - rewrite extract_dict in Hin. revert result Hin.
    induction IH as [|[key value] d Hitem _ IHd]; intros result Hin;
      [now left|].
    cbn [fold_left] in Hin.
    destruct (IHd _ Hin) as [H|H]; [|now right]. clear IHd Hin.
    cbn [snd] in Hitem.
    assert (Sub : In (p, v)
                    (extract_text_fields value (path ++ "." ++ key) result) ->
                  In (p, v) result
                  \/ exists parent key0,
                       p = (parent ++ "." ++ key0)%string
                       /\ String.prefix path parent = true
                       /\ collects key0 v = true).
    { intros H0.
      destruct (Hitem _ _ _ _ H0) as [H'|[parent [key0 [E [Pre C]]]]];
        [now left|].
      right. exists parent, key0. repeat split; try assumption.
      now apply prefix_app_l in Pre. }
    unfold extract_item in H. cbn [fst snd] in H.
    destruct value as [| b | n | s | l | d']; try (now left);
      try (now apply Sub).
    destruct (collects key s) eqn:C; [|now left].
    apply flat_set_In in H. destruct H as [H|H]; [|now left].
    inversion H; subst. right. exists path, key.
    repeat split; [apply prefix_refl | exact C].
Qed.

(** Every entry of the flat mapping that get-content.py saves has a path
    that starts with [root] and ends with a dot and a key, where the key
    names text (and no script, style, css or path) and the value is a
    string with something other than blanks in it. *)
Theorem extracted_entries_are_text (page_data : json) (path value : string) :
  In (path, value) (translatable_fields page_data) ->
  startswith path "root" = true
  /\ strip value <> EmptyString
  /\ exists parent key,
       path = (parent ++ "." ++ key)%string
       /\ any_keyword text_keywords key = true
       /\ any_keyword bad_keywords key = false.
Proof.
  intros Hin. unfold translatable_fields in Hin.
  destruct (extract_sound _ _ _ _ _ Hin) as [[]|[parent [key [E [Pre C]]]]].
  unfold collects in C.
  apply andb_true_iff in C. destruct C as [C C3].
  apply andb_true_iff in C. destruct C as [C1 C2].
  apply negb_true_iff in C2, C3. repeat split.
  - unfold startswith. destruct (prefix_split _ _ Pre) as [r ->].
    rewrite E, append_assoc. apply prefix_append.
  - intros H. rewrite H in C3. discriminate.
  - exists parent, key. now repeat split.
Qed.

Lemma extracted_entries_are_text_witness :
  startswith "root.rows[0].title" "root" = true
  /\ strip " Hello " <> EmptyString.
Proof.
  destruct (extracted_entries_are_text
              (JDict [("rows", JList [JDict [("title", JStr " Hello ")]])])
              "root.rows[0].title" " Hello ") as [H1 [H2 _]].
  - left. reflexivity.
  - split; assumption.
Defined.

Lemma extract_keeps_mem (obj : json) :
  forall path result k,
    flat_mem k result = true ->
    flat_mem k (extract_text_fields obj path result) = true.
Proof.
  induction obj as [| b | n | s | l IH | d IH] using json_nested_ind;
    intros path result k M; try exact M.
  - rewrite extract_list. revert M. generalize 0 as i. revert result.
    induction IH as [|item l Hitem _ IHl]; intros result i M; [exact M|].
    cbn [extract_each]. apply IHl. now apply Hitem.
  - rewrite extract_dict. revert result M.
    induction IH as [|[key value] d Hitem _ IHd]; intros result M;
      [exact M|].
    cbn [fold_left]. apply IHd. cbn [snd] in Hitem.
    unfold extract_item. cbn [fst snd].
    destruct value as [| b | n | s | l | d']; try exact M;
      try (now apply Hitem).
    destruct (collects key s); [|exact M]. now apply flat_mem_set.
Qed.

Lemma extract_items_keep_mem (path : string) (d : list (string * json))
    (result : flat) (k : string) :
  flat_mem k result = true ->
  flat_mem k (fold_left (extract_item path) d result) = true.
Proof.
  intros M. rewrite <- extract_dict. now apply extract_keeps_mem.
Qed.

(** The extractor misses no text member: a string stored in a mapping
    under a key that passes the tests has its path, the path of the
    mapping with a dot and the key, in the result, whatever else the
    mapping holds and whatever the result held before. *)
Theorem text_members_are_extracted
    (d : list (string * json)) (path : string) (result : flat)
    (key s : string) :
  In (key, JStr s) d ->
  collects key s = true ->
  flat_mem (path ++ "." ++ key) (extract_text_fields (JDict d) path result)
  = true.
Proof.
  intros Hin C. rewrite extract_dict. revert result.
  induction d as [|kv d IH]; intros result; [destruct Hin|].
  cbn [fold_left]. destruct Hin as [->|Hin]; [|now apply IH].
  apply extract_items_keep_mem. unfold extract_item. cbn [fst snd].
  rewrite C. apply flat_mem_get. exists s. apply flat_get_set_same.
Qed.

Lemma text_members_are_extracted_witness :
  flat_mem "root.title"
    (translatable_fields
       (JDict [("id", JNum 7); ("title", JStr "Hello");
               ("meta", JDict [("title", JStr "Inner")])]))
  = true.
Proof.
  unfold translatable_fields.
  apply (text_members_are_extracted _ "root" [] "title" "Hello").
  - right. left. reflexivity.
  - reflexivity.
Defined.

(* ================================================================== *)
(** * More on path addressing *)
(* ================================================================== *)

Lemma read_after_write_witness :
  let doc := embed (JDict [("a", JDict [("rows", JList [JStr "x"; JStr "y"])])])
  in
  read_nested_field
    (PDict [(KStr "a",
             PDict [(KStr "rows", PList [PStr "x"; PStr "new"])])])
    "a.rows[1]"
  = Ret (PStr "new").
Proof.
  intros doc.
  apply (read_after_write doc _ "a.rows[1]" (PStr "new")).
  reflexivity.
Defined.

Lemma first_segment_parts (key_path p : string) (rest : list string) :
  split_char "." key_path = p :: rest -> first_segment key_path = p.
Proof. unfold first_segment. now intros ->. Qed.

(** A first segment whose brackets hold text that [int] rejects stops the
    write with [ValueError], before the document is looked at. *)
Lemma update_rejected_index
    (data_obj : pyobj) (key_path : string) (new_value : pyobj) :
  rejects_index key_path = true ->
  update_nested_field data_obj key_path new_value = Raise ValueError.
Proof.
  unfold rejects_index, update_nested_field. intros R.
  destruct (split_char "." key_path) as [|p rest] eqn:E.
  - now destruct (split_char_not_nil "." key_path).
  - rewrite (first_segment_parts _ _ _ E) in R. cbv zeta in R.
    apply andb_true_iff in R. destruct R as [I N].
    destruct (python_int (index_text p)) eqn:P; [discriminate|].
    assert (U : update_parts data_obj (p :: rest) new_value
                = Raise ValueError).
    { destruct rest as [|q rest].
      - cbn [update_parts]. unfold assign_last. now rewrite I, P.
      - change (update_parts data_obj (p :: q :: rest) new_value)
          with (child <- step_into data_obj p ;;
                child' <- update_parts child (q :: rest) new_value ;;
                Ret (put_back data_obj p child')).
        unfold step_into. now rewrite I, P. }
    now rewrite U.
Qed.

Lemma update_nested_field_raises
    (data_obj : pyobj) (key_path : string) (new_value : pyobj) (e : exn) :
  update_nested_field data_obj key_path new_value = Raise e ->
  e = ValueError.
Proof.
  unfold update_nested_field.
  destruct (update_parts data_obj (split_char "." key_path) new_value)
    as [x|[]]; congruence.
Qed.

Lemma apply_one_raises (st : report) (entry : string * json) (e : exn) :
  apply_one st entry = Raise e -> e = ValueError.
Proof.
  unfold apply_one.
  destruct (update_nested_field (page_data st) (clean_path (fst entry))
              (embed (snd entry))) as [[flag doc]|x] eqn:U; cbn.
  - destruct flag; discriminate.
  - intros H. inversion H; subst. now apply update_nested_field_raises in U.
Qed.

(** One translation whose path starts with a bracketed segment that [int]
    rejects ends the write-back loop of update-content.py with
    [ValueError], wherever the entry stands among the translations and
    whatever the page is: the loop yields no report. *)
Theorem rejected_index_aborts_write_back
    (translations : list (string * json)) (st : report)
    (entry : string * json) :
  In entry translations ->
  rejects_index (clean_path (fst entry)) = true ->
  apply_translations translations st = Raise ValueError.
Proof.
  intros Hin R. revert st.
  induction translations as [|e rest IH]; intros st; [destruct Hin|].
  cbn [apply_translations].
  destruct (apply_one st e) as [st'|x] eqn:A; cbn [bind].
  - destruct Hin as [->|Hin]; [|now apply IH].
    unfold apply_one in A.
    rewrite (update_rejected_index _ _ _ R) in A. discriminate.
  - now rewrite (apply_one_raises _ _ _ A).
Qed.

Lemma rejected_index_aborts_write_back_witness :
  apply_translations
    [("root.name", JStr "Chue"); ("root.rows[x].label", JStr "Pai")]
    {| page_data := embed (JDict [("name", JStr "Name")]);
       updated := 0; not_found := []; printed := [] |}
  = Raise ValueError.
Proof.
  apply (rejected_index_aborts_write_back _ _
           ("root.rows[x].label", JStr "Pai")).
  - right. left. reflexivity.
  - reflexivity.
Defined.

Lemma setitem_other (x x' : pyobj) (s : string) (v : pyobj) (k : pykey) :
  setitem x (KStr s) v = Ret x' -> k <> KStr s ->
  getitem x' k = getitem x k.
Proof.
  destruct x as [| b | n | t | l | d]; try discriminate.
  cbn. intros H N. inversion H; subst. cbn.
  now rewrite (dict_get_set_other pykey_eqb pykey_eqb_spec).
Qed.

Lemma put_item_other (x : pyobj) (s : string) (v : pyobj) (k : pykey) :
  k <> KStr s -> getitem (put_item x (KStr s) v) k = getitem x k.
Proof.
  intros N. unfold put_item.
  destruct (setitem x (KStr s) v) as [x'|e] eqn:E; [|reflexivity].
  now apply (setitem_other _ _ _ _ _ E).
Qed.

(** A write touches one top-level key only, the one its path starts with:
    whatever the flag, every other key of the document holds afterwards
    what it held before. *)
Theorem update_keeps_other_top_level_keys
    (data_obj data_obj' : pyobj) (key_path : string) (new_value : pyobj)
    (flag : bool) (k : pykey) :
  update_nested_field data_obj key_path new_value = Ret (flag, data_obj') ->
  k <> KStr (top_key key_path) ->
  getitem data_obj' k = getitem data_obj k.
Proof.
  unfold update_nested_field, top_key. intros U N.
  destruct (split_char "." key_path) as [|p rest] eqn:E.
  { now destruct (split_char_not_nil "." key_path). }
  rewrite (first_segment_parts _ _ _ E) in N. cbv zeta in N.
  destruct (update_parts data_obj (p :: rest) new_value) as [doc|e] eqn:P.
  2:{ destruct e; inversion U; reflexivity. }
  inversion U; subst doc flag. clear U.
  destruct rest as [|q rest].
  - cbn [update_parts] in P. unfold assign_last in P.
    destruct (has_index p).
    + destruct (python_int (index_text p)) as [idx|]; [|discriminate].
      destruct (getitem data_obj (KStr (field_of p))) as [x|]; cbn in P;
        [|discriminate].
      destruct (setitem x (KInt idx) new_value) as [x'|]; cbn in P;
        [|discriminate].
      inversion P; subst. now apply put_item_other.
    + now apply (setitem_other _ _ _ _ _ P).
  - change (update_parts data_obj (p :: q :: rest) new_value)
      with (child <- step_into data_obj p ;;
            child' <- update_parts child (q :: rest) new_value ;;
            Ret (put_back data_obj p child')) in P.
    destruct (step_into data_obj p) as [child|]; cbn [bind] in P;
      [|discriminate].
    destruct (update_parts child (q :: rest) new_value) as [child'|];
      cbn [bind] in P; [|discriminate].
    inversion P; subst. unfold put_back.
    destruct (has_index p).
    + destruct (python_int (index_text p)) as [idx|]; [|reflexivity].
      destruct (getitem data_obj (KStr (field_of p))) as [x|];
        [|reflexivity].
      now apply put_item_other.
    + now apply put_item_other.
Qed.

Lemma update_keeps_other_top_level_keys_witness :
  let doc := embed (JDict [("name", JStr "Name");
                           ("rows", JList [JDict [("label", JStr "L")]])]) in
  getitem
    (PDict [(KStr "name", PStr "Name");
            (KStr "rows", PList [PDict [(KStr "label", PStr "Pai")]])])
    (KStr "name")
  = getitem doc (KStr "name").
Proof.
  intros doc.
  apply (update_keeps_other_top_level_keys doc _ "rows[0].label" (PStr "Pai")
           true (KStr "name")).
  - reflexivity.
  - discriminate.
Defined.

(* ================================================================== *)
(** * From the translation loop to the write-back *)
(* ================================================================== *)

Lemma collect_nothing (suffix : string) (data acc : list (string * json)) :
  (forall k, In k (keys data) -> endswith k suffix = false) ->
  fold_left
    (fun acc kv =>
       if endswith (fst kv) suffix
       then dict_set String.eqb
              (drop_last (String.length suffix) (fst kv)) (snd kv) acc
       else acc)
    data acc
  = acc.
Proof.
  revert acc. induction data as [|kv data IH]; intros acc H; [reflexivity|].
  cbn [fold_left]. rewrite (H (fst kv)) by now left.
  apply IH. intros k Hk. apply H. now right.
Qed.

(** The translation scripts store each text under the key it has in the
    source mapping.  So when no key of the source mapping and none of the
    translated file ends with the suffix ["_" ++ TARGET_SUFFIX], the
    write-back of update-content.py on the file that a finished run leaves
    selects nothing: the page is as fetched and both tallies are empty. *)
Theorem translated_file_writes_nothing_back
    (rules : string -> string -> action) (oracle : nat -> reply)
    (base_content : flat) (f : file) (st : state)
    (TARGET_SUFFIX : string) (page : pyobj) :
  run rules oracle base_content f = Finished st ->
  (forall k, In k (keys base_content) ->
             endswith k (suffix_of TARGET_SUFFIX) = false) ->
  (forall k, In k (keys (load_translated f)) ->
             endswith k (suffix_of TARGET_SUFFIX) = false) ->
  reinject TARGET_SUFFIX (json_of_flat (translated_content st)) page
  = Ret {| page_data := page; updated := 0; not_found := [];
           printed := [] |}.
Proof.
  intros R B F. apply run_finished in R.
  unfold reinject, collect_translations. rewrite collect_nothing; [reflexivity|].
  intros k Hk.
  assert (K : In k (keys (translated_content st))).
  { unfold json_of_flat, keys in Hk. rewrite map_map in Hk. exact Hk. }
  rewrite R in K.
  destruct (loop_keys rules oracle
              (skipn (start_index (keys base_content)
                        (keys (load_translated f))) base_content)
              (initial_state f)) as [added [E I]].
  rewrite E in K. apply in_app_or in K. destruct K as [K|K].
  - apply F. exact K.
  - apply B. apply I in K. apply in_map_iff in K.
    destruct K as [x [<- Hx]]. apply in_map.
    exact (In_skipn_le base_content 0 _ x (Nat.le_0_l _) Hx).
Qed.

Lemma translated_file_writes_nothing_back_witness :
  let base := [("root.a.title", "Hello")] in
  let st := loop gpt_rules (fun _ => Text "Sawasdee") base
              (initial_state Absent) in
  let page := embed (JDict [("a", JDict [("title", JStr "Hello")])]) in
  reinject default_target_suffix (json_of_flat (translated_content st)) page
  = Ret {| page_data := page; updated := 0; not_found := [];
           printed := [] |}.
Proof.
  intros base st page.
  apply (translated_file_writes_nothing_back gpt_rules
           (fun _ => Text "Sawasdee") base Absent st).
  - reflexivity.
  - intros k [<-|[]]. reflexivity.
  - intros k [].
Defined.

(* ================================================================== *)
(** * The payload that update-content.py sends *)
(* ================================================================== *)

Lemma filter_absent (f : string) (data : list (string * json)) :
  ~ In f (keys data) ->
  filter (fun kv => negb (String.eqb (fst kv) f)) data = data.
Proof.
  induction data as [|[k v] data IH]; intros N; [reflexivity|].
  cbn [filter fst]. destruct (String.eqb k f) eqn:E.
  - apply String.eqb_eq in E. subst k. destruct N. now left.
  - cbn [negb]. f_equal. apply IH. intros H. apply N. now right.
Qed.

Lemma dict_del_filter (f : string) (data : list (string * json)) :
  NoDup (keys data) ->
  (if dict_mem String.eqb f data then dict_del String.eqb f data else data)
  = filter (fun kv => negb (String.eqb (fst kv) f)) data.
Proof.
  induction data as [|[k v] data IH]; intros ND; [reflexivity|].
  inversion ND as [|? ? Hk ND']; subst.
  unfold dict_mem in *. cbn [dict_get dict_del filter fst].
  destruct (String.eqb k f) eqn:E; cbn [negb].
  - apply String.eqb_eq in E. subst k. symmetry. now apply filter_absent.
  - rewrite <- (IH ND').
    now destruct (dict_get String.eqb f data).
Qed.

Lemma NoDup_keys_filter (p : string * json -> bool)
    (data : list (string * json)) :
  NoDup (keys data) -> NoDup (keys (filter p data)).
Proof.
  induction data as [|kv data IH]; intros ND; [constructor|].
  inversion ND as [|? ? Hk ND']; subst. cbn [filter].
  destruct (p kv); [|now apply IH].
  cbn. constructor; [|now apply IH].
  intros H. apply Hk. unfold keys in *. apply in_map_iff in H.
  destruct H as [x [E Hx]]. apply filter_In in Hx.
  apply in_map_iff. exists x. tauto.
Qed.

Lemma filter_twice {A} (p q : A -> bool) (l : list A) :
  filter p (filter q l) = filter (fun x => q x && p x) l.
Proof.
  induction l as [|a l IH]; [reflexivity|].
  cbn [filter]. destruct (q a); cbn; [|exact IH].
  destruct (p a); now rewrite IH.
Qed.

Lemma remove_fields_filter (fields : list string)
    (data : list (string * json)) :
  NoDup (keys data) ->
  fold_left
    (fun data field =>
       if dict_mem String.eqb field data
       then dict_del String.eqb field data
       else data)
    fields data
  = filter (fun kv => negb (mem (fst kv) fields)) data.
Proof.
  revert data. induction fields as [|f fields IH]; intros data ND.
  - cbn. symmetry. clear ND. induction data as [|a l IHl]; [reflexivity|].
    cbn. now f_equal.
  - cbn [fold_left]. rewrite dict_del_filter by exact ND.
    rewrite IH by now apply NoDup_keys_filter.
    rewrite filter_twice. apply filter_ext. intros [k v].
    unfold mem. cbn [fst existsb]. now rewrite negb_orb.
Qed.

(** [clean_hubspot_payload] removes the fourteen read-only fields and
    nothing else: every other member of the page stays, with its value and
    in its place. *)
Theorem clean_hubspot_payload_filters (data : list (string * json)) :
  NoDup (keys data) ->
  clean_hubspot_payload data
  = filter (fun kv => negb (mem (fst kv) readonly_fields)) data.
Proof. apply remove_fields_filter. Qed.

Lemma clean_hubspot_payload_filters_witness :
  clean_hubspot_payload
    [("id", JNum 7); ("name", JStr "Page"); ("slug", JStr "page");
     ("layoutSections", JDict [])]
  = [("name", JStr "Page"); ("layoutSections", JDict [])].
Proof.
  apply (clean_hubspot_payload_filters
           [("id", JNum 7); ("name", JStr "Page"); ("slug", JStr "page");
            ("layoutSections", JDict [])]).
  apply distinct_NoDup. reflexivity.
Defined.

(* ================================================================== *)
(** * Cleaning the reply of the translation service *)
(* ================================================================== *)

Lemma reverse_cons (c : ascii) (r : string) :
  reverse (String c r) = (reverse r ++ String c "")%string.
Proof.
  change (String c r) with (String c "" ++ r)%string.
  now rewrite reverse_append.
Qed.

Lemma lstrip_app_nonspace (a : string) (c : ascii) (b : string) :
  is_space c = false ->
  lstrip (a ++ String c b) = (lstrip a ++ String c b)%string.
Proof.
  intros H. induction a as [|x a IH]; cbn [append lstrip].
  - now rewrite H.
  - now destruct (is_space x).
Qed.

Lemma rstrip_cons (c : ascii) (r : string) :
  is_space c = false -> rstrip (String c r) = String c (rstrip r).
Proof.
  intros H. unfold rstrip.
  rewrite reverse_cons, lstrip_app_nonspace by exact H.
  now rewrite reverse_append.
Qed.

Lemma head_not_space_lstrip (s : string) : head_not_space (lstrip s) = true.
Proof.
  induction s as [|c s IH]; [reflexivity|]. cbn [lstrip].
  destruct (is_space c) eqn:E; [exact IH|].
  cbn [head_not_space]. now rewrite E.
Qed.

Lemma lstrip_head (s : string) : head_not_space s = true -> lstrip s = s.
Proof.
  destruct s as [|c s]; [reflexivity|]. cbn [head_not_space lstrip].
  intros H. apply negb_true_iff in H. now rewrite H.
Qed.

Lemma rstrip_last (s : string) :
  head_not_space (reverse s) = true -> rstrip s = s.
Proof.
  intros H. unfold rstrip. rewrite lstrip_head by exact H.
  apply reverse_involutive.
Qed.

Lemma head_rstrip (s : string) :
  head_not_space s = true -> head_not_space (rstrip s) = true.
Proof.
  destruct s as [|c s]; [reflexivity|]. cbn [head_not_space]. intros H.
  rewrite rstrip_cons by now apply negb_true_iff.
  exact H.
Qed.

Lemma last_rstrip (s : string) : head_not_space (reverse (rstrip s)) = true.
Proof.
  unfold rstrip. rewrite reverse_involutive. apply head_not_space_lstrip.
Qed.

Lemma is_stripped_strip (s : string) : is_stripped (strip s) = true.
Proof.
  unfold is_stripped, strip.
  rewrite head_rstrip by apply head_not_space_lstrip.
  now rewrite last_rstrip.
Qed.

Lemma strip_stripped (s : string) : is_stripped s = true -> strip s = s.
Proof.
  unfold is_stripped, strip. intros H.
  apply andb_true_iff in H. destruct H as [H1 H2].
  rewrite lstrip_head by exact H1. now apply rstrip_last.
Qed.

Lemma head_reverse_last (x : string) (c : ascii) :
  head_not_space (reverse (x ++ String c "")) = negb (is_space c).
Proof. now rewrite reverse_append. Qed.

Lemma strip_prefix_none (p s : string) :
  String.prefix p s = false -> strip_prefix p s = None.
Proof.
  revert s. induction p as [|a p IH]; intros s H.
  - destruct s; discriminate.
  - destruct s as [|b s]; [reflexivity|]. cbn in H |- *.
    destruct (ascii_dec a b) as [->|N].
    + rewrite Ascii.eqb_refl. now apply IH.
    + apply Ascii.eqb_neq in N. now rewrite N.
Qed.

Lemma strip_prefix_append (p r : string) :
  strip_prefix p (p ++ r) = Some r.
Proof.
  induction p as [|a p IH]; cbn.
  - now destruct r.
  - now rewrite Ascii.eqb_refl.
Qed.

Lemma skip_letters_app (a : string) (c : ascii) (r : string) :
  all_letters a = true -> is_letter c = false ->
  skip_letters (a ++ String c r) = String c r.
Proof.
  intros A C. induction a as [|x a IH]; cbn [append skip_letters].
  - now rewrite C.
  - cbn [all_letters] in A. apply andb_true_iff in A.
    destruct A as [X A]. rewrite X. now apply IH.
Qed.

(** What [clean_gpt_output] and [clean_gemini_output] return never starts
    or ends with a blank. *)
Theorem cleaned_output_is_stripped (text : string) :
  is_stripped (clean_gpt_output text) = true
  /\ is_stripped (clean_gemini_output text) = true.
Proof.
  assert (H : is_stripped (clean_gpt_output text) = true).
  { unfold clean_gpt_output. destruct (String.eqb text "") eqn:E.
    - apply String.eqb_eq in E. now subst.
    - apply is_stripped_strip. }
  split; exact H.
Qed.

(** A reply that, blanks at the ends apart, neither starts nor ends with
    three backquotes is returned as [strip] leaves it: nothing inside it
    is touched. *)
Theorem clean_output_without_fence (text : string) :
  startswith (strip text) "```" = false ->
  endswith (strip text) "```" = false ->
  clean_gpt_output text = strip text.
Proof.
  intros H1 H2. unfold clean_gpt_output.
  destruct (String.eqb text "") eqn:E.
  { apply String.eqb_eq in E. now subst. }
  cbv zeta. pose proof (is_stripped_strip text) as S.
  set (s := strip text) in *.
  assert (O : strip_fence_open s = s).
  { unfold strip_fence_open. now rewrite strip_prefix_none. }
  rewrite O, (strip_stripped s S).
  assert (C : strip_fence_close s = s).
  { unfold strip_fence_close. rewrite H2.
    destruct (endswith s (String "`" (String "`" (String "`" newline))))
      eqn:E2; [|reflexivity].
    destruct (endswith_last_char s _ "010" "```" E2 eq_refl) as [t Ht].
    unfold is_stripped in S. rewrite Ht in S.
    apply andb_true_iff in S. destruct S as [_ S]. discriminate. }
  rewrite C. now apply strip_stripped.
Qed.

Lemma clean_output_without_fence_witness :
  clean_gpt_output " <p>Sawasdee</p> " = strip " <p>Sawasdee</p> ".
Proof.
  apply (clean_output_without_fence " <p>Sawasdee</p> "); reflexivity.
Defined.

Lemma fenced_is_stripped (x : string) :
  is_stripped ("```" ++ x ++ "```") = true.
Proof.
  assert (E : ("```" ++ x ++ "```")%string
              = (("```" ++ x ++ "``") ++ String "`" "")%string).
  { now rewrite !append_assoc. }
  unfold is_stripped. rewrite E at 2. rewrite head_reverse_last.
  reflexivity.
Qed.

Lemma open_fence (lang tail : string) :
  all_letters lang = true ->
  strip_fence_open ("```" ++ lang ++ newline ++ tail) = tail.
Proof.
  intros L. unfold strip_fence_open. rewrite strip_prefix_append.
  change (lang ++ newline ++ tail)%string
    with (lang ++ String "010" tail)%string.
  now rewrite skip_letters_app.
Qed.

Lemma close_fence (body : string) :
  is_stripped body = true ->
  strip (strip_fence_close (strip (body ++ newline ++ "```"))) = body.
Proof.
  intros S. destruct body as [|c b]; [reflexivity|].
  unfold is_stripped in S. apply andb_true_iff in S. destruct S as [Hc Hl].
  cbn [head_not_space] in Hc. apply negb_true_iff in Hc.
  assert (T : is_stripped (String c b ++ newline ++ "```") = true).
  { rewrite <- (append_empty_r (String c b)) at 1.
    rewrite append_assoc.
    change ("" ++ newline ++ "```")%string
      with (("" ++ newline ++ "``") ++ String "`" "")%string.
    rewrite <- append_assoc. unfold is_stripped.
    rewrite head_reverse_last. cbn [append head_not_space].
    now rewrite Hc. }
  rewrite (strip_stripped _ T).
  assert (C : strip_fence_close (String c b ++ newline ++ "```")
              = (String c b ++ newline)%string).
  { unfold strip_fence_close. rewrite <- append_assoc.
    rewrite endswith_append.
    change 3 with (String.length "```"). apply drop_last_append. }
  rewrite C. unfold strip.
  change (String c b ++ newline)%string with (String c (b ++ newline)).
  rewrite lstrip_id by exact Hc.
  change (String c (b ++ newline)) with (String c b ++ newline)%string.
  unfold rstrip. rewrite reverse_append.
  change (reverse newline ++ reverse (String c b))%string
    with (String "010" (reverse (String c b))).
  cbn [lstrip]. change (is_space "010") with true. cbv iota.
  rewrite lstrip_head by exact Hl. apply reverse_involutive.
Qed.

(** A reply wrapped in a code fence, three backquotes with an optional
    language word on the opening line and three backquotes on the closing
    line, is returned without the fence: what comes back is the text
    between the two lines. *)
Theorem clean_output_unwraps_fence (lang body : string) :
  all_letters lang = true ->
  is_stripped body = true ->
  clean_gpt_output ("```" ++ lang ++ newline ++ body ++ newline ++ "```")
  = body.
Proof.
  intros L S. unfold clean_gpt_output.
  change (String.eqb ("```" ++ lang ++ newline ++ body ++ newline ++ "```") "")
    with false.
  cbv zeta iota.
  assert (F : is_stripped
                ("```" ++ lang ++ newline ++ body ++ newline ++ "```")
              = true).
  { replace ("```" ++ lang ++ newline ++ body ++ newline ++ "```")%string
      with ("```" ++ (lang ++ newline ++ body ++ newline) ++ "```")%string
      by now rewrite !append_assoc.
    apply fenced_is_stripped. }
  rewrite (strip_stripped _ F).
  rewrite open_fence by exact L. now apply close_fence.
Qed.

Lemma clean_output_unwraps_fence_witness :
  clean_gpt_output
    ("```" ++ "html" ++ newline ++ "<p>Sawasdee</p>" ++ newline ++ "```")
  = "<p>Sawasdee</p>".
Proof.
  apply (clean_output_unwraps_fence "html" "<p>Sawasdee</p>"); reflexivity.
Defined.

(** A reply that is one word of letters between two groups of three
    backquotes on a single line is cleaned to the empty string: the word
    is taken for the language of the fence. *)
Theorem clean_output_erases_fenced_word (word : string) :
  all_letters word = true ->
  clean_gpt_output ("```" ++ word ++ "```") = EmptyString.
Proof.
  intros L. unfold clean_gpt_output.
  change (String.eqb ("```" ++ word ++ "```") "") with false.
  cbv zeta iota.
  rewrite (strip_stripped _ (fenced_is_stripped word)).
  assert (O : strip_fence_open ("```" ++ word ++ "```") = "```").
  { unfold strip_fence_open. rewrite strip_prefix_append.
    change (word ++ "```")%string with (word ++ String "`" "``")%string.
    now rewrite skip_letters_app. }
  rewrite O. reflexivity.
Qed.

Lemma clean_output_erases_fenced_word_witness :
  clean_gpt_output ("```" ++ "Sawasdee" ++ "```") = EmptyString.
Proof.
  apply (clean_output_erases_fenced_word "Sawasdee"). reflexivity.
Defined.

(* ================================================================== *)
(** * The HTML that payload.py builds *)
(* ================================================================== *)

Lemma flat_get_mem (k : string) (d : flat) :
  flat_mem k d = match flat_get k d with Some _ => true | None => false end.
Proof. reflexivity. Qed.




Lemma partition_at_eq (sep s : string) :
  partition_at sep s
  = match strip_prefix sep s with
    | Some r => Some (EmptyString, r)
    | None =>
        match s with
        | EmptyString => None
        | String c s' =>
            match partition_at sep s' with
            | Some (a, b) => Some (String c a, b)
            | None => None
            end
        end
    end.
Proof. destruct s; reflexivity. Qed.

Lemma contains_eq (sub s : string) :
  contains sub s
  = String.prefix sub s
    || match s with
       | EmptyString => false
       | String _ r => contains sub r
       end.
Proof. destruct s; reflexivity. Qed.

Lemma strip_prefix_some (p s r : string) :
  strip_prefix p s = Some r -> String.prefix p s = true.
Proof.
  intros H. apply strip_prefix_split in H. subst s. apply prefix_append.
Qed.

Lemma strip_prefix_none_prefix (p s : string) :
  strip_prefix p s = None -> String.prefix p s = false.
Proof.
  intros H. destruct (String.prefix p s) eqn:P; [|reflexivity].
  destruct (prefix_split _ _ P) as [r ->].
  rewrite strip_prefix_append in H. discriminate.
Qed.

(** [partition_at] splits at an occurrence of the separator. *)
Lemma partition_at_some (sep s a b : string) :
  partition_at sep s = Some (a, b) ->
  s = (a ++ sep ++ b)%string /\ contains sep s = true.
Proof.
  revert a b. induction s as [|c s IH]; intros a b H;
    rewrite partition_at_eq in H; rewrite contains_eq.
  - destruct (strip_prefix sep "") as [r|] eqn:P; [|discriminate].
    inversion H; subst. rewrite (strip_prefix_some _ _ _ P).
    split; [exact (strip_prefix_split _ _ _ P) | reflexivity].
  - destruct (strip_prefix sep (String c s)) as [r|] eqn:P.
    + inversion H; subst. rewrite (strip_prefix_some _ _ _ P).
      split; [exact (strip_prefix_split _ _ _ P) | reflexivity].
    + destruct (partition_at sep s) as [[a' b']|]; [|discriminate].
      inversion H; subst. destruct (IH a' b eq_refl) as [E C].
      rewrite C, orb_true_r. split; [|reflexivity].
      cbn [append]. now f_equal.
Qed.

Lemma partition_at_none (sep s : string) :
  partition_at sep s = None -> contains sep s = false.
Proof.
  induction s as [|c s IH]; intros H;
    rewrite partition_at_eq in H; rewrite contains_eq.
  - destruct (strip_prefix sep "") as [r|] eqn:P; [discriminate|].
    now rewrite (strip_prefix_none_prefix _ _ P).
  - destruct (strip_prefix sep (String c s)) as [r|] eqn:P; [discriminate|].
    rewrite (strip_prefix_none_prefix _ _ P).
    destruct (partition_at sep s) as [[a' b']|]; [discriminate|].
    now apply IH.
Qed.

(** The split of [partition_at] on [" - "] is at the first occurrence. *)
Lemma partition_at_first (s a b : string) :
  partition_at " - " s = Some (a, b) -> contains " - " (a ++ " -") = false.
Proof.
  revert a b. induction s as [|c s IH]; intros a b H;
    rewrite partition_at_eq in H.
  - destruct (strip_prefix " - " "") as [r|] eqn:P; [|discriminate].
    now inversion H.
  - destruct (strip_prefix " - " (String c s)) as [r|] eqn:P.
    + now inversion H.
    + destruct (partition_at " - " s) as [[a' b']|] eqn:Q; [|discriminate].
      inversion H; subst.
      change (String c a' ++ " -")%string with (String c (a' ++ " -")).
      cbn [contains]. rewrite (IH a' b eq_refl), orb_false_r.
      destruct (String.prefix " - " (String c (a' ++ " -"))) eqn:X;
        [|reflexivity].
      apply strip_prefix_none_prefix in P.
      destruct (partition_at_some _ _ _ _ Q) as [E _].
      destruct (prefix_split _ _ X) as [r Hr].
      assert (S : String c s = (" - " ++ r ++ " " ++ b)%string).
      { rewrite E.
        change (String c (a' ++ " - " ++ b))
          with (String c a' ++ " -" ++ " " ++ b)%string.
        rewrite <- append_assoc.
        change (String c a' ++ " -")%string with (String c (a' ++ " -")).
        rewrite Hr. now rewrite !append_assoc. }
      rewrite S, prefix_append in P. discriminate.
Qed.

Lemma types_item_cases (item : flat) :
  match types_item item with
  | Ret text =>
      exists a b,
        flat_get "li" item = Some (a ++ " - " ++ b)%string
        /\ contains " - " (a ++ " -") = false
        /\ text = ("<li><strong>" ++ a ++ " -</strong> " ++ b ++ "</li>"
                   ++ newline)%string
  | Raise e =>
      (e = KeyError /\ flat_mem "li" item = false)
      \/ (e = IndexError
          /\ exists li, flat_get "li" item = Some li
                        /\ contains " - " li = false)
  end.
Proof.
  unfold types_item, lookup.
  destruct (flat_get "li" item) as [li|] eqn:G; cbn [bind].
  - destruct (partition_at " - " li) as [[a b]|] eqn:P.
    + exists a, b. destruct (partition_at_some _ _ _ _ P) as [E _].
      repeat split; [now rewrite <- E | now apply partition_at_first in P].
    + right. split; [reflexivity|]. exists li.
      split; [reflexivity | now apply partition_at_none].
  - left. split; [reflexivity | now rewrite flat_get_mem, G].
Qed.

Lemma types_items_cases (types_data : list flat) (items : string) :
  match types_items types_data items with
  | Ret html =>
      exists parts,
        Forall2
          (fun item ab =>
             flat_get "li" item = Some (fst ab ++ " - " ++ snd ab)%string
             /\ contains " - " (fst ab ++ " -") = false)
          types_data parts
        /\ html
           = (items
              ++ fold_right append EmptyString
                   (map (fun ab =>
                           "<li><strong>" ++ fst ab ++ " -</strong> "
                           ++ snd ab ++ "</li>" ++ newline)
                      parts))%string
  | Raise e =>
      exists item,
        In item types_data
        /\ ((e = KeyError /\ flat_mem "li" item = false)
            \/ (e = IndexError
                /\ exists li, flat_get "li" item = Some li
                              /\ contains " - " li = false))
  end.
Proof.
  revert items. induction types_data as [|item rest IH]; intros items.
  - cbn [types_items]. exists []. split; [constructor|].
    cbn. now rewrite append_empty_r.
  - cbn [types_items]. pose proof (types_item_cases item) as H.
    destruct (types_item item) as [text|e]; cbn [bind].
    + specialize (IH (items ++ text)%string).
      destruct (types_items rest (items ++ text)) as [html|e].
      * destruct IH as [parts [F E]]. destruct H as [a [b [G [C T]]]].
        exists ((a, b) :: parts). split.
        -- constructor; [now split | exact F].
        -- rewrite E, append_assoc. cbn [map fold_right fst snd].
           now rewrite T.
      * destruct IH as [x [Hin K]]. exists x. split; [now right | exact K].
    + exists item. split; [now left | exact H].
Qed.

(** [generate_types_list_html] turns every entry whose [li] text has the
    separator [" - "] into one list item, split at the first separator:
    the label goes in bold with a dash, the rest follows.  An entry
    without [li] raises [KeyError]; an entry whose text has no separator
    raises [IndexError], so one such entry stops the generation of the
    page. *)
Theorem types_list_html_result (types_data : list flat) :
  match generate_types_list_html types_data with
  | Ret html =>
      exists parts,
        Forall2
          (fun item ab =>
             flat_get "li" item = Some (fst ab ++ " - " ++ snd ab)%string
             /\ contains " - " (fst ab ++ " -") = false)
          types_data parts
        /\ html
           = fold_right append EmptyString
               (map (fun ab =>
                       "<li><strong>" ++ fst ab ++ " -</strong> "
                       ++ snd ab ++ "</li>" ++ newline)%string
                  parts)
  | Raise e =>
      exists item,
        In item types_data
        /\ ((e = KeyError /\ flat_mem "li" item = false)
            \/ (e = IndexError
                /\ exists li, flat_get "li" item = Some li
                              /\ contains " - " li = false))
  end.
Proof. apply (types_items_cases types_data EmptyString). Qed.

(* ================================================================== *)
(** * The holiday page: payload, file and PAGE_ID line *)
(* ================================================================== *)

Lemma payload_fields_get (page_data : list (string * json)) (k : string)
    (order : list string) (payload : list (string * json)) :
  dict_get String.eqb k
    (fold_left
       (fun payload field =>
          match dict_get String.eqb field page_data with
          | Some v => dict_set String.eqb field v payload
          | None => payload
          end)
       order payload)
  = if mem k order
    then match dict_get String.eqb k page_data with
         | Some v => Some v
         | None => dict_get String.eqb k payload
         end
    else dict_get String.eqb k payload.
Proof.
  revert payload. induction order as [|f order IH]; intros payload;
    [reflexivity|].
  cbn [fold_left]. rewrite IH. unfold mem. cbn [existsb]. fold (mem k order).
  destruct (String.eqb k f) eqn:E.
  - apply String.eqb_eq in E. subst f. cbn [orb].
    destruct (dict_get String.eqb k page_data) as [v|] eqn:G.
    + rewrite (dict_get_set_same String.eqb string_eqb_spec).
      now destruct (mem k order).
    + now destruct (mem k order).
  - apply String.eqb_neq in E. cbn [orb].
    assert (O : dict_get String.eqb k
                  match dict_get String.eqb f page_data with
                  | Some v => dict_set String.eqb f v payload
                  | None => payload
                  end
                = dict_get String.eqb k payload).
    { destruct (dict_get String.eqb f page_data); [|reflexivity].
      now apply (dict_get_set_other String.eqb string_eqb_spec). }
    now rewrite O.
Qed.

Lemma mem_same_elements (k : string) (l l' : list string) :
  (forall x, In x l <-> In x l') -> mem k l = mem k l'.
Proof.
  intros H. destruct (mem k l') eqn:M.
  - apply mem_In. apply H. now apply mem_In.
  - apply mem_false. intros Hin. apply H in Hin.
    apply mem_false in M. contradiction.
Qed.

(** The payload of the holiday page holds exactly the updateable fields
    that the page has, each with the value of the page, in whatever order
    the set of field names is gone through: every other member of the page
    is left out. *)
Theorem prepare_update_payload_lookup
    (order : list string) (page_data : list (string * json)) (k : string) :
  (forall field, In field order <-> In field updateable_fields) ->
  dict_get String.eqb k (prepare_update_payload order page_data)
  = if mem k updateable_fields
    then dict_get String.eqb k page_data
    else None.
Proof.
  intros H. unfold prepare_update_payload. cbv zeta.
  pose proof (payload_fields_get page_data k order []) as P.
  rewrite (mem_same_elements k order updateable_fields H) in P.
  cbn [dict_get] in P.
  destruct (dict_get String.eqb "layoutSections" page_data) as [v|] eqn:L.
  - destruct (String.eqb k "layoutSections") eqn:E.
    + apply String.eqb_eq in E. subst k.
      rewrite (dict_get_set_same String.eqb string_eqb_spec).
      now rewrite L.
    + apply String.eqb_neq in E.
      rewrite (dict_get_set_other String.eqb string_eqb_spec) by exact E.
      rewrite P. destruct (mem k updateable_fields); [|reflexivity].
      now destruct (dict_get String.eqb k page_data).
  - rewrite P. destruct (mem k updateable_fields); [|reflexivity].
    now destruct (dict_get String.eqb k page_data).
Qed.

Lemma prepare_update_payload_lookup_witness :
  let page := [("id", JNum 7); ("name", JStr "Page");
               ("layoutSections", JDict [])] in
  dict_get String.eqb "id"
    (prepare_update_payload (List.rev updateable_fields) page)
  = None.
Proof.
  intros page.
  apply (prepare_update_payload_lookup (List.rev updateable_fields) page "id").
  intros field. symmetry. apply in_rev.
Defined.

Lemma updated_filename_is_updated_file (state_name : string) :
  is_updated_file (updated_filename state_name) = true.
Proof.
  unfold is_updated_file, updated_filename, startswith.
  rewrite prefix_append. rewrite <- append_assoc.
  now rewrite endswith_append.
Qed.

(** The file that payload.py saves for a state is one that the updater
    accepts, and it is the one [find_updated_file] returns when the folder
    holds no other file named [updated_..._page_content.json]. *)
Theorem find_updated_file_finds_saved_payload
    (state_name : string) (listing : list string) :
  In (updated_filename state_name) listing ->
  (forall file, In file listing -> is_updated_file file = true ->
                file = updated_filename state_name) ->
  find_updated_file listing = Some (updated_filename state_name).
Proof.
  unfold find_updated_file. intros Hin U.
  destruct (find is_updated_file listing) as [file|] eqn:F.
  - apply find_some in F. destruct F as [Hf T]. f_equal. now apply U.
  - pose proof (find_none _ _ F _ Hin) as N.
    now rewrite updated_filename_is_updated_file in N.
Qed.

Lemma find_updated_file_finds_saved_payload_witness :
  find_updated_file
    ["page_content.json"; "updated_goa_page_content.json"; "payload.py"]
  = Some (updated_filename "goa").
Proof.
  apply (find_updated_file_finds_saved_payload "goa").
  - right. left. reflexivity.
  - intros file [<-|[<-|[<-|[]]]]; [discriminate | reflexivity | discriminate].
Defined.

Lemma page_id_line_is_page_id_line (page_id : string) :
  is_page_id_line (page_id_line page_id) = true.
Proof. unfold is_page_id_line, page_id_line, startswith. apply prefix_append. Qed.

Lemma replace_page_id_first (page_id : string) (pre : list string) :
  (forall line, In line pre -> is_page_id_line line = false) ->
  replace_page_id page_id pre = None
  /\ forall line post,
       is_page_id_line line = true ->
       replace_page_id page_id (pre ++ line :: post)
       = Some (pre ++ page_id_line page_id :: post).
Proof.
  induction pre as [|x pre IH]; intros H.
  - split; [reflexivity|]. intros line post L. cbn. now rewrite L.
  - assert (X : is_page_id_line x = false) by (apply H; now left).
    destruct IH as [N S]; [intros l Hl; apply H; now right|].
    split.
    + cbn. now rewrite X, N.
    + intros line post L. cbn. rewrite X, (S line post L). reflexivity.
Qed.

(** [update_env_page_id] rewrites the first line of .env that starts with
    [PAGE_ID=] and leaves every other line as it is, later [PAGE_ID=]
    lines included; when no line starts with [PAGE_ID=] the new line goes
    last. *)
Theorem update_env_lines_first_line
    (page_id : string) (pre : list string) :
  (forall line, In line pre -> is_page_id_line line = false) ->
  update_env_lines page_id pre = pre ++ [page_id_line page_id]
  /\ forall line post,
       is_page_id_line line = true ->
       update_env_lines page_id (pre ++ line :: post)
       = pre ++ page_id_line page_id :: post.
Proof.
  intros H. destruct (replace_page_id_first page_id pre H) as [N S].
  unfold update_env_lines. split.
  - now rewrite N.
  - intros line post L. now rewrite (S line post L).
Qed.

Lemma update_env_lines_first_line_witness :
  update_env_lines "42" ["KEY=abc"; "PAGE_ID=7"; "PAGE_ID=8"]
  = ["KEY=abc"; page_id_line "42"; "PAGE_ID=8"].
Proof.
  destruct (update_env_lines_first_line "42" ["KEY=abc"]) as [_ H].
  - intros line [<-|[]]. reflexivity.
  - apply (H "PAGE_ID=7" ["PAGE_ID=8"]). reflexivity.
Defined.

Lemma lines_split_at_page_id (lines : list string) :
  (forall line, In line lines -> is_page_id_line line = false)
  \/ exists pre line post,
       lines = pre ++ line :: post
       /\ (forall x, In x pre -> is_page_id_line x = false)
       /\ is_page_id_line line = true.
Proof.
  induction lines as [|x lines IH].
  - left. intros line [].
  - destruct (is_page_id_line x) eqn:X.
    + right. exists [], x, lines. repeat split; [intros y [] | exact X].
    + destruct IH as [N|[pre [line [post [E [P L]]]]]].
      * left. intros line [<-|Hin]; [exact X | now apply N].
      * right. exists (x :: pre), line, post. rewrite E.
        repeat split; [|exact L].
        intros y [<-|Hy]; [exact X | now apply P].
Qed.

(** On one list of lines, setting the page id twice is setting it once,
    to the second value. *)
Lemma update_env_lines_twice
    (first second : string) (lines : list string) :
  update_env_lines second (update_env_lines first lines)
  = update_env_lines second lines.
Proof.
  destruct (lines_split_at_page_id lines)
    as [N|[pre [line [post [-> [P L]]]]]]; unfold update_env_lines.
  - destruct (replace_page_id_first first lines N) as [E _].
    destruct (replace_page_id_first second lines N) as [E2 S].
    rewrite E, E2.
    now rewrite (S (page_id_line first) []
                   (page_id_line_is_page_id_line first)).
  - destruct (replace_page_id_first first pre P) as [_ S1].
    destruct (replace_page_id_first second pre P) as [_ S2].
    rewrite (S1 line post L), (S2 line post L).
    now rewrite (S2 (page_id_line first) post
                   (page_id_line_is_page_id_line first)).
Qed.

Lemma one_line_append (a b : string) :
  one_line (a ++ b) = one_line a && one_line b.
Proof.
  unfold one_line. rewrite !has_char_append.
  destruct (has_char "010" a), (has_char "010" b), (has_char "013" a),
    (has_char "013" b); reflexivity.
Qed.

Lemma one_line_cons (c : ascii) (r : string) :
  one_line (String c r)
  = negb (Ascii.eqb c "010") && negb (Ascii.eqb c "013") && one_line r.
Proof.
  unfold one_line. cbn [has_char].
  destruct (Ascii.eqb c "010"), (Ascii.eqb c "013"), (has_char "010" r),
    (has_char "013" r); reflexivity.
Qed.

(** What the reader is given holds no carriage return. *)
Lemma translate_newlines_no_cr (b : bool) (s : string) :
  has_char "013" (translate_newlines b s) = false.
Proof.
  revert b. induction s as [|c r IH]; intros b; [reflexivity|].
  cbn [translate_newlines]. destruct (Ascii.eqb c "013") eqn:C.
  - cbn [has_char]. now rewrite IH.
  - destruct (Ascii.eqb c "010") eqn:L.
    + destruct b; [apply IH | cbn [has_char]; now rewrite IH].
    + cbn [has_char]. now rewrite C, IH.
Qed.

(** A text without carriage returns is given as it is. *)
Lemma translate_newlines_id (s : string) :
  has_char "013" s = false -> translate_newlines false s = s.
Proof.
  induction s as [|c r IH]; [reflexivity|]. cbn [has_char translate_newlines].
  intros H. apply orb_false_iff in H. destruct H as [C H].
  rewrite C. destruct (Ascii.eqb c "010") eqn:L.
  - apply Ascii.eqb_eq in L. subst c. now rewrite IH.
  - now rewrite IH.
Qed.

Lemma translate_newlines_empty (b : bool) (s : string) :
  translate_newlines b s = EmptyString ->
  s = EmptyString \/ (b = true /\ s = newline).
Proof.
  destruct s as [|c r]; [now left|]. cbn [translate_newlines].
  destruct (Ascii.eqb c "013"); [discriminate|].
  destruct (Ascii.eqb c "010") eqn:L; [|discriminate].
  destruct b; [|discriminate].
  apply Ascii.eqb_eq in L. subst c.
  destruct r as [|d r']; [now right|]. cbn [translate_newlines].
  destruct (Ascii.eqb d "013"); [discriminate|].
  destruct (Ascii.eqb d "010"); discriminate.
Qed.

(** The text given to the reader ends in a line feed, or is empty, when
    the text in the file ends in a line feed or a carriage return, or is
    empty. *)
Lemma translate_newlines_ends (b : bool) (s : string) :
  ends_in_newline s = true ->
  match last_char (translate_newlines b s) with
  | None => True
  | Some c => c = "010"%char
  end.
Proof.
  revert b. induction s as [|c r IH]; intros b E; [exact I|].
  assert (Step : forall x b',
             (translate_newlines b' r = EmptyString -> x = "010"%char) ->
             ends_in_newline r = true ->
             match last_char (String x (translate_newlines b' r)) with
             | None => True
             | Some y => y = "010"%char
             end).
  { intros x b' X Er. cbn [last_char].
    destruct (translate_newlines b' r) as [|y t] eqn:T.
    - now apply X.
    - rewrite <- T. now apply IH. }
  assert (Er : ends_in_newline r = true).
  { destruct r; [reflexivity | exact E]. }
  assert (E0 : r = EmptyString ->
               Ascii.eqb c "010" || Ascii.eqb c "013" = true).
  { intros ->. exact E. }
  cbn [translate_newlines]. destruct (Ascii.eqb c "013") eqn:C.
  - apply Step; [reflexivity | exact Er].
  - destruct (Ascii.eqb c "010") eqn:L.
    + destruct b; [now apply IH|].
      apply Step; [reflexivity | exact Er].
    + apply Step; [|exact Er].
      intros T. apply translate_newlines_empty in T.
      destruct T as [T|[T _]]; [|discriminate].
      specialize (E0 T). discriminate.
Qed.

Lemma last_char_some (c : ascii) (r : string) :
  exists x, last_char (String c r) = Some x.
Proof.
  revert c. induction r as [|d r IH]; intros c; [now exists c|].
  destruct (IH d) as [x X]. exists x. exact X.
Qed.

(** The lines of a text that ends in a line feed are whole lines. *)
Lemma lines_from_whole (t line : string) :
  has_char "013" t = false ->
  one_line line = true ->
  match last_char t with
  | None => line = EmptyString
  | Some c => c = "010"%char
  end ->
  Forall whole_line (lines_from line t).
Proof.
  revert line. induction t as [|c r IH]; intros line CR O E.
  - cbn in E. subst line. constructor.
  - cbn [has_char] in CR. apply orb_false_iff in CR. destruct CR as [C CR].
    cbn [lines_from]. destruct (Ascii.eqb c "010") eqn:L.
    + constructor; [now exists line|].
      apply IH; [exact CR | reflexivity|].
      destruct r as [|d r']; [reflexivity|].
      change (last_char (String c (String d r')))
        with (last_char (String d r')) in E.
      destruct (last_char_some d r') as [x X]. now rewrite X in *.
    + apply IH; [exact CR | |].
      * rewrite one_line_append, O, one_line_cons, L, C. reflexivity.
      * destruct r as [|d r'].
        -- cbn in E. subst c. discriminate.
        -- change (last_char (String c (String d r')))
             with (last_char (String d r')) in E.
           destruct (last_char_some d r') as [x X]. now rewrite X in *.
Qed.

Lemma lines_from_line (body rest line : string) :
  has_char "010" body = false ->
  lines_from line (body ++ newline ++ rest)
  = (line ++ body ++ newline)%string :: lines_from "" rest.
Proof.
  revert line. induction body as [|c b IH]; intros line H.
  - reflexivity.
  - cbn [has_char] in H. apply orb_false_iff in H. destruct H as [C H].
    cbn [append lines_from]. rewrite C, IH by exact H.
    now rewrite append_assoc.
Qed.

Lemma writelines_no_cr (lines : list string) :
  Forall whole_line lines -> has_char "013" (writelines lines) = false.
Proof.
  induction 1 as [|l ls [body [-> O]] _ IH]; [reflexivity|].
  cbn [writelines fold_right]. fold (writelines ls).
  rewrite !has_char_append, IH.
  unfold one_line in O. apply andb_true_iff in O. destruct O as [_ O].
  apply negb_true_iff in O. now rewrite O.
Qed.

(** Whole lines are read back as they were written. *)
Lemma readlines_writelines (lines : list string) :
  Forall whole_line lines -> readlines (writelines lines) = lines.
Proof.
  intros W. unfold readlines.
  rewrite translate_newlines_id by now apply writelines_no_cr.
  induction W as [|l ls [body [-> O]] _ IH]; [reflexivity|].
  cbn [writelines fold_right]. fold (writelines ls).
  rewrite append_assoc, lines_from_line.
  - now rewrite IH.
  - unfold one_line in O. apply andb_true_iff in O. destruct O as [O _].
    now apply negb_true_iff in O.
Qed.

Lemma readlines_whole (text : string) :
  ends_in_newline text = true -> Forall whole_line (readlines text).
Proof.
  intros E. unfold readlines. apply lines_from_whole.
  - apply translate_newlines_no_cr.
  - reflexivity.
  - pose proof (translate_newlines_ends false text E) as T.
    now destruct (last_char (translate_newlines false text)).
Qed.

Lemma update_env_lines_whole (page_id : string) (lines : list string) :
  one_line page_id = true -> Forall whole_line lines ->
  Forall whole_line (update_env_lines page_id lines).
Proof.
  intros O W.
  assert (P : whole_line (page_id_line page_id)).
  { exists ("PAGE_ID=" ++ page_id)%string. split.
    - unfold page_id_line. now rewrite append_assoc.
    - now rewrite one_line_append, O. }
  destruct (lines_split_at_page_id lines)
    as [N|[pre [line [post [E [Q L]]]]]].
  - destruct (replace_page_id_first page_id lines N) as [R _].
    unfold update_env_lines. rewrite R. apply Forall_app. split; [exact W|].
    now constructor.
  - destruct (replace_page_id_first page_id pre Q) as [_ R].
    unfold update_env_lines. rewrite E, (R line post L).
    rewrite E in W. apply Forall_app in W. destruct W as [W1 W2].
    apply Forall_app. split; [exact W1|].
    inversion W2; subst. now constructor.
Qed.

(** Updating the page id of a .env file twice leaves the text that one
    update with the second id leaves, when the text ends in a line break
    (or is empty) and the first id holds none: the file then gains at most
    one line, however often the automation runs.  The text must end in a
    line break: after a last line that has none, the new line is glued to
    it and is not found by the next update. *)
Theorem update_env_file_last_wins (first second text : string) :
  ends_in_newline text = true ->
  one_line first = true ->
  update_env_file second (update_env_file first text)
  = update_env_file second text.
Proof.
  intros E O. unfold update_env_file.
  rewrite readlines_writelines.
  - now rewrite update_env_lines_twice.
  - apply update_env_lines_whole; [exact O | now apply readlines_whole].
Qed.

Lemma update_env_file_last_wins_witness :
  update_env_file "2" (update_env_file "1" ("KEY=abc" ++ newline))
  = update_env_file "2" ("KEY=abc" ++ newline).
Proof.
  apply (update_env_file_last_wins "1" "2" ("KEY=abc" ++ newline));
    reflexivity.
Defined.

(** Without a line break at the end of the text the two differ. *)
Example update_env_file_glued :
  update_env_file "2" (update_env_file "1" "KEY=abc")
  = ("KEY=abcPAGE_ID=1" ++ newline ++ "PAGE_ID=2" ++ newline)%string
  /\ update_env_file "2" "KEY=abc" = ("KEY=abcPAGE_ID=2" ++ newline)%string.
Proof. split; reflexivity. Qed.
